(** * A feed-forward neural network trainer: layers, back-propagation,
      mini-batch stochastic gradient descent

    Shallow embedding of the training core (ActivationFunction, CostFunction,
    Layer, Network, StochasticGradientDescent).

    - [double] is an abstract type [F] with the operations the code applies
      to it (class [Scalar]); no algebraic law is assumed, so every result
      holds for IEEE-754 arithmetic with its rounding, NaN and infinities.
    - An Eigen vector is a list of scalars; an Eigen matrix is its column
      count together with the list of its rows.  Where Eigen asserts that the
      operands' dimensions agree the model returns [Err SizeMismatch], and
      where it asserts that an index is in range, [Err OutOfBounds].
    - A C++ exception is an [Err] outcome that every caller passes on. *)

From Stdlib Require Import String Ascii.
From Stdlib Require Import List ZArith Lia Bool Arith PeanoNat Permutation.
From Stdlib Require Import Reals Lra.
From Stdlib Require PrimFloat.
Import ListNotations.

Set Implicit Arguments.

(** ** Outcomes *)

Inductive error : Type :=
| RangeError       (* std::range_error, thrown by Network::train *)
| NotImplemented   (* std::logic_error, thrown by Softmax::calculate_derivative *)
| SizeMismatch     (* Eigen assertion: operands of different dimensions *)
| OutOfBounds      (* access outside a vector (Eigen coefficient, std::vector element) *)
| DivisionByZero.  (* integer division by zero *)

Inductive result (A : Type) : Type :=
| Ok (a : A)
| Err (e : error).

Arguments Ok {A} a.
Arguments Err {A} e.

Definition bind {A B : Type} (r : result A) (k : A -> result B) : result B :=
  match r with
  | Ok a => k a
  | Err e => Err e
  end.

Declare Scope result_scope.
Delimit Scope result_scope with result.
Notation "x <- r ;; k" := (bind r (fun x => k))
  (at level 61, r at next level, right associativity) : result_scope.
Notation "' p <- r ;; k" := (bind r (fun x => match x with p => k end))
  (at level 61, p pattern, r at next level, right associativity) : result_scope.
Open Scope result_scope.

Definition is_ok {A : Type} (r : result A) : bool :=
  match r with Ok _ => true | Err _ => false end.

(** ** Scalars: the operations on [double] *)

Class Scalar (F : Type) : Type := {
  zero : F;
  one : F;
  half : F;                     (* the literal 0.5 *)
  two : F;                      (* the literal 2 *)
  add : F -> F -> F;
  sub : F -> F -> F;
  mul : F -> F -> F;
  div : F -> F -> F;
  neg : F -> F;
  exp : F -> F;
  log : F -> F;
  sqrt : F -> F;
  pow : F -> F -> F;            (* std::pow *)
  gtb : F -> F -> bool;         (* a > b *)
  isfinite : F -> bool;         (* std::isfinite *)
  of_size : nat -> F;           (* conversion size_t -> double *)
  to_prediction : F -> Z        (* static_cast<PREDICTION>, PREDICTION an integer type *)
}.

(** The random engine and [std::shuffle]. *)
Class Shuffler (Rng : Type) : Type := {
  shuffle : forall A : Type, Rng -> list A -> list A * Rng
}.

(** The contract of [std::shuffle]: it reorders the range. *)
Class ShuffleSpec (Rng : Type) `{Shuffler Rng} : Prop :=
  shuffle_perm : forall (A : Type) (g : Rng) (l : list A),
      Permutation l (fst (shuffle g l)).

(** Integer arithmetic as a small executable instance of the interface. *)
#[local] Instance ZScalar : Scalar Z := {|
  zero := 0%Z; one := 1%Z; half := 0%Z; two := 2%Z;
  add := Z.add; sub := Z.sub; mul := Z.mul; div := Z.quot;
  neg := Z.opp;
  exp := fun z => Z.pow 2 z; log := Z.log2; sqrt := Z.sqrt;
  pow := Z.pow;
  gtb := Z.gtb; isfinite := fun _ => true;
  of_size := Z.of_nat; to_prediction := fun z => z
|}.

(** The real numbers: [double] read as an exact real, every value finite.
    The conversion to an integer truncates towards zero. *)
#[local] Instance RScalar : Scalar R := {|
  zero := 0%R; one := 1%R; half := (/ 2)%R; two := 2%R;
  add := Rplus; sub := Rminus; mul := Rmult; div := Rdiv;
  neg := Ropp;
  exp := Rtrigo_def.exp; log := Rpower.ln; sqrt := R_sqrt.sqrt;
  pow := Rpower.Rpower;
  gtb := fun a b => if Rgt_dec a b then true else false;
  isfinite := fun _ => true;
  of_size := INR;
  to_prediction := fun r => if Rle_dec 0 r then Int_part r else (- Int_part (- r))%Z
|}.

(** Binary64, the kernel's IEEE 754 double: the type the code computes
    with.  [+], [-], [*], [/], unary minus, [sqrt], [>] and finiteness are
    the machine's operations; [std::exp], [std::log], [std::pow] and the
    conversions from and to integers are library functions, taken as
    arguments of the instance. *)
Module Binary64.
Import PrimFloat.

Definition Scalar64 (libm_exp libm_log : float -> float)
    (libm_pow : float -> float -> float)
    (size2double : nat -> float) (double2int : float -> Z) : Scalar float :=
  @Build_Scalar float 0%float 1%float 0.5%float 2%float
    PrimFloat.add PrimFloat.sub PrimFloat.mul PrimFloat.div PrimFloat.opp
    libm_exp libm_log PrimFloat.sqrt libm_pow
    (fun a b => PrimFloat.ltb b a) PrimFloat.is_finite
    size2double double2int.

Definition three : float := 3%float.

(** The doubles nearest to [e^3] and to [e^-3]: 20.085536923187668 and
    0.049787068367863944. *)
Definition exp3 : float := 0x1.415e5bf6fb106p+4%float.
Definition expm3 : float := 0x1.97db0ccceb0afp-5%float.

(** A double and its two neighbours: the values within one unit in the
    last place of [v]. *)
Definition near (v : float) : list float := [next_down v; v; next_up v].

(** An exponential that is known at 3 and at -3 only. *)
Definition expAt (e em : float) (x : float) : float :=
  if (x =? 3)%float then e else if (x =? -3)%float then em else nan.

(** Doubles with the nearest values of [exp] at 3 and -3; the other
    library functions are not called by [Logistic]. *)
Definition nearestAt3 : Scalar float :=
  Scalar64 (expAt exp3 expm3) (fun _ => nan) (fun _ _ => nan)
           (fun _ => nan) (fun _ => 0%Z).

End Binary64.

(** A deterministic engine: the state counts the calls, and an odd state
    reverses the range. *)
#[local] Instance CounterShuffler : Shuffler nat := {|
  shuffle := fun A g l => (if Nat.odd g then rev l else l, S g)
|}.

Section Model.

Context {F : Type} {SF : Scalar F} {Rng : Type} {SR : Shuffler Rng}.

(** ** Eigen vectors and arrays *)

(** An Eigen vector. *)
Local Abbreviation Vec := (list F).

Fixpoint zipWith {A B C : Type} (f : A -> B -> C) (xs : list A) (ys : list B) : list C :=
  match xs, ys with
  | x :: xs', y :: ys' => f x y :: zipWith f xs' ys'
  | _, _ => []
  end.

(** [v.sum()]: 0 on the empty vector, otherwise the first coefficient to
    which the others are added in index order. *)
Definition sum (v : Vec) : F :=
  match v with
  | [] => zero
  | x :: xs => fold_left add xs x
  end.

(** Coefficient-wise binary operation; Eigen asserts equal sizes. *)
Definition cwise (op : F -> F -> F) (a b : Vec) : result Vec :=
  if length a =? length b then Ok (zipWith op a b) else Err SizeMismatch.

Definition cwiseProduct : Vec -> Vec -> result Vec := cwise mul.
Definition cwiseQuotient : Vec -> Vec -> result Vec := cwise div.
Definition vec_add : Vec -> Vec -> result Vec := cwise add.
Definition vec_sub : Vec -> Vec -> result Vec := cwise sub.

Definition unaryExpr (f : F -> F) (v : Vec) : Vec := map f v.
Definition array_neg (v : Vec) : Vec := map neg v.                    (* -v.array() *)
Definition array_exp (v : Vec) : Vec := map exp v.                    (* v.array().exp() *)
Definition array_log (v : Vec) : Vec := map log v.                    (* v.array().log() *)
Definition array_plus (v : Vec) (c : F) : Vec := map (fun x => add x c) v.  (* v.array() + c *)
Definition scalar_minus (c : F) (v : Vec) : Vec := map (fun x => sub c x) v. (* c - v.array() *)
Definition cwiseInverse (v : Vec) : Vec := map (fun x => div one x) v.
Definition vec_div_scalar (v : Vec) (c : F) : Vec := map (fun x => div x c) v.
Definition vec_scale (c : F) (v : Vec) : Vec := map (mul c) v.         (* c * v *)
Definition VecZero (n : nat) : Vec := repeat zero n.

Definition squaredNorm (v : Vec) : F := sum (map (fun x => mul x x) v).
Definition norm (v : Vec) : F := sqrt (squaredNorm v).

(** ** Eigen matrices *)

Record Matrix : Type := mkMatrix {
  mcols : nat;
  mdata : list Vec          (* the rows *)
}.

Definition mrows (m : Matrix) : nat := length (mdata m).

Definition MatZero (r c : nat) : Matrix := mkMatrix c (repeat (VecZero c) r).

Definition dot (a b : Vec) : F := sum (zipWith mul a b).

(** [m * x] *)
Definition mat_vec (m : Matrix) (x : Vec) : result Vec :=
  if mcols m =? length x then Ok (map (fun row => dot row x) (mdata m))
  else Err SizeMismatch.

Definition column (m : Matrix) (j : nat) : Vec := map (fun row => nth j row zero) (mdata m).

(** [m.transpose() * d] *)
Definition matT_vec (m : Matrix) (d : Vec) : result Vec :=
  if mrows m =? length d then Ok (map (fun j => dot (column m j) d) (seq 0 (mcols m)))
  else Err SizeMismatch.

(** [d * a.transpose()] *)
Definition outer (d a : Vec) : Matrix :=
  mkMatrix (length a) (map (fun di => map (fun aj => mul di aj) a) d).

Definition mat_scale (c : F) (m : Matrix) : Matrix :=
  mkMatrix (mcols m) (map (vec_scale c) (mdata m)).

Definition mat_add (a b : Matrix) : result Matrix :=
  if (mrows a =? mrows b) && (mcols a =? mcols b)
  then Ok (mkMatrix (mcols a) (zipWith (zipWith add) (mdata a) (mdata b)))
  else Err SizeMismatch.

(** [m.norm()], the Frobenius norm. *)
Definition mat_norm (m : Matrix) : F := sqrt (sum (map squaredNorm (mdata m))).

(** Coefficient [(i, j)]. *)
Definition coeff (m : Matrix) (i j : nat) : F := nth j (nth i (mdata m) []) zero.

(** A matrix of [r] rows and [c] columns. *)
Definition shape (m : Matrix) (r c : nat) : Prop :=
  mrows m = r /\ mcols m = c /\ Forall (fun row => length row = c) (mdata m).

(** ** ActivationFunction *)

Inductive ActivationFunction : Type := Logistic | Softmax.

Definition Logistic_calculate (z : Vec) : Vec :=
  cwiseInverse (array_plus (array_exp (array_neg z)) one).

Definition Logistic_calculate_derivative (z : Vec) : result Vec :=
  let f := Logistic_calculate z in
  cwiseProduct f (scalar_minus one f).

Definition Softmax_calculate (z : Vec) : Vec :=
  let zExp := array_exp z in
  vec_div_scalar zExp (sum zExp).

Definition Softmax_calculate_derivative (z : Vec) : result Vec :=
  Err NotImplemented.

Definition calculate (f : ActivationFunction) (z : Vec) : Vec :=
  match f with
  | Logistic => Logistic_calculate z
  | Softmax => Softmax_calculate z
  end.

Definition calculate_derivative (f : ActivationFunction) (z : Vec) : result Vec :=
  match f with
  | Logistic => Logistic_calculate_derivative z
  | Softmax => Softmax_calculate_derivative z
  end.

(** ** CostFunction *)

Inductive CostFunction : Type := Quadratic | CrossEntropy.

Definition Quadratic_calculate (x t : Vec) : result F :=
  d <- vec_sub t x ;;
  Ok (mul half (pow (norm d) two)).

Definition Quadratic_calculate_derivative (x t : Vec) : result Vec :=
  vec_sub x t.

Definition finite_or_zero (v : F) : F := if isfinite v then v else zero.

Definition CrossEntropy_calculate (x t : Vec) : result F :=
  p <- cwiseProduct t (array_log x) ;;
  q <- cwiseProduct (scalar_minus one t) (array_log (scalar_minus one x)) ;;
  res <- vec_sub (array_neg p) q ;;
  Ok (sum (unaryExpr finite_or_zero res)).

Definition CrossEntropy_calculate_derivative (x t : Vec) : result Vec :=
  n <- vec_sub x t ;;
  d <- cwiseProduct x (scalar_minus one x) ;;
  cwiseQuotient n d.

Definition cost_calculate (c : CostFunction) (x t : Vec) : result F :=
  match c with
  | Quadratic => Quadratic_calculate x t
  | CrossEntropy => CrossEntropy_calculate x t
  end.

Definition cost_calculate_derivative (c : CostFunction) (x t : Vec) : result Vec :=
  match c with
  | Quadratic => Quadratic_calculate_derivative x t
  | CrossEntropy => CrossEntropy_calculate_derivative x t
  end.

(** ** Layer *)

Record Layer : Type := mkLayer {
  size : nat;
  activationFunction : ActivationFunction;
  bias : Vec;
  weight : Matrix
}.

Definition getSize (l : Layer) : nat := size l.

(** [z = weight * x + bias] *)
Definition weightedInput (l : Layer) (x : Vec) : result Vec :=
  wx <- mat_vec (weight l) x ;;
  vec_add wx (bias l).

Definition Layer_feedForward (l : Layer) (x : Vec) : result Vec :=
  z <- weightedInput l x ;;
  Ok (calculate (activationFunction l) z).

(** The overload that also hands out the weighted input: [(a, z)]. *)
Definition Layer_feedForward_az (l : Layer) (x : Vec) : result (Vec * Vec) :=
  z <- weightedInput l x ;;
  Ok (calculate (activationFunction l) z, z).

(** Returns [(delta_nabla_b, delta_nabla_w, deltaPrevious)]. *)
Definition feedBackward (l : Layer) (deltaPrevious a z : Vec) : result (Vec * Matrix * Vec) :=
  sigmaDerivative <- calculate_derivative (activationFunction l) z ;;
  delta <- cwiseProduct deltaPrevious sigmaDerivative ;;
  let delta_nabla_w := outer delta a in
  let delta_nabla_b := delta in
  deltaPrevious' <- matT_vec (weight l) delta ;;
  Ok (delta_nabla_b, delta_nabla_w, deltaPrevious').

Definition updateBiasWeight (l : Layer) (nabla_b : Vec) (nabla_w : Matrix)
    (learningRateRatio regularizationRatio : F) : result Layer :=
  bias' <- vec_add (bias l) (vec_scale learningRateRatio nabla_b) ;;
  inc <- mat_add (mat_scale learningRateRatio nabla_w)
                 (mat_scale regularizationRatio (weight l)) ;;
  weight' <- mat_add (weight l) inc ;;
  Ok (mkLayer (size l) (activationFunction l) bias' weight').

(** ** Network *)

Definition DataLabel_Pair : Type := (Vec * Vec)%type.
Definition DataLabel_Set : Type := list DataLabel_Pair.

Record Network : Type := mkNetwork {
  inputSize : nat;
  layers : list Layer;
  costFunction : CostFunction;
  rngEngine : Rng;                  (* the engine held by the optimizer *)
  trainingCost : list F;
  trainingAccuracy : list F;
  evaluationCost : list F;
  evaluationAccuracy : list F
}.

Definition getNumberOfLayers (net : Network) : nat := length (layers net).

(** [layers.back()] *)
Fixpoint back (ls : list Layer) : result Layer :=
  match ls with
  | [] => Err OutOfBounds
  | [l] => Ok l
  | _ :: ls' => back ls'
  end.

(** [v.maxCoeff(&index)]: the index of the first coefficient that no later
    one exceeds, found by a left-to-right scan with [>]. *)
Fixpoint maxCoeff_scan (best : F) (bestIdx i : nat) (v : Vec) : nat :=
  match v with
  | [] => bestIdx
  | x :: xs => if gtb x best then maxCoeff_scan x i (S i) xs
               else maxCoeff_scan best bestIdx (S i) xs
  end.

Definition maxCoeff_index (v : Vec) : nat :=
  match v with
  | [] => 0
  | x :: xs => maxCoeff_scan x 0 1 xs
  end.

Definition output2prediction (output : Vec) : result Z :=
  if 1 <? length output then Ok (Z.of_nat (maxCoeff_index output))
  else match output with
       | [] => Err OutOfBounds
       | v :: _ => Ok (to_prediction v)
       end.

(** [v(i) = x] *)
Fixpoint set_nth (v : Vec) (i : nat) (x : F) : Vec :=
  match v, i with
  | [], _ => []
  | _ :: v', O => x :: v'
  | y :: v', S i' => y :: set_nth v' i' x
  end.

Definition set_coeff (v : Vec) (i : Z) (x : F) : result Vec :=
  if ((0 <=? i) && (i <? Z.of_nat (length v)))%Z then Ok (set_nth v (Z.to_nat i) x)
  else Err OutOfBounds.

Definition prediction2output (ls : list Layer) (prediction : Vec) : result Vec :=
  if 1 <? length prediction then Ok prediction
  else
    lastLayer <- back ls ;;
    match prediction with
    | [] => Err OutOfBounds
    | v :: _ => set_coeff (VecZero (getSize lastLayer)) (to_prediction v) one
    end.

Fixpoint Network_feedForward (ls : list Layer) (a : Vec) : result Vec :=
  match ls with
  | [] => Ok a
  | l :: ls' => a' <- Layer_feedForward l a ;; Network_feedForward ls' a'
  end.

Definition predict (net : Network) (input : Vec) : result Z :=
  out <- Network_feedForward (layers net) input ;;
  output2prediction out.

(** One iteration of the loop over the data in [calcAccuracyAndCost]. *)
Definition evaluateSample (ls : list Layer) (cf : CostFunction)
    (acc : nat * F) (input : DataLabel_Pair) : result (nat * F) :=
  let '(correct, cost) := acc in
  predictedOutput <- Network_feedForward ls (fst input) ;;
  prediction <- output2prediction predictedOutput ;;
  expectedOutput <- prediction2output ls (snd input) ;;
  expected <- output2prediction (snd input) ;;
  let correct' := if (prediction =? expected)%Z then S correct else correct in
  c <- cost_calculate cf predictedOutput expectedOutput ;;
  Ok (correct', add cost c).

Fixpoint evaluateData (ls : list Layer) (cf : CostFunction)
    (acc : nat * F) (data : DataLabel_Set) : result (nat * F) :=
  match data with
  | [] => Ok acc
  | input :: rest => acc' <- evaluateSample ls cf acc input ;; evaluateData ls cf acc' rest
  end.

Definition costRegularization (ls : list Layer) : F :=
  fold_left (fun acc l => add acc (pow (mat_norm (weight l)) two)) ls zero.

Definition calcAccuracyAndCost (ls : list Layer) (cf : CostFunction)
    (data : DataLabel_Set) (lambda : F) : result (nat * F) :=
  '(correct, cost) <- evaluateData ls cf (0, zero) data ;;
  Ok (correct, add cost (mul (div lambda two) (costRegularization ls))).

(** The forward loop of [backPropagate]: the weighted inputs [zs] and the
    activations that follow the input. *)
Fixpoint forwardPass (ls : list Layer) (a : Vec) : result (list Vec * list Vec) :=
  match ls with
  | [] => Ok ([], [])
  | l :: ls' =>
      '(a', z) <- Layer_feedForward_az l a ;;
      '(zs, acts) <- forwardPass ls' a' ;;
      Ok (z :: zs, a' :: acts)
  end.

(** The backward loop, from the last layer to the first: each entry is a
    layer with the activation that enters it and its weighted input. *)
Fixpoint backwardPass (items : list (Layer * (Vec * Vec))) (delta : Vec)
    : result (list (Vec * Matrix) * Vec) :=
  match items with
  | [] => Ok ([], delta)
  | (l, (a, z)) :: rest =>
      '(nablas, d) <- backwardPass rest delta ;;
      '(delta_nabla_b, delta_nabla_w, d') <- feedBackward l d a z ;;
      Ok ((delta_nabla_b, delta_nabla_w) :: nablas, d')
  end.

Definition backPropagate (ls : list Layer) (cf : CostFunction) (x y : Vec)
    : result (list (Vec * Matrix)) :=
  '(zs, acts) <- forwardPass ls x ;;
  let activations := x :: acts in
  delta <- cost_calculate_derivative cf (last activations x) y ;;
  '(nablas, _) <- backwardPass (combine ls (combine activations zs)) delta ;;
  Ok nablas.

(** The zeroed accumulators [(nabla_b, nabla_w)], one pair per layer. *)
Fixpoint zeroNablas (previousSize : nat) (ls : list Layer) : list (Vec * Matrix) :=
  match ls with
  | [] => []
  | l :: ls' =>
      (VecZero (getSize l), MatZero (getSize l) previousSize) :: zeroNablas (getSize l) ls'
  end.

(** [nabla_b[i] += delta_nabla_b[i]; nabla_w[i] += delta_nabla_w[i]] for every layer. *)
Fixpoint accumulate (nabla delta_nabla : list (Vec * Matrix)) : result (list (Vec * Matrix)) :=
  match nabla, delta_nabla with
  | (nb, nw) :: ns, (db, dw) :: ds =>
      nb' <- vec_add nb db ;;
      nw' <- mat_add nw dw ;;
      rest <- accumulate ns ds ;;
      Ok ((nb', nw') :: rest)
  | [], _ => Ok []
  | _ :: _, [] => Err OutOfBounds
  end.

Fixpoint accumulateBatch (ls : list Layer) (cf : CostFunction)
    (training : DataLabel_Set) (nabla : list (Vec * Matrix)) : result (list (Vec * Matrix)) :=
  match training with
  | [] => Ok nabla
  | (x, y) :: rest =>
      delta_nabla <- backPropagate ls cf x y ;;
      nabla' <- accumulate nabla delta_nabla ;;
      accumulateBatch ls cf rest nabla'
  end.

Fixpoint updateLayers (ls : list Layer) (nabla : list (Vec * Matrix))
    (learningRateRatio regularizationRatio : F) : result (list Layer) :=
  match ls, nabla with
  | [], _ => Ok []
  | l :: ls', (nb, nw) :: ns =>
      l' <- updateBiasWeight l nb nw learningRateRatio regularizationRatio ;;
      rest <- updateLayers ls' ns learningRateRatio regularizationRatio ;;
      Ok (l' :: rest)
  | _ :: _, [] => Err OutOfBounds
  end.

Definition updateParameters (inSize : nat) (cf : CostFunction) (training : DataLabel_Set)
    (learningRateRatio regularizationRatio : F) (ls : list Layer) : result (list Layer) :=
  match ls with
  | [] => Err OutOfBounds              (* layers[0] of an empty vector *)
  | _ :: _ =>
      nabla <- accumulateBatch ls cf training (zeroNablas inSize ls) ;;
      updateLayers ls nabla learningRateRatio regularizationRatio
  end.

(** ** StochasticGradientDescent *)

(** A default-constructed pair of vectors. *)
Definition emptyPair : DataLabel_Pair := ([], []).

(** [std::swap_ranges(a.begin() + i0, a.begin() + i0 + n, b.begin())]:
    returns the two containers after the exchange. *)
Definition swap_ranges {A : Type} (i0 n : nat) (a b : list A) : result (list A * list A) :=
  if (i0 + n <=? length a) && (n <=? length b)
  then Ok (firstn i0 a ++ firstn n b ++ skipn (i0 + n) a,
           firstn n (skipn i0 a) ++ skipn n b)
  else Err OutOfBounds.

Section Optimize.

(** The state the callback [update_network] works on, and the callback. *)
Context {St : Type} (update_network : DataLabel_Set -> F -> F -> St -> result St).

(** The loop over the batches with [n] iterations left; the exit carries the
    training set and the callback's state as they are when the loop is left. *)
Fixpoint batchLoop (n iBatch batchSize : nat) (learningRateRatio regularizationRatio : F)
    (training batch : DataLabel_Set) (s : St) : DataLabel_Set * St * result unit :=
  match n with
  | O => (training, s, Ok tt)
  | S n' =>
      let initialBatchIndex := iBatch * batchSize in
      match swap_ranges initialBatchIndex batchSize training batch with
      | Err e => (training, s, Err e)
      | Ok (training1, batch1) =>
          match update_network batch1 learningRateRatio regularizationRatio s with
          | Err e => (training1, s, Err e)
          | Ok s' =>
              match swap_ranges initialBatchIndex (length batch1) training1 batch1 with
              | Err e => (training1, s', Err e)
              | Ok (training2, batch2) =>
                  batchLoop n' (S iBatch) batchSize
                    learningRateRatio regularizationRatio training2 batch2 s'
              end
          end
      end
  end.

Definition optimize (rng : Rng) (training : DataLabel_Set) (nBatches batchSize : nat)
    (learningRateRatio regularizationRatio : F) (s : St)
    : DataLabel_Set * Rng * St * result unit :=
  let '(shuffled, rng') := shuffle rng training in
  let batch := repeat emptyPair batchSize in
  let '(training', s', outcome) :=
    batchLoop nBatches 0 batchSize learningRateRatio regularizationRatio shuffled batch s in
  (training', rng', s', outcome).

End Optimize.

(** ** Network::train *)

Definition setLayers (net : Network) (ls : list Layer) (rng : Rng) : Network :=
  mkNetwork (inputSize net) ls (costFunction net) rng
    (trainingCost net) (trainingAccuracy net) (evaluationCost net) (evaluationAccuracy net).

Definition pushMetrics (net : Network) (tc ta ec ea : F) : Network :=
  mkNetwork (inputSize net) (layers net) (costFunction net) (rngEngine net)
    (trainingCost net ++ [tc]) (trainingAccuracy net ++ [ta])
    (evaluationCost net ++ [ec]) (evaluationAccuracy net ++ [ea]).

Fixpoint epochLoop (nEpoch : nat) (net : Network) (training evaluation : DataLabel_Set)
    (nTraining nBatches batchSize nEvaluation : nat)
    (learningRateRatio regularizationRatio : F) : Network * DataLabel_Set * result unit :=
  match nEpoch with
  | O => (net, training, Ok tt)
  | S nEpoch' =>
      let '(training', rng', ls', outcome) :=
        optimize (updateParameters (inputSize net) (costFunction net))
          (rngEngine net) training nBatches batchSize
          learningRateRatio regularizationRatio (layers net) in
      let net1 := setLayers net ls' rng' in
      match outcome with
      | Err e => (net1, training', Err e)
      | Ok _ =>
          match calcAccuracyAndCost (layers net1) (costFunction net1) training' zero with
          | Err e => (net1, training', Err e)
          | Ok (nTrainingSuccess, tCost) =>
              match calcAccuracyAndCost (layers net1) (costFunction net1) evaluation zero with
              | Err e => (net1, training', Err e)
              | Ok (nEvaluationSuccess, eCost) =>
                  let tCost' := div tCost (of_size nTraining) in
                  let eCost' := div eCost (of_size nEvaluation) in
                  let net2 := pushMetrics net1 tCost'
                                (div (of_size nTrainingSuccess) (of_size nTraining))
                                eCost'
                                (div (of_size nEvaluationSuccess) (of_size nEvaluation)) in
                  epochLoop nEpoch' net2 training' evaluation
                    nTraining nBatches batchSize nEvaluation
                    learningRateRatio regularizationRatio
              end
          end
      end
  end.

Definition train (net : Network) (training evaluation : DataLabel_Set)
    (nEpoch batchSize : nat) (eta lambda : F) : Network * DataLabel_Set * result unit :=
  match training with
  | [] => (net, training, Err OutOfBounds)          (* training.front() *)
  | front :: _ =>
      if negb (length (fst front) =? inputSize net) then (net, training, Err RangeError)
      else
        match back (layers net) with
        | Err e => (net, training, Err e)
        | Ok lastLayer =>
            if negb (length (snd front) =? getSize lastLayer)
            then (net, training, Err RangeError)
            else if batchSize =? 0 then (net, training, Err DivisionByZero)
            else
              let nTraining := length training in
              let nBatches := nTraining / batchSize in
              let nEvaluation := length evaluation in
              let learningRateRatio := div (neg eta) (of_size batchSize) in
              let regularizationRatio := div (mul (neg eta) lambda) (of_size nTraining) in
              epochLoop nEpoch net training evaluation
                nTraining nBatches batchSize nEvaluation
                learningRateRatio regularizationRatio
        end
  end.

(** ** Shapes, and the formulas the specification states *)

(** Every layer's bias has [size] coefficients and its weight matrix has
    [size] rows and as many columns as the layer before it has neurons
    ([previousSize]: the input size for the first layer). *)
Fixpoint wf_layers (previousSize : nat) (ls : list Layer) : Prop :=
  match ls with
  | [] => True
  | l :: ls' =>
      length (bias l) = size l /\ shape (weight l) (size l) previousSize /\
      wf_layers (size l) ls'
  end.

Fixpoint outputSize (previousSize : nat) (ls : list Layer) : nat :=
  match ls with
  | [] => previousSize
  | l :: ls' => outputSize (size l) ls'
  end.

(** The dimensions [(rows, columns)] of each layer's weight matrix. *)
Fixpoint dims (previousSize : nat) (ls : list Layer) : list (nat * nat) :=
  match ls with
  | [] => []
  | l :: ls' => (size l, previousSize) :: dims (size l) ls'
  end.

Definition hasDims (ds : list (nat * nat)) (ns : list (Vec * Matrix)) : Prop :=
  Forall2 (fun d n => length (fst n) = fst d /\ shape (snd n) (fst d) (snd d)) ds ns.

(** The cross-entropy as the specification words it: one term per
    component, a non-finite term counted as 0, and the terms summed. *)
Definition crossEntropyTerm (predicted target : F) : F :=
  sub (neg (mul target (log predicted)))
      (mul (sub one target) (log (sub one predicted))).

Definition crossEntropySum (predicted target : Vec) : F :=
  sum (map (fun i => finite_or_zero
                       (crossEntropyTerm (nth i predicted zero) (nth i target zero)))
           (seq 0 (length predicted))).

(** Sum of two per-layer gradients, and of the gradients of a batch. *)
Definition addNabla (n d : Vec * Matrix) : Vec * Matrix :=
  (zipWith add (fst n) (fst d),
   mkMatrix (mcols (snd n)) (zipWith (zipWith add) (mdata (snd n)) (mdata (snd d)))).

Definition sumNablas (start : list (Vec * Matrix)) (gs : list (list (Vec * Matrix)))
    : list (Vec * Matrix) :=
  fold_left (zipWith addNabla) gs start.

(** The [iBatch]-th contiguous slice of [batchSize] samples. *)
Definition batchSlice (shuffled : DataLabel_Set) (batchSize iBatch : nat) : DataLabel_Set :=
  firstn batchSize (skipn (iBatch * batchSize) shuffled).

(** The callback run on a list of batches in turn, stopping at a failure. *)
Fixpoint runBatches {St : Type} (update_network : DataLabel_Set -> F -> F -> St -> result St)
    (learningRateRatio regularizationRatio : F) (batches : list DataLabel_Set) (s : St)
    : St * result unit :=
  match batches with
  | [] => (s, Ok tt)
  | b :: rest =>
      match update_network b learningRateRatio regularizationRatio s with
      | Err e => (s, Err e)
      | Ok s' => runBatches update_network learningRateRatio regularizationRatio rest s'
      end
  end.

(** A callback that only records the batches it is given. *)
Definition recordBatch (b : DataLabel_Set) (_ _ : F) (log : list DataLabel_Set)
    : result (list DataLabel_Set) :=
  Ok (log ++ [b]).

(** The entries of the backward loop: a layer, the activation that enters
    it and its weighted input.  [chain_in] is the length of the error signal
    that leaves the first entry; [chain_wf] says that every entry's matrix
    takes the activation stored with it and that the weighted input and the
    error signal that reaches the entry have the layer's size. *)
Definition chain_in (items : list (Layer * (Vec * Vec))) (outLen : nat) : nat :=
  match items with
  | [] => outLen
  | (_, (a, _)) :: _ => length a
  end.

Fixpoint chain_wf (items : list (Layer * (Vec * Vec))) (outLen : nat) : Prop :=
  match items with
  | [] => True
  | (l, (a, z)) :: rest =>
      shape (weight l) (size l) (length a) /\ length z = size l /\
      chain_in rest outLen = size l /\ chain_wf rest outLen
  end.

Definition chain_dims (items : list (Layer * (Vec * Vec))) : list (nat * nat) :=
  map (fun it => (size (fst it), length (fst (snd it)))) items.

(** [backPropagate] on every sample of a batch, at the same layers. *)
Fixpoint backPropagateAll (ls : list Layer) (cf : CostFunction) (batch : DataLabel_Set)
    : result (list (list (Vec * Matrix))) :=
  match batch with
  | [] => Ok []
  | (x, y) :: rest =>
      g <- backPropagate ls cf x y ;;
      gs <- backPropagateAll ls cf rest ;;
      Ok (g :: gs)
  end.

Definition wellShaped (inSize : nat) (ls : list Layer) (sample : DataLabel_Pair) : Prop :=
  length (fst sample) = inSize /\ length (snd sample) = outputSize inSize ls.

Definition isLogistic (l : Layer) : Prop := activationFunction l = Logistic.
Definition isSoftmax (l : Layer) : Prop := activationFunction l = Softmax.

(** An outcome other than the range error of [Network::train]. *)
Definition noRange {A : Type} (r : result A) : Prop := r <> Err RangeError.

End Model.

(** * Factories, builder, persistence and reader *)

(** The exceptions of this part of the code, and a call that returns or throws. *)
Inductive exception : Type :=
| LogicError (what : string)   (* std::logic_error with its message *)
| InvalidArgument              (* std::invalid_argument of std::stod, std::stoull *)
| ZeroDivide.                  (* integer division by zero *)

Inductive outcome (A : Type) : Type :=
| Returns (a : A)
| Throws (e : exception).

Arguments Returns {A} a.
Arguments Throws {A} e.

(** ** Names and factories *)

Definition Logistic_Name : string := "logistic".
Definition Softmax_Name : string := "softmax".
Definition QuadraticCostFunction_Name : string := "quadratic".
Definition CrossEntropy_Name : string := "crossentropy".
Definition StochasticGradientDescent_Name : string := "stochastic".

Inductive Optimizers : Type := SGD.

Definition ActivationFunction_getName (f : ActivationFunction) : string :=
  match f with
  | Logistic => Logistic_Name
  | Softmax => Softmax_Name
  end.

Definition CostFunction_getName (c : CostFunction) : string :=
  match c with
  | Quadratic => QuadraticCostFunction_Name
  | CrossEntropy => CrossEntropy_Name
  end.

Definition Optimizer_getName (o : Optimizers) : string :=
  match o with
  | SGD => StochasticGradientDescent_Name
  end.

Definition ActivationFunctionFactory_str2enum (name : string) : outcome ActivationFunction :=
  if String.eqb name Logistic_Name then Returns Logistic
  else if String.eqb name Softmax_Name then Returns Softmax
  else Throws (LogicError
         (String.append
            "ActivationFunctionFactory::str2enum : unknown activation function name " name)).

Definition CostFunctionFactory_str2enum (name : string) : outcome CostFunction :=
  if String.eqb name QuadraticCostFunction_Name then Returns Quadratic
  else if String.eqb name CrossEntropy_Name then Returns CrossEntropy
  else Throws (LogicError
         (String.append "CostFunctionFactory::str2enum : unknown cost function name " name)).

Definition OptimizerFactory_str2enum (name : string) : outcome Optimizers :=
  if String.eqb name StochasticGradientDescent_Name then Returns SGD
  else Throws (LogicError
         (String.append "OptimizerFactory::str2enum : unknown optimizer name " name)).

(** Text conversions: [operator<<] on a double (with Eigen's FullPrecision)
    and on a [size_t], [std::stod] and [std::stoull]. *)
Class TextIO (F : Type) : Type := {
  printDouble : F -> string;
  stod : string -> option F;
  printSize : nat -> string;
  stoull : string -> option nat
}.

(** What is written can be read back. *)
Class TextRoundTrip (F : Type) `{TextIO F} : Prop := {
  stod_printDouble : forall x : F, stod (printDouble x) = Some x;
  stoull_printSize : forall n : nat, stoull (printSize n) = Some n
}.

(** Seeding of [std::default_random_engine]. *)
Class Seeder (Rng : Type) : Type := {
  seedEngine : N -> Rng
}.

(** Integers printed in unary: a text instance that computes. *)
#[local] Instance ZTextIO : TextIO Z := {|
  printDouble := fun z =>
    String.append (if (z <? 0)%Z then "-" else "+")
                  (String.concat "" (repeat "1"%string (Z.abs_nat z)));
  stod := fun s =>
    match s with
    | String "+" r => Some (Z.of_nat (String.length r))
    | String "-" r => Some (- Z.of_nat (String.length r))%Z
    | _ => None
    end;
  printSize := fun n => String.concat "" (repeat "1"%string n);
  stoull := fun s => Some (String.length s)
|}.

#[local] Instance CounterSeeder : Seeder nat := {|
  seedEngine := fun s => N.to_nat s
|}.

Section ModelRest.

Context {F : Type} {SF : Scalar F} {Rng : Type} {SR : Shuffler Rng}.
Context {TIO : TextIO F} {SE : Seeder Rng}.

Local Abbreviation Vec := (list F).
Local Abbreviation LayerF := (@Layer F).
Local Abbreviation MatrixF := (@Matrix F).
Local Abbreviation NetworkF := (@Network F Rng).
Local Abbreviation PairF := (@DataLabel_Pair F).

(** ** Layer: construction, initialization, parameters *)

(** [Layer(size, activationFunction)]: bias and weight are empty. *)
Definition Layer_new (size : nat) (f : ActivationFunction) : LayerF :=
  mkLayer size f [] (mkMatrix 0 []).

(** [initialize(bias, weight)]: assignment, nothing is checked. *)
Definition Layer_initialize (l : LayerF) (b : Vec) (w : MatrixF) : LayerF :=
  mkLayer (size l) (activationFunction l) b w.

Definition getParameters (l : LayerF) : Vec * MatrixF * ActivationFunction :=
  (bias l, weight l, activationFunction l).

Section Generator.

(** The generator function: every call draws a value and advances the
    state of the engine it is bound to. *)
Context {G : Type} (generatorFunc : G -> F * G).

(** [n] successive draws. *)
Fixpoint draws (n : nat) (g : G) : Vec * G :=
  match n with
  | O => ([], g)
  | S n' =>
      let '(v, g1) := generatorFunc g in
      let '(vs, g2) := draws n' g1 in
      (v :: vs, g2)
  end.

(** A matrix of [r] rows and [c] columns filled from the values [vs] in
    column-major order, the order in which Eigen evaluates the coefficients. *)
Definition fromColumnMajor (r c : nat) (vs : Vec) : MatrixF :=
  mkMatrix c (map (fun i => map (fun j => nth (j * r + i) vs zero) (seq 0 c)) (seq 0 r)).

Definition mat_div_scalar (m : MatrixF) (s : F) : MatrixF :=
  mkMatrix (mcols m) (map (fun row => vec_div_scalar row s) (mdata m)).

(** [initialize(previousLayerSize, generatorFunc)] *)
Definition Layer_initialize_random (l : LayerF) (previousLayerSize : nat) (g : G) : LayerF * G :=
  let '(b, g1) := draws (getSize l) g in
  let '(ws, g2) := draws (getSize l * previousLayerSize) g1 in
  (mkLayer (size l) (activationFunction l) b
     (mat_div_scalar (fromColumnMajor (getSize l) previousLayerSize ws)
        (sqrt (of_size previousLayerSize))),
   g2).

(** [Network::addLayer] *)
Definition addLayer (net : NetworkF) (layer : LayerF) (isNotInitialized : bool) (g : G)
    : NetworkF * G :=
  let '(layer', g') :=
    if isNotInitialized then
      let previousLayerSize :=
        match back (layers net) with
        | Err _ => inputSize net          (* getNumberOfLayers() == 0 *)
        | Ok lastLayer => getSize lastLayer
        end in
      Layer_initialize_random layer previousLayerSize g
    else (layer, g) in
  (mkNetwork (inputSize net) (layers net ++ [layer']) (costFunction net) (rngEngine net)
     (trainingCost net) (trainingAccuracy net) (evaluationCost net) (evaluationAccuracy net),
   g').

End Generator.

(** ** NetworkBuilder *)

Record NetworkBuilder : Type := mkBuilder {
  b_inputSize : nat;
  b_costFunction : CostFunction;
  b_optimizer : Optimizers;
  b_isTrueRandom : bool
}.

Definition setInputSize (b : NetworkBuilder) (n : nat) : NetworkBuilder :=
  mkBuilder n (b_costFunction b) (b_optimizer b) (b_isTrueRandom b).

Definition setCostFunction (b : NetworkBuilder) (c : CostFunction) : NetworkBuilder :=
  mkBuilder (b_inputSize b) c (b_optimizer b) (b_isTrueRandom b).

Definition setCostFunction_name (b : NetworkBuilder) (name : string) : outcome NetworkBuilder :=
  match CostFunctionFactory_str2enum name with
  | Returns c => Returns (setCostFunction b c)
  | Throws e => Throws e
  end.

Definition setOptimizer (b : NetworkBuilder) (o : Optimizers) : NetworkBuilder :=
  mkBuilder (b_inputSize b) (b_costFunction b) o (b_isTrueRandom b).

Definition setOptimizer_name (b : NetworkBuilder) (name : string) : outcome NetworkBuilder :=
  match OptimizerFactory_str2enum name with
  | Returns o => Returns (setOptimizer b o)
  | Throws e => Throws e
  end.

Definition setIsTrueRandom (b : NetworkBuilder) (r : bool) : NetworkBuilder :=
  mkBuilder (b_inputSize b) (b_costFunction b) (b_optimizer b) r.

(** [build]: a network without layers and without metrics; [entropy] is the
    value [std::random_device] yields, used only for a truly random seed. *)
Definition build (b : NetworkBuilder) (entropy : N) : NetworkF :=
  mkNetwork (b_inputSize b) [] (b_costFunction b)
    (seedEngine (if b_isTrueRandom b then entropy else 17111993%N))
    [] [] [] [].

Definition createLayer (size : nat) (activation : ActivationFunction) : LayerF :=
  Layer_new size activation.

(** A line of the parameter file, as the cells that
    [std::getline(stream, cell, ',')] yields one after the other. *)
Definition Line : Type := list string.

(** [save]: the first line holds the input size and the cost function's
    name; every layer gives three lines: the bias, the weight matrix row
    after row, and the activation function's name. *)
Definition saveLayer (l : LayerF) : list Line :=
  let '(b, w, f) := getParameters l in
  [map printDouble b; map printDouble (concat (mdata w)); [ActivationFunction_getName f]].

Definition save (net : NetworkF) : list Line :=
  [printSize (inputSize net); CostFunction_getName (costFunction net)]
    :: concat (map saveLayer (layers net)).

(** The cell a [getline] yields: empty when the line has no such cell. *)
Definition cellAt (l : Line) (i : nat) : string := nth i l EmptyString.

(** [values.push_back(std::stod(cell))] for every cell of the line. *)
Fixpoint readValues (l : Line) : outcome Vec :=
  match l with
  | [] => Returns []
  | cell :: rest =>
      match stod cell with
      | None => Throws InvalidArgument
      | Some v =>
          match readValues rest with
          | Returns vs => Returns (v :: vs)
          | Throws e => Throws e
          end
      end
  end.

(** [Map<MatrixXd>(values, cols, rows).transpose()]: row [i] of the result
    is the [i]-th run of [cols] values. *)
Definition fromRowMajor (r c : nat) (values : Vec) : MatrixF :=
  mkMatrix c (map (fun i => firstn c (skipn (i * c) values)) (seq 0 r)).

(** The state of the reading loop of [load]. *)
Record LoadState : Type := mkLoadState {
  ld_builder : NetworkBuilder;
  ld_bias : Vec;
  ld_weight : MatrixF;
  ld_layers : list LayerF;
  ld_iRow : nat
}.

(** One iteration of the loop: the line in row [iRow]. *)
Definition loadLine (st : LoadState) (line : Line) : outcome LoadState :=
  let iRow := ld_iRow st in
  if 0 <? iRow then
    if (iRow - 1) mod 3 =? 2 then
      match ActivationFunctionFactory_str2enum (cellAt line 0) with
      | Throws e => Throws e
      | Returns f =>
          let layer :=
            Layer_initialize (createLayer (length (ld_bias st)) f) (ld_bias st) (ld_weight st) in
          Returns (mkLoadState (ld_builder st) (ld_bias st) (ld_weight st)
                     (ld_layers st ++ [layer]) (S iRow))
      end
    else
      match readValues line with
      | Throws e => Throws e
      | Returns values =>
          if (iRow - 1) mod 3 =? 0 then
            Returns (mkLoadState (ld_builder st) values (ld_weight st) (ld_layers st) (S iRow))
          else
            let rows := length (ld_bias st) in
            if rows =? 0 then Throws ZeroDivide
            else
              Returns (mkLoadState (ld_builder st) (ld_bias st)
                         (fromRowMajor rows (length values / rows) values)
                         (ld_layers st) (S iRow))
      end
  else
    match stoull (cellAt line 0) with
    | None => Throws InvalidArgument
    | Some n =>
        match setCostFunction_name (setInputSize (ld_builder st) n) (cellAt line 1) with
        | Throws e => Throws e
        | Returns b =>
            Returns (mkLoadState b (ld_bias st) (ld_weight st) (ld_layers st) (S iRow))
        end
    end.

Fixpoint loadLines (st : LoadState) (lines : list Line) : outcome LoadState :=
  match lines with
  | [] => Returns st
  | line :: rest =>
      match loadLine st line with
      | Throws e => Throws e
      | Returns st' => loadLines st' rest
      end
  end.

(** [load]: read the lines, build the network, add the layers as they are.
    Returns the builder, which the call modifies, and the network. *)
Definition load (b : NetworkBuilder) (entropy : N) (lines : list Line)
    : outcome (NetworkBuilder * NetworkF) :=
  match loadLines (mkLoadState b [] (mkMatrix 0 []) [] 0) lines with
  | Throws e => Throws e
  | Returns st =>
      let net := build (ld_builder st) entropy in
      Returns (ld_builder st,
               fold_left (fun n layer => fst (addLayer (fun u : unit => (zero, u))
                                                n layer false tt))
                         (ld_layers st) net)
  end.

(** ** CSVReader *)

(** One row of [read_csv_MNIST] from column [colIdx] on: the cells before
    column [splitIndex] are data, divided by 255, the others are labels. *)
Fixpoint readRow (splitIndex colIdx : nat) (cells : Line) : outcome (Vec * Vec) :=
  match cells with
  | [] => Returns ([], [])
  | cell :: rest =>
      match stod cell with
      | None => Throws InvalidArgument
      | Some v =>
          match readRow splitIndex (S colIdx) rest with
          | Throws e => Throws e
          | Returns (data, label) =>
              if colIdx <? splitIndex
              then Returns (div v (of_size 255) :: data, label)
              else Returns (data, v :: label)
          end
      end
  end.

Fixpoint read_csv_MNIST (rows : list Line) (splitIndex : nat) : outcome (list (Vec * Vec)) :=
  match rows with
  | [] => Returns []
  | row :: rest =>
      match readRow splitIndex 0 row with
      | Throws e => Throws e
      | Returns sample =>
          match read_csv_MNIST rest splitIndex with
          | Throws e => Throws e
          | Returns samples => Returns (sample :: samples)
          end
      end
  end.

(** ** Predictions and counts *)

(** The sample is one that [calcAccuracyAndCost] counts as correct. *)
Definition correctlyPredicted (net : NetworkF) (sample : PairF) : bool :=
  match predict net (fst sample), output2prediction (snd sample) with
  | Ok prediction, Ok expected => (prediction =? expected)%Z
  | _, _ => false
  end.

(** A sample that [calcAccuracyAndCost] can evaluate on a network with
    [inSize] inputs and [outSize] outputs: the label is a full output
    vector, or one coefficient that casts to an index of the output. *)
Definition evaluable (inSize outSize : nat) (sample : PairF) : Prop :=
  length (fst sample) = inSize /\
  (length (snd sample) = outSize \/
   exists s, snd sample = [s] /\ (0 <= to_prediction s < Z.of_nat outSize)%Z).

(** The part of a layer that training never changes. *)
Definition layerKind (l : LayerF) : nat * ActivationFunction :=
  (size l, activationFunction l).

(** The four metric sequences have grown by [tc], [ta], [ec], [ea]. *)
Definition metricsGrown (net net' : NetworkF) (tc ta ec ea : list F) : Prop :=
  trainingCost net' = trainingCost net ++ tc /\
  trainingAccuracy net' = trainingAccuracy net ++ ta /\
  evaluationCost net' = evaluationCost net ++ ec /\
  evaluationAccuracy net' = evaluationAccuracy net ++ ea.

End ModelRest.

(** * A small network over the integer instance *)

Definition exHidden : @Layer Z :=
  mkLayer 2 Logistic [1; -1]%Z (mkMatrix 2 [[1; 2]; [3; 4]]%Z).

Definition exOutput : @Layer Z :=
  mkLayer 1 Logistic [0]%Z (mkMatrix 2 [[1; 1]]%Z).

Definition exSoftmaxOutput : @Layer Z :=
  mkLayer 1 Softmax [0]%Z (mkMatrix 2 [[1; 1]]%Z).

Definition exLayers : list (@Layer Z) := [exHidden; exOutput].

Definition exTraining : @DataLabel_Set Z :=
  [([1; 2], [1]); ([0; 1], [0]); ([3; 0], [1])]%Z.

Definition exNetwork : @Network Z nat :=
  mkNetwork 2 exLayers Quadratic 0 [] [] [] [].

Definition exSoftmaxNetwork : @Network Z nat :=
  mkNetwork 2 [exHidden; exSoftmaxOutput] Quadratic 0 [] [] [] [].

(** A network with two outputs, its training set with one-hot labels, and
    a builder. *)
Definition exTwoOutput : @Layer Z :=
  mkLayer 2 Logistic [0; 1]%Z (mkMatrix 2 [[1; 1]; [0; 2]]%Z).

Definition exWideNetwork : @Network Z nat :=
  mkNetwork 2 [exHidden; exTwoOutput] Quadratic 0 [] [] [] [].

Definition exWideTraining : @DataLabel_Set Z :=
  [([1; 2], [1; 0]); ([0; 1], [0; 1])]%Z.

Definition exBuilder : NetworkBuilder := mkBuilder 0 CrossEntropy SGD false.

(** A callback that always throws. *)
Definition failingUpdate (_ : @DataLabel_Set Z) (_ _ : Z) (s : unit) : result unit :=
  Err NotImplemented.

(** * Properties *)

Section Properties.

Context {F : Type} {SF : Scalar F} {Rng : Type} {SR : Shuffler Rng}.

Local Abbreviation Vec := (list F).

Implicit Types (a b d x y z v : Vec) (m w : @Matrix F) (l : @Layer F).

(** ** Lists *)

Lemma zipWith_length {A B C : Type} (f : A -> B -> C) (xs : list A) (ys : list B) :
  length (zipWith f xs ys) = Nat.min (length xs) (length ys).
Proof.
  revert ys; induction xs as [|x xs IH]; intros [|y ys]; simpl; auto.
Qed.

Lemma zipWith_nth {A B C : Type} (f : A -> B -> C) (xs : list A) (ys : list B)
    (i : nat) (da : A) (db : B) (dc : C) :
  i < length xs -> i < length ys ->
  nth i (zipWith f xs ys) dc = f (nth i xs da) (nth i ys db).
Proof.
  revert ys i; induction xs as [|x xs IH]; intros [|y ys] [|i]; simpl; intros; try lia; auto.
  apply IH; lia.
Qed.

Lemma zipWith_seq {A B C : Type} (f : A -> B -> C) (xs : list A) (ys : list B)
    (da : A) (db : B) :
  length xs = length ys ->
  zipWith f xs ys = map (fun i => f (nth i xs da) (nth i ys db)) (seq 0 (length xs)).
Proof.
  revert ys; induction xs as [|x xs IH]; intros [|y ys]; simpl; intros Hl; try discriminate; auto.
  f_equal. rewrite <- seq_shift, map_map. apply IH. lia.
Qed.

(** ** Coefficient-wise operations *)

Lemma cwise_ok (op : F -> F -> F) a b :
  length a = length b -> cwise op a b = Ok (zipWith op a b).
Proof. intros H; unfold cwise; rewrite H, Nat.eqb_refl; reflexivity. Qed.

Lemma cwise_inv (op : F -> F -> F) a b v :
  cwise op a b = Ok v -> length a = length b /\ v = zipWith op a b.
Proof.
  unfold cwise; destruct (length a =? length b) eqn:E; intros H; inversion H.
  apply Nat.eqb_eq in E; auto.
Qed.

Lemma cwise_length (op : F -> F -> F) a b v :
  cwise op a b = Ok v -> length v = length a /\ length v = length b.
Proof.
  intros H; apply cwise_inv in H as [Hl ->]; rewrite zipWith_length; lia.
Qed.

Lemma shape_coeff_row m r c i :
  shape m r c -> i < r -> length (nth i (mdata m) []) = c.
Proof.
  intros (Hr & _ & Hf) Hi. unfold mrows in Hr.
  rewrite Forall_forall in Hf; apply Hf, nth_In; lia.
Qed.

Lemma mat_scale_shape s m r c : shape m r c -> shape (mat_scale s m) r c.
Proof.
  intros (Hr & Hc & Hf); unfold shape, mrows, mat_scale in *; simpl.
  rewrite length_map; repeat split; auto.
  rewrite Forall_map; eapply Forall_impl; [|exact Hf].
  intros row Hrow; unfold vec_scale; rewrite length_map; exact Hrow.
Qed.

Lemma mat_scale_coeff s m r c i j :
  shape m r c -> i < r -> j < c -> coeff (mat_scale s m) i j = mul s (coeff m i j).
Proof.
  intros Hs Hi Hj; unfold coeff, mat_scale; simpl.
  pose proof (shape_coeff_row Hs Hi) as Hrow.
  destruct Hs as (Hr & _ & _); unfold mrows in Hr.
  rewrite (nth_indep _ [] (vec_scale s [])) by (rewrite length_map; lia).
  rewrite map_nth. unfold vec_scale.
  rewrite (nth_indep _ zero (mul s zero)) by (rewrite length_map; lia).
  rewrite map_nth; reflexivity.
Qed.

Lemma mat_add_ok m1 m2 r c :
  shape m1 r c -> shape m2 r c ->
  exists m, mat_add m1 m2 = Ok m /\ shape m r c /\
    mdata m = zipWith (zipWith add) (mdata m1) (mdata m2) /\
    forall i j, i < r -> j < c -> coeff m i j = add (coeff m1 i j) (coeff m2 i j).
Proof.
  intros H1 H2.
  pose proof H1 as (Hr1 & Hc1 & Hf1); pose proof H2 as (Hr2 & Hc2 & Hf2).
  unfold mat_add. rewrite Hr1, Hr2, Hc1, Hc2, !Nat.eqb_refl; simpl.
  eexists; split; [reflexivity|]. unfold mrows in *.
  assert (Hrow : forall i, i < r ->
            length (nth i (mdata m1) []) = c /\ length (nth i (mdata m2) []) = c).
  { intros i Hi; split; eapply shape_coeff_row; eauto. }
  split; [|split].
  - split; [|split]; simpl; auto.
    + unfold mrows; simpl; rewrite zipWith_length; lia.
    + apply Forall_forall; intros row Hin.
      destruct (In_nth _ _ [] Hin) as (i & Hi & <-).
      rewrite zipWith_length in Hi.
      rewrite (zipWith_nth _ _ _ [] [] []) by lia.
      rewrite zipWith_length. destruct (Hrow i) as [-> ->]; lia.
  - reflexivity.
  - intros i j Hi Hj; unfold coeff; simpl.
    rewrite (zipWith_nth _ _ _ [] [] []) by lia.
    destruct (Hrow i Hi) as [E1 E2].
    apply zipWith_nth; lia.
Qed.

Lemma vec_scale_nth s v i :
  i < length v -> nth i (vec_scale s v) zero = mul s (nth i v zero).
Proof.
  intros Hi; unfold vec_scale.
  rewrite (nth_indep _ zero (mul s zero)) by (rewrite length_map; lia).
  apply map_nth.
Qed.

Lemma updateBiasWeight_bias l (nabla_b : Vec) (nabla_w : Matrix) (lr reg : F) l' :
  updateBiasWeight l nabla_b nabla_w lr reg = Ok l' ->
  bias l' = zipWith add (bias l) (vec_scale lr nabla_b).
Proof.
  unfold updateBiasWeight, vec_add.
  destruct (cwise add (bias l) (vec_scale lr nabla_b)) as [b'|] eqn:Eb; simpl; [|discriminate].
  apply cwise_inv in Eb as [_ ->].
  destruct (mat_add _ _); simpl; [|discriminate].
  destruct (mat_add _ _); simpl; [|discriminate].
  intros H; inversion H; reflexivity.
Qed.

(** ** Layer::updateBiasWeight *)

(** C3. For a layer with [r] neurons and [c] inputs and gradients of the
    same dimensions, [updateBiasWeight] succeeds; every bias coefficient
    becomes [bias + lrRatio * gradBias], every weight coefficient becomes
    [weight + (lrRatio * gradWeight + regRatio * weight)], size and
    activation are kept, and the new bias does not depend on the
    regularization ratio at all. *)
Theorem updateBiasWeight_spec l (gradBias : Vec) (gradWeight : Matrix)
    (lrRatio regRatio : F) (r c : nat) :
  length (bias l) = r -> shape (weight l) r c ->
  length gradBias = r -> shape gradWeight r c ->
  exists l',
    updateBiasWeight l gradBias gradWeight lrRatio regRatio = Ok l' /\
    size l' = size l /\ activationFunction l' = activationFunction l /\
    length (bias l') = r /\ shape (weight l') r c /\
    (forall i, i < r ->
       nth i (bias l') zero = add (nth i (bias l) zero) (mul lrRatio (nth i gradBias zero))) /\
    (forall i j, i < r -> j < c ->
       coeff (weight l') i j =
       add (coeff (weight l) i j)
           (add (mul lrRatio (coeff gradWeight i j)) (mul regRatio (coeff (weight l) i j)))) /\
    (forall regRatio' l'',
       updateBiasWeight l gradBias gradWeight lrRatio regRatio' = Ok l'' ->
       bias l'' = bias l').
Proof.
  intros Hb Hw Hgb Hgw.
  destruct (mat_add_ok (mat_scale_shape lrRatio Hgw) (mat_scale_shape regRatio Hw))
    as (inc & Einc & Sinc & _ & Cinc).
  destruct (mat_add_ok Hw Sinc) as (w' & Ew' & Sw' & _ & Cw').
  assert (E : updateBiasWeight l gradBias gradWeight lrRatio regRatio =
              Ok (mkLayer (size l) (activationFunction l)
                    (zipWith add (bias l) (vec_scale lrRatio gradBias)) w')).
  { unfold updateBiasWeight, vec_add.
    rewrite cwise_ok by (unfold vec_scale; rewrite length_map; lia); simpl.
    rewrite Einc; simpl; rewrite Ew'; reflexivity. }
  eexists; split; [exact E|]; simpl.
  split; [reflexivity|]. split; [reflexivity|].
  split; [rewrite zipWith_length; unfold vec_scale; rewrite length_map; lia|].
  split; [exact Sw'|].
  split; [|split].
  - intros i Hi.
    rewrite (zipWith_nth _ _ _ zero zero zero)
      by (unfold vec_scale; try rewrite length_map; lia).
    rewrite vec_scale_nth by lia; reflexivity.
  - intros i j Hi Hj.
    rewrite Cw', Cinc by assumption.
    rewrite !(@mat_scale_coeff _ _ r c) by assumption; reflexivity.
  - intros reg' l'' H; apply updateBiasWeight_bias in H; exact H.
Qed.

(** ** ActivationFunction *)

Lemma Logistic_calculate_length z : length (Logistic_calculate z) = length z.
Proof.
  unfold Logistic_calculate, cwiseInverse, array_plus, array_exp, array_neg.
  rewrite !length_map; reflexivity.
Qed.

Lemma calculate_length f z : length (calculate f z) = length z.
Proof.
  destruct f; simpl; [apply Logistic_calculate_length|].
  unfold Softmax_calculate, vec_div_scalar, array_exp; rewrite !length_map; reflexivity.
Qed.

Lemma Logistic_calculate_derivative_ok z :
  exists sd, Logistic_calculate_derivative z = Ok sd /\ length sd = length z.
Proof.
  unfold Logistic_calculate_derivative, cwiseProduct.
  rewrite cwise_ok by (unfold scalar_minus; rewrite length_map; reflexivity).
  eexists; split; [reflexivity|].
  rewrite zipWith_length; unfold scalar_minus.
  rewrite length_map, Logistic_calculate_length; lia.
Qed.

Lemma calculate_derivative_length f z sd :
  calculate_derivative f z = Ok sd -> length sd = length z.
Proof.
  destruct f; simpl; [|discriminate].
  destruct (Logistic_calculate_derivative_ok z) as (sd' & -> & Hl).
  intros H; inversion H; subst; exact Hl.
Qed.

(** ** Layer::feedBackward *)

Lemma column_nth m r c i j :
  shape m r c -> i < r -> nth i (column m j) zero = coeff m i j.
Proof.
  intros (Hr & _ & _) Hi; unfold column, coeff, mrows in *.
  rewrite (nth_indep _ zero ((fun row => nth j row zero) [])) by (rewrite length_map; lia).
  rewrite (map_nth (fun row => nth j row zero)); reflexivity.
Qed.

Lemma matT_vec_ok m d r c :
  shape m r c -> length d = r ->
  exists v, matT_vec m d = Ok v /\ length v = c /\
    forall j, j < c ->
      nth j v zero = sum (map (fun i => mul (coeff m i j) (nth i d zero)) (seq 0 r)).
Proof.
  intros Hs Hd. pose proof Hs as (Hr & Hc & _).
  unfold matT_vec. rewrite Hr, Hd, Nat.eqb_refl.
  eexists; split; [reflexivity|]; split.
  - rewrite length_map, length_seq; exact Hc.
  - intros j Hj.
    rewrite (nth_indep _ zero ((fun j => dot (column m j) d) 0))
      by (rewrite length_map, length_seq; lia).
    rewrite (map_nth (fun j => dot (column m j) d)), seq_nth by lia; simpl.
    unfold dot.
    assert (Hlc : length (column m j) = r)
      by (unfold column; rewrite length_map; exact Hr).
    rewrite (zipWith_seq mul (column m j) d zero zero) by lia.
    rewrite Hlc. f_equal. apply map_ext_in; intros i Hi.
    apply in_seq in Hi. rewrite (column_nth j Hs) by lia; reflexivity.
Qed.

Lemma outer_shape d a : shape (outer d a) (length d) (length a).
Proof.
  unfold shape, mrows, outer; simpl; rewrite length_map; repeat split.
  rewrite Forall_map; apply Forall_forall; intros; rewrite length_map; reflexivity.
Qed.

Lemma outer_coeff d a i j :
  i < length d -> j < length a ->
  coeff (outer d a) i j = mul (nth i d zero) (nth j a zero).
Proof.
  intros Hi Hj; unfold coeff, outer; simpl.
  rewrite (nth_indep _ [] ((fun di => map (fun aj => mul di aj) a) zero))
    by (rewrite length_map; lia).
  rewrite (map_nth (fun di => map (fun aj => mul di aj) a)).
  rewrite (nth_indep _ zero ((fun aj => mul (nth i d zero) aj) zero))
    by (rewrite length_map; lia).
  rewrite (map_nth (fun aj => mul (nth i d zero) aj)); reflexivity.
Qed.

(** C1. For a layer whose weight matrix has [r] rows and [c] columns, an
    incoming error signal and a weighted input of [r] coefficients and any
    previous activation: when the activation's derivative of [z] is [sd],
    [feedBackward] returns [delta] as bias gradient, with
    [delta(i) = deltaNext(i) * sd(i)], the outer product
    [gradWeight(i,j) = delta(i) * a_prev(j)] and the propagated error
    [deltaPrev(j) = sum over i of weight(i,j) * delta(i)]; when the
    derivative fails, [feedBackward] fails the same way.  The layer's
    position in the network is not an input of the function. *)
Theorem feedBackward_spec l (deltaNext a_prev z : Vec) (r c : nat) :
  shape (weight l) r c -> length deltaNext = r -> length z = r ->
  match calculate_derivative (activationFunction l) z with
  | Err e => feedBackward l deltaNext a_prev z = Err e
  | Ok sd =>
      exists delta gradWeight deltaPrev,
        feedBackward l deltaNext a_prev z = Ok (delta, gradWeight, deltaPrev) /\
        length delta = r /\
        (forall i, i < r ->
           nth i delta zero = mul (nth i deltaNext zero) (nth i sd zero)) /\
        shape gradWeight r (length a_prev) /\
        (forall i j, i < r -> j < length a_prev ->
           coeff gradWeight i j = mul (nth i delta zero) (nth j a_prev zero)) /\
        length deltaPrev = c /\
        (forall j, j < c ->
           nth j deltaPrev zero =
           sum (map (fun i => mul (coeff (weight l) i j) (nth i delta zero)) (seq 0 r)))
  end.
Proof.
  intros Hw Hd Hz. unfold feedBackward.
  destruct (calculate_derivative (activationFunction l) z) as [sd|e] eqn:Esd; simpl;
    [|reflexivity].
  apply calculate_derivative_length in Esd.
  unfold cwiseProduct. rewrite cwise_ok by lia; simpl.
  set (delta := zipWith mul deltaNext sd).
  assert (Hl : length delta = r) by (unfold delta; rewrite zipWith_length; lia).
  destruct (matT_vec_ok delta Hw Hl) as (dp & -> & Hdp & Cdp); simpl.
  exists delta, (outer delta a_prev), dp.
  split; [reflexivity|]. split; [exact Hl|].
  split; [intros i Hi; unfold delta; apply zipWith_nth; lia|].
  split; [rewrite <- Hl; apply outer_shape|].
  split; [intros i j Hi Hj; apply outer_coeff; lia|].
  split; assumption.
Qed.

(** ** CrossEntropy::calculate *)

Lemma crossEntropy_terms (x t : Vec) :
  length x = length t ->
  unaryExpr finite_or_zero
    (zipWith sub (array_neg (zipWith mul t (array_log x)))
       (zipWith mul (scalar_minus one t) (array_log (scalar_minus one x)))) =
  map (fun i => finite_or_zero (crossEntropyTerm (nth i x zero) (nth i t zero)))
      (seq 0 (length x)).
Proof.
  revert t; induction x as [|x0 x IH]; intros [|t0 t] Hl; try discriminate; [reflexivity|].
  simpl in Hl. simpl. f_equal.
  rewrite <- seq_shift, map_map. apply IH. lia.
Qed.

(** C6. For vectors of equal length [CrossEntropy::calculate] returns the
    sum over the components of
    [-target*ln(predicted) - (1-target)*ln(1-predicted)], where a term that
    is not finite counts as 0 and a finite term counts as itself. *)
Theorem CrossEntropy_calculate_spec (predicted target : Vec) :
  length predicted = length target ->
  CrossEntropy_calculate predicted target = Ok (crossEntropySum predicted target) /\
  (forall p t, isfinite (crossEntropyTerm p t) = false ->
               finite_or_zero (crossEntropyTerm p t) = zero) /\
  (forall p t, isfinite (crossEntropyTerm p t) = true ->
               finite_or_zero (crossEntropyTerm p t) = crossEntropyTerm p t).
Proof.
  intros Hl. split; [|split].
  - unfold CrossEntropy_calculate, cwiseProduct, vec_sub, crossEntropySum.
    rewrite cwise_ok by (unfold array_log; rewrite length_map; lia); simpl.
    rewrite cwise_ok
      by (unfold array_log, scalar_minus; rewrite !length_map; lia); simpl.
    rewrite cwise_ok
      by (unfold array_neg, array_log, scalar_minus;
          rewrite length_map, !zipWith_length, !length_map; lia); simpl.
    rewrite crossEntropy_terms by exact Hl. reflexivity.
  - intros p t H; unfold finite_or_zero; rewrite H; reflexivity.
  - intros p t H; unfold finite_or_zero; rewrite H; reflexivity.
Qed.

(** ** StochasticGradientDescent::optimize *)

Lemma swap_ranges_out {A : Type} (i0 n : nat) (xs ys : list A) :
  i0 + n <= length xs -> length ys = n ->
  swap_ranges i0 n xs ys =
  Ok (firstn i0 xs ++ ys ++ skipn (i0 + n) xs, firstn n (skipn i0 xs)).
Proof.
  intros Hx Hy; unfold swap_ranges.
  assert (E1 : (i0 + n <=? length xs) = true) by (apply Nat.leb_le; lia).
  assert (E2 : (n <=? length ys) = true) by (apply Nat.leb_le; lia).
  rewrite E1, E2; simpl.
  rewrite (firstn_all2 (n := n) ys), (skipn_all2 (n := n) ys), app_nil_r by lia; reflexivity.
Qed.

Lemma swap_ranges_back {A : Type} (i0 n : nat) (xs ys : list A) :
  i0 + n <= length xs -> length ys = n ->
  swap_ranges i0 (length (firstn n (skipn i0 xs)))
    (firstn i0 xs ++ ys ++ skipn (i0 + n) xs) (firstn n (skipn i0 xs)) =
  Ok (xs, ys).
Proof.
  intros Hx Hy.
  assert (Hb : length (firstn n (skipn i0 xs)) = n)
    by (rewrite length_firstn, length_skipn; lia).
  assert (Hf : length (firstn i0 xs) = i0) by (rewrite length_firstn; lia).
  rewrite Hb, swap_ranges_out; [|rewrite !length_app, Hf, length_skipn; lia|exact Hb].
  f_equal; f_equal.
  - rewrite firstn_app, Hf, Nat.sub_diag, firstn_O, app_nil_r.
    rewrite firstn_firstn, Nat.min_id.
    rewrite skipn_app, Hf.
    replace (i0 + n - i0) with n by lia.
    rewrite (skipn_all2 (n := i0 + n) (firstn i0 xs)) by lia; simpl.
    rewrite skipn_app, Hy, Nat.sub_diag; simpl.
    rewrite (skipn_all2 (n := n) ys) by lia; simpl.
    replace (skipn (i0 + n) xs) with (skipn n (skipn i0 xs))
      by (rewrite skipn_skipn; f_equal; lia).
    rewrite (firstn_skipn n (skipn i0 xs)). apply firstn_skipn.
  - rewrite skipn_app, Hf, Nat.sub_diag; simpl.
    rewrite (skipn_all2 (n := i0) (firstn i0 xs)) by lia; simpl.
    rewrite firstn_app, Hy, Nat.sub_diag, firstn_O, app_nil_r.
    apply firstn_all2; lia.
Qed.

Section OptimizeProperties.

Context {St : Type} (update_network : @DataLabel_Set F -> F -> F -> St -> result St).

Lemma batchLoop_spec (batchSize : nat) (lr reg : F) (training batch : @DataLabel_Set F) :
  length batch = batchSize ->
  forall (n iBatch : nat) (s : St),
  (iBatch + n) * batchSize <= length training ->
  let run := runBatches update_network lr reg
               (map (batchSlice training batchSize) (seq iBatch n)) s in
  exists tr,
    batchLoop update_network n iBatch batchSize lr reg training batch s
    = (tr, fst run, snd run) /\
    (snd run = Ok tt -> tr = training).
Proof.
  intros Hb n; induction n as [|n IH]; intros iBatch s Hle; simpl.
  - exists training; split; reflexivity.
  - rewrite swap_ranges_out by (try exact Hb; nia).
    fold (batchSlice training batchSize iBatch).
    destruct (update_network (batchSlice training batchSize iBatch) lr reg s) as [s'|e] eqn:Eu.
    + change (batchSlice training batchSize iBatch)
        with (firstn batchSize (skipn (iBatch * batchSize) training)).
      rewrite swap_ranges_back by (try exact Hb; nia).
      apply IH; nia.
    + eexists; split; [reflexivity|]; simpl; discriminate.
Qed.


Lemma optimize_spec {SS : @ShuffleSpec Rng SR} (rng : Rng) (training : @DataLabel_Set F)
    (nBatches batchSize : nat) (lr reg : F) (s : St) :
  nBatches * batchSize <= length training ->
  let shuffled := fst (shuffle rng training) in
  let run := runBatches update_network lr reg
               (map (batchSlice shuffled batchSize) (seq 0 nBatches)) s in
  exists tr,
    optimize update_network rng training nBatches batchSize lr reg s
    = (tr, snd (shuffle rng training), fst run, snd run) /\
    (snd run = Ok tt -> tr = shuffled).
Proof.
  intros Hle; unfold optimize.
  pose proof (shuffle_perm rng training) as Hp.
  destruct (shuffle rng training) as [shuffled rng'] eqn:Es; simpl in *.
  apply Permutation_length in Hp.
  destruct (@batchLoop_spec batchSize lr reg shuffled (repeat emptyPair batchSize)
              (repeat_length _ _) nBatches 0 s) as (tr & E & Htr).
  { simpl; lia. }
  rewrite E. exists tr; split; [reflexivity|exact Htr].
Qed.

End OptimizeProperties.

Lemma runBatches_record (lr reg : F) (batches log : list (@DataLabel_Set F)) :
  runBatches recordBatch lr reg batches log = (log ++ batches, Ok tt).
Proof.
  revert log; induction batches as [|b bs IH]; intros log; simpl.
  - rewrite app_nil_r; reflexivity.
  - rewrite IH, <- app_assoc; reflexivity.
Qed.

Lemma batchSlice_spec (shuffled : @DataLabel_Set F) (batchSize i : nat) :
  (i + 1) * batchSize <= length shuffled ->
  length (batchSlice shuffled batchSize i) = batchSize /\
  forall k, k < batchSize ->
    nth k (batchSlice shuffled batchSize i) emptyPair = nth (i * batchSize + k) shuffled emptyPair.
Proof.
  intros Hle; unfold batchSlice; split.
  - rewrite length_firstn, length_skipn; nia.
  - intros k Hk. rewrite nth_firstn.
    assert (E : (k <? batchSize) = true) by (apply Nat.ltb_lt; exact Hk).
    rewrite E, nth_skipn; reflexivity.
Qed.

Lemma train_ratios (net : @Network F Rng) (front : @DataLabel_Pair F)
    (rest evaluation : @DataLabel_Set F) (nEpoch batchSize : nat) (eta lambda : F)
    (lastLayer : @Layer F) :
  length (fst front) = inputSize net ->
  back (layers net) = Ok lastLayer ->
  length (snd front) = getSize lastLayer ->
  batchSize <> 0 ->
  train net (front :: rest) evaluation nEpoch batchSize eta lambda =
  epochLoop nEpoch net (front :: rest) evaluation
    (length (front :: rest)) (length (front :: rest) / batchSize) batchSize
    (length evaluation)
    (div (neg eta) (of_size batchSize))
    (div (mul (neg eta) lambda) (of_size (length (front :: rest)))).
Proof.
  intros Hx Hback Hy HB; unfold train.
  rewrite Hx, Nat.eqb_refl, Hback, Hy, Nat.eqb_refl; cbn [negb].
  destruct (batchSize =? 0) eqn:E; [apply Nat.eqb_eq in E; contradiction|reflexivity].
Qed.

(** C4. With a batch size [B >= 1] and [floor(N/B)] batches, where [N] is
    the size of the training set: [optimize] runs the callback on the
    slices [i*B .. (i+1)*B) of the shuffled set, for [i = 0 .. floor(N/B)-1]
    in this order (a failing callback ends the run); a callback that only
    records its argument records exactly these [floor(N/B)] slices; every
    slice holds the [B] samples at positions [i*B + k], all of them below
    [N - N mod B], and two different (slice, offset) pairs never address
    the same position.  [train] passes [floor(N/B)] as number of batches. *)
Theorem optimize_batches {SS : @ShuffleSpec Rng SR} {St : Type}
    (update_network : @DataLabel_Set F -> F -> F -> St -> result St)
    (rng : Rng) (training : @DataLabel_Set F) (B : nat) (lr reg : F) (s : St) :
  0 < B ->
  let N := length training in
  let shuffled := fst (shuffle rng training) in
  let batches := map (batchSlice shuffled B) (seq 0 (N / B)) in
  (exists tr,
     optimize update_network rng training (N / B) B lr reg s
     = (tr, snd (shuffle rng training),
        fst (runBatches update_network lr reg batches s),
        snd (runBatches update_network lr reg batches s))) /\
  optimize recordBatch rng training (N / B) B lr reg []
  = (shuffled, snd (shuffle rng training), batches, Ok tt) /\
  length batches = N / B /\
  (forall i, i < N / B ->
     length (batchSlice shuffled B i) = B /\
     forall k, k < B ->
       nth k (batchSlice shuffled B i) emptyPair = nth (i * B + k) shuffled emptyPair /\
       i * B + k < N - N mod B) /\
  (forall i k i' k', k < B -> k' < B -> i * B + k = i' * B + k' -> i = i' /\ k = k') /\
  (forall (net : @Network F Rng) front rest evaluation nEpoch batchSize eta lambda lastLayer,
     length (fst front) = inputSize net ->
     back (layers net) = Ok lastLayer ->
     length (snd front) = getSize lastLayer ->
     batchSize <> 0 ->
     train net (front :: rest) evaluation nEpoch batchSize eta lambda =
     epochLoop nEpoch net (front :: rest) evaluation
       (length (front :: rest)) (length (front :: rest) / batchSize) batchSize
       (length evaluation)
       (div (neg eta) (of_size batchSize))
       (div (mul (neg eta) lambda) (of_size (length (front :: rest))))).
Proof.
  intros HB N shuffled batches.
  assert (HN : N / B * B <= N) by (rewrite Nat.mul_comm; apply Nat.Div0.mul_div_le).
  assert (Hlen : length shuffled = N)
    by (symmetry; apply Permutation_length, shuffle_perm).
  split; [|split; [|split; [|split; [|split]]]].
  - destruct (optimize_spec update_network rng training (N / B) B lr reg s HN)
      as (tr & E & _).
    exists tr; exact E.
  - destruct (optimize_spec recordBatch rng training (N / B) B lr reg [] HN)
      as (tr & E & Htr).
    rewrite E. fold shuffled; fold batches.
    rewrite runBatches_record in *; simpl in *. rewrite Htr; reflexivity.
  - unfold batches; rewrite length_map, length_seq; reflexivity.
  - intros i Hi.
    assert (Hs : (i + 1) * B <= length shuffled) by (rewrite Hlen; nia).
    destruct (batchSlice_spec shuffled B i Hs) as [Hl Hn].
    split; [exact Hl|]. intros k Hk; split; [apply Hn; exact Hk|].
    pose proof (Nat.div_mod_eq N B) as Hdm. nia.
  - intros i k i' k' Hk Hk' E.
    assert (i = i') by nia. subst; split; [reflexivity|lia].
  - intros; eapply train_ratios; eassumption.
Qed.


(** ** Forward and backward passes on a well-formed network *)

Lemma mat_vec_ok m x r c :
  shape m r c -> length x = c ->
  exists v, mat_vec m x = Ok v /\ length v = r.
Proof.
  intros (Hr & Hc & _) Hx; unfold mat_vec.
  rewrite Hc, Hx, Nat.eqb_refl. eexists; split; [reflexivity|].
  rewrite length_map; exact Hr.
Qed.

Lemma weightedInput_ok l x n :
  length (bias l) = size l -> shape (weight l) (size l) n -> length x = n ->
  exists z, weightedInput l x = Ok z /\ length z = size l.
Proof.
  intros Hb Hw Hx; unfold weightedInput, vec_add.
  destruct (mat_vec_ok x Hw Hx) as (wx & -> & Hwx); simpl.
  rewrite cwise_ok by lia. eexists; split; [reflexivity|].
  rewrite zipWith_length; lia.
Qed.

Lemma last_cons_default {A : Type} (x : A) (xs : list A) (d d' : A) :
  last (x :: xs) d = last (x :: xs) d'.
Proof.
  revert x; induction xs as [|x' xs IH]; intros x; [reflexivity|].
  change (last (x' :: xs) d = last (x' :: xs) d'); apply IH.
Qed.

Lemma forwardPass_chain (ls : list (@Layer F)) : forall (n : nat) x,
  wf_layers n ls -> length x = n ->
  exists zs acts,
    forwardPass ls x = Ok (zs, acts) /\
    let items := combine ls (combine (x :: acts) zs) in
    chain_wf items (outputSize n ls) /\
    chain_in items (outputSize n ls) = n /\
    length (last (x :: acts) x) = outputSize n ls /\
    map fst items = ls /\
    chain_dims items = dims n ls.
Proof.
  induction ls as [|l ls IH]; intros n x Hwf Hx.
  - exists [], []; simpl; repeat split; auto.
  - destruct Hwf as (Hb & Hw & Hwf).
    destruct (weightedInput_ok l x Hb Hw Hx) as (z & Ez & Hz).
    pose proof (calculate_length (activationFunction l) z) as Ha.
    set (a' := calculate (activationFunction l) z) in *.
    destruct (IH (size l) a' Hwf) as (zs & acts & Efw & Hc & Hin & Hl & Hm & Hd);
      [lia|].
    exists (z :: zs), (a' :: acts).
    split.
    { simpl. unfold Layer_feedForward_az. rewrite Ez; simpl. fold a'.
      rewrite Efw; reflexivity. }
    cbv zeta in *.
    change (combine (l :: ls) (combine (x :: a' :: acts) (z :: zs)))
      with ((l, (x, z)) :: combine ls (combine (a' :: acts) zs)).
    set (items := combine ls (combine (a' :: acts) zs)) in *.
    change (outputSize n (l :: ls)) with (outputSize (size l) ls).
    split; [|split; [|split; [|split]]].
    + cbn [chain_wf]. rewrite Hx. auto.
    + exact Hx.
    + rewrite <- Hl. f_equal.
      change (last (x :: a' :: acts) x) with (last (a' :: acts) x).
      apply last_cons_default.
    + cbn [map fst]. f_equal; exact Hm.
    + unfold chain_dims in *; cbn [map fst snd dims]. rewrite Hx; f_equal; exact Hd.
Qed.

Lemma cost_calculate_derivative_ok (cf : CostFunction) x t :
  length x = length t ->
  exists d, cost_calculate_derivative cf x t = Ok d /\ length d = length x.
Proof.
  intros Hl; destruct cf; simpl.
  - unfold Quadratic_calculate_derivative, vec_sub. rewrite cwise_ok by lia.
    eexists; split; [reflexivity|]. rewrite zipWith_length; lia.
  - unfold CrossEntropy_calculate_derivative, vec_sub, cwiseProduct, cwiseQuotient.
    rewrite cwise_ok by lia; simpl.
    rewrite cwise_ok by (unfold scalar_minus; rewrite length_map; lia); simpl.
    rewrite cwise_ok
      by (unfold scalar_minus; rewrite !zipWith_length, length_map; lia).
    eexists; split; [reflexivity|].
    unfold scalar_minus; rewrite !zipWith_length, length_map; lia.
Qed.

Lemma feedBackward_Softmax l d a z :
  isSoftmax l -> feedBackward l d a z = Err NotImplemented.
Proof. unfold isSoftmax, feedBackward; intros ->; reflexivity. Qed.

Lemma feedBackward_Logistic l d a z r c :
  isLogistic l -> shape (weight l) r c -> length d = r -> length z = r ->
  exists gb gw dp,
    feedBackward l d a z = Ok (gb, gw, dp) /\
    length gb = r /\ shape gw r (length a) /\ length dp = c.
Proof.
  unfold isLogistic, feedBackward; intros -> Hw Hd Hz; simpl.
  destruct (Logistic_calculate_derivative_ok z) as (sd & -> & Hsd); simpl.
  unfold cwiseProduct; rewrite cwise_ok by lia; simpl.
  assert (Hl : length (zipWith mul d sd) = r) by (rewrite zipWith_length; lia).
  destruct (matT_vec_ok (zipWith mul d sd) Hw Hl) as (dp & -> & Hdp & _); simpl.
  do 3 eexists; split; [reflexivity|].
  split; [exact Hl|]. split; [rewrite <- Hl; apply outer_shape|exact Hdp].
Qed.

Lemma activation_cases l : isLogistic l \/ isSoftmax l.
Proof. unfold isLogistic, isSoftmax; destruct (activationFunction l); auto. Qed.

Lemma Logistic_not_Softmax (ls : list (@Layer F)) :
  Forall isLogistic ls -> Exists isSoftmax ls -> False.
Proof.
  intros Hf He; apply Exists_exists in He as (l & Hin & Hs).
  rewrite Forall_forall in Hf; specialize (Hf l Hin).
  unfold isLogistic, isSoftmax in *; congruence.
Qed.

(** The backward loop over well-fitting entries either returns gradients of
    the layers' dimensions (all activations are Logistic) or fails with
    NotImplemented (some activation is Softmax). *)
Lemma backwardPass_chain (items : list (@Layer F * (Vec * Vec))) (n : nat) delta :
  chain_wf items n -> length delta = n ->
  (exists nablas d,
     backwardPass items delta = Ok (nablas, d) /\
     length d = chain_in items n /\ hasDims (chain_dims items) nablas /\
     Forall isLogistic (map fst items))
  \/ (backwardPass items delta = Err NotImplemented /\
      Exists isSoftmax (map fst items)).
Proof.
  intros Hc Hd; induction items as [|[l [a z]] rest IH]; simpl.
  - left; exists [], delta; repeat split; auto; constructor.
  - destruct Hc as (Hw & Hz & Hin & Hc).
    destruct (IH Hc) as [(nablas & d & -> & Hld & Hdims & Hlog)|[-> Hex]]; simpl.
    + destruct (activation_cases l) as [Hl|Hs].
      * destruct (feedBackward_Logistic d a z Hl Hw (eq_trans Hld Hin) Hz)
          as (gb & gw & dp & -> & Hgb & Hgw & Hdp); simpl.
        left; do 2 eexists; split; [reflexivity|].
        split; [exact Hdp|]. split; [|constructor; assumption].
        constructor; [simpl; split; assumption|exact Hdims].
      * rewrite (feedBackward_Softmax d a z Hs).
        right; split; [reflexivity|apply Exists_cons_hd; exact Hs].
    + right; split; [reflexivity|apply Exists_cons_tl; exact Hex].
Qed.

Lemma backPropagate_wf (ls : list (@Layer F)) (cf : CostFunction) (n : nat) x y :
  wf_layers n ls -> length x = n -> length y = outputSize n ls ->
  (exists g, backPropagate ls cf x y = Ok g /\ hasDims (dims n ls) g /\
             Forall isLogistic ls)
  \/ (backPropagate ls cf x y = Err NotImplemented /\ Exists isSoftmax ls).
Proof.
  intros Hwf Hx Hy; unfold backPropagate.
  destruct (forwardPass_chain ls x Hwf Hx)
    as (zs & acts & -> & Hc & Hin & Hl & Hm & Hd); cbn [bind].
  destruct (@cost_calculate_derivative_ok cf (last (x :: acts) x) y)
    as (delta & -> & Hdl); [lia|]; cbn [bind].
  cbv zeta in Hc, Hm, Hd.
  destruct (backwardPass_chain _ delta Hc (eq_trans Hdl Hl))
    as [(nablas & d & -> & _ & Hdims & Hlog)|[-> Hex]]; cbn [bind].
  - left; exists nablas; rewrite Hd in Hdims; rewrite Hm in Hlog; auto.
  - right; rewrite Hm in Hex; auto.
Qed.

(** ** Gradient accumulators *)

Lemma hasDims_nth (ds : list (nat * nat)) (ns : list (Vec * @Matrix F)) :
  hasDims ds ns ->
  length ns = length ds /\
  forall i (dd : nat * nat) (nn : Vec * Matrix), i < length ds ->
    length (fst (nth i ns nn)) = fst (nth i ds dd) /\
    shape (snd (nth i ns nn)) (fst (nth i ds dd)) (snd (nth i ds dd)).
Proof.
  unfold hasDims; induction 1 as [|d n ds ns Hdn _ IH]; simpl.
  - split; [reflexivity|]; intros; lia.
  - destruct IH as [Hl IH]; split; [lia|].
    intros [|i] dd nn Hi; [exact Hdn|apply IH; lia].
Qed.

Lemma addNabla_dims (r c : nat) (n d : Vec * @Matrix F) :
  length (fst n) = r -> shape (snd n) r c ->
  length (fst d) = r -> shape (snd d) r c ->
  vec_add (fst n) (fst d) = Ok (fst (addNabla n d)) /\
  mat_add (snd n) (snd d) = Ok (snd (addNabla n d)) /\
  length (fst (addNabla n d)) = r /\ shape (snd (addNabla n d)) r c /\
  (forall k, k < r ->
     nth k (fst (addNabla n d)) zero = add (nth k (fst n) zero) (nth k (fst d) zero)) /\
  (forall i j, i < r -> j < c ->
     coeff (snd (addNabla n d)) i j = add (coeff (snd n) i j) (coeff (snd d) i j)).
Proof.
  intros Hn Sn Hd Sd.
  destruct (mat_add_ok Sn Sd) as (m & Em & Sm & Dm & Cm).
  assert (Hm : snd (addNabla n d) = m).
  { unfold mat_add in Em. destruct (_ && _); inversion Em; reflexivity. }
  rewrite Hm. unfold vec_add. rewrite cwise_ok by lia. simpl.
  split; [reflexivity|]. split; [exact Em|].
  split; [rewrite zipWith_length; lia|]. split; [exact Sm|].
  split; [|exact Cm].
  intros k Hk; apply zipWith_nth; lia.
Qed.

Lemma accumulate_ok (ds : list (nat * nat)) (nabla dn : list (Vec * @Matrix F)) :
  hasDims ds nabla -> hasDims ds dn ->
  accumulate nabla dn = Ok (zipWith addNabla nabla dn) /\
  hasDims ds (zipWith addNabla nabla dn).
Proof.
  unfold hasDims; intros Hn; revert dn.
  induction Hn as [|[r c] n ds ns [Hb Hw] _ IH]; intros dn Hd; inversion Hd; subst.
  - split; [reflexivity|constructor].
  - match goal with
    | Hh : _ /\ _, Ht : Forall2 _ ds _ |- _ =>
        destruct Hh as [Hb' Hw']; destruct (IH _ Ht) as [E Hds]
    end.
    simpl in Hb, Hw, Hb', Hw'.
    destruct (addNabla_dims n y Hb Hw Hb' Hw') as (Ev & Em & Hl & Hs & _).
    destruct n as [nb nw], y as [db dw]; simpl in *.
    rewrite Ev; simpl. rewrite Em; simpl. rewrite E; simpl.
    split; [reflexivity|]. constructor; [split; assumption|exact Hds].
Qed.

Lemma zeroNablas_dims (ls : list (@Layer F)) : forall n,
  hasDims (dims n ls) (zeroNablas n ls).
Proof.
  induction ls as [|l ls IH]; intros n; simpl; constructor; [|apply IH].
  simpl; unfold getSize, VecZero; rewrite repeat_length; split; [reflexivity|].
  unfold shape, MatZero, mrows; simpl; rewrite repeat_length.
  repeat split. apply Forall_forall; intros row Hin.
  apply repeat_spec in Hin; subst; apply repeat_length.
Qed.

Lemma nth_repeat_zero (k n : nat) : nth k (repeat (@zero F SF) n) zero = zero.
Proof.
  revert k; induction n as [|n IH]; intros [|k]; simpl; auto.
Qed.

Lemma zeroNablas_zero (ls : list (@Layer F)) : forall n i,
  let dflt : Vec * Matrix := ([], mkMatrix 0 []) in
  (forall k, nth k (fst (nth i (zeroNablas n ls) dflt)) zero = zero) /\
  (forall r c, coeff (snd (nth i (zeroNablas n ls) dflt)) r c = zero).
Proof.
  induction ls as [|l ls IH]; intros n i dflt.
  - split.
    + intros k; destruct i; simpl; destruct k; reflexivity.
    + intros r c; unfold coeff; destruct i; simpl; destruct r; simpl;
        destruct c; reflexivity.
  - destruct i as [|i]; [|apply IH].
    simpl; split.
    + intros k; apply nth_repeat_zero.
    + intros r c; unfold coeff, MatZero, VecZero; simpl.
      destruct (Nat.lt_ge_cases r (getSize l)) as [Hr|Hr].
      * rewrite (nth_indep _ [] (repeat zero n)) by (rewrite repeat_length; exact Hr).
        rewrite nth_repeat. apply nth_repeat_zero.
      * rewrite (nth_overflow (repeat (repeat zero n) (getSize l)) [])
          by (rewrite repeat_length; exact Hr).
        destruct c; reflexivity.
Qed.

Lemma sumNablas_dims (ds : list (nat * nat)) (gs : list (list (Vec * @Matrix F))) :
  Forall (hasDims ds) gs -> forall st, hasDims ds st -> hasDims ds (sumNablas st gs).
Proof.
  induction 1 as [|g gs Hg _ IH]; intros st Hst; simpl; [exact Hst|].
  apply IH. apply (@accumulate_ok _ _ _ Hst Hg).
Qed.

(** Each coefficient of the accumulators is the left-to-right sum, over the
    samples, of that coefficient of the sample's gradient. *)
Lemma sumNablas_coefficients (ds : list (nat * nat)) (gs : list (list (Vec * @Matrix F))) :
  Forall (hasDims ds) gs -> forall st, hasDims ds st ->
  let dflt : Vec * Matrix := ([], mkMatrix 0 []) in
  forall i, i < length ds ->
    (forall k, k < fst (nth i ds (0, 0)) ->
       nth k (fst (nth i (sumNablas st gs) dflt)) zero =
       fold_left add (map (fun g => nth k (fst (nth i g dflt)) zero) gs)
                 (nth k (fst (nth i st dflt)) zero)) /\
    (forall r c, r < fst (nth i ds (0, 0)) -> c < snd (nth i ds (0, 0)) ->
       coeff (snd (nth i (sumNablas st gs) dflt)) r c =
       fold_left add (map (fun g => coeff (snd (nth i g dflt)) r c) gs)
                 (coeff (snd (nth i st dflt)) r c)).
Proof.
  induction 1 as [|g gs Hg _ IH]; intros st Hst dflt i Hi; simpl.
  - split; reflexivity.
  - destruct (@accumulate_ok _ _ _ Hst Hg) as [_ Hst'].
    destruct (IH _ Hst' i Hi) as [IHb IHw]. fold dflt in IHb, IHw.
    destruct (hasDims_nth Hst) as [Ls Ns]; destruct (hasDims_nth Hg) as [Lg Ng].
    destruct (Ns i (0, 0) dflt Hi) as [Hsb Hsw].
    destruct (Ng i (0, 0) dflt Hi) as [Hgb Hgw].
    destruct (addNabla_dims (nth i st dflt) (nth i g dflt) Hsb Hsw Hgb Hgw)
      as (_ & _ & _ & _ & Cb & Cw).
    assert (En : nth i (zipWith addNabla st g) dflt
                 = addNabla (nth i st dflt) (nth i g dflt))
      by (apply zipWith_nth; lia).
    split.
    + intros k Hk. rewrite (IHb k Hk), En, (Cb k Hk). reflexivity.
    + intros r c Hr Hc. rewrite (IHw r c Hr Hc), En, (Cw r c Hr Hc). reflexivity.
Qed.

(** ** Network::updateParameters *)

Lemma accumulateBatch_spec (ls : list (@Layer F)) (cf : CostFunction) (n : nat)
    (batch : @DataLabel_Set F) :
  wf_layers n ls -> Forall (wellShaped n ls) batch ->
  forall nabla, hasDims (dims n ls) nabla ->
  match backPropagateAll ls cf batch with
  | Err e => accumulateBatch ls cf batch nabla = Err e
  | Ok gs =>
      accumulateBatch ls cf batch nabla = Ok (sumNablas nabla gs) /\
      Forall (hasDims (dims n ls)) gs /\ length gs = length batch
  end.
Proof.
  intros Hwf Hb; induction Hb as [|[x y] batch [Hx Hy] _ IH]; intros nabla Hn; simpl.
  - repeat split; constructor.
  - simpl in Hx, Hy.
    destruct (@backPropagate_wf ls cf n x y Hwf Hx Hy) as [(g & -> & Hg & _)|[-> _]];
      cbn [bind]; [|reflexivity].
    destruct (@accumulate_ok _ _ _ Hn Hg) as [-> Hn']; cbn [bind].
    specialize (IH _ Hn').
    destruct (backPropagateAll ls cf batch) as [gs|e]; cbn [bind]; [|exact IH].
    destruct IH as (E & Hgs & Hl).
    split; [exact E|]. split; [constructor; assumption|simpl; lia].
Qed.

Lemma updateBiasWeight_shapes l (gb : Vec) (gw : Matrix) (lr reg : F) (r c : nat) :
  length (bias l) = r -> shape (weight l) r c ->
  length gb = r -> shape gw r c ->
  exists l', updateBiasWeight l gb gw lr reg = Ok l' /\
    size l' = size l /\ activationFunction l' = activationFunction l /\
    length (bias l') = r /\ shape (weight l') r c.
Proof.
  intros Hb Hw Hgb Hgw.
  destruct (mat_add_ok (mat_scale_shape lr Hgw) (mat_scale_shape reg Hw))
    as (inc & Einc & Sinc & _).
  destruct (mat_add_ok Hw Sinc) as (w' & Ew' & Sw' & _).
  unfold updateBiasWeight, vec_add.
  rewrite cwise_ok by (unfold vec_scale; rewrite length_map; lia); cbn [bind].
  rewrite Einc; cbn [bind]; rewrite Ew'; cbn [bind].
  eexists; split; [reflexivity|]; simpl.
  repeat (split; [reflexivity|]).
  split; [|exact Sw'].
  rewrite zipWith_length; unfold vec_scale; rewrite length_map; lia.
Qed.

Lemma updateLayers_ok (ls : list (@Layer F)) (lr reg : F) : forall n nabla,
  wf_layers n ls -> hasDims (dims n ls) nabla ->
  exists ls',
    updateLayers ls nabla lr reg = Ok ls' /\
    Forall2 (fun ln l' =>
               updateBiasWeight (fst ln) (fst (snd ln)) (snd (snd ln)) lr reg = Ok l')
            (combine ls nabla) ls' /\
    length ls' = length ls.
Proof.
  induction ls as [|l ls IH]; intros n nabla Hwf Hd.
  - exists []; simpl; repeat split; constructor.
  - destruct Hwf as (Hb & Hw & Hwf). simpl in Hd. inversion Hd as [|d0 [nb nw] ds ns [Hnb Hnw] Hns]; subst.
    simpl in Hnb, Hnw.
    destruct (@updateBiasWeight_shapes l nb nw lr reg _ _ Hb Hw Hnb Hnw) as (l' & El & _).
    destruct (IH _ _ Hwf Hns) as (ls' & Els & Hf & Hl).
    exists (l' :: ls'); simpl. rewrite El; cbn [bind]. rewrite Els; cbn [bind].
    split; [reflexivity|]. split; [constructor; assumption|simpl; lia].
Qed.

Lemma back_ok (ls : list (@Layer F)) : forall n,
  ls <> [] -> exists lastLayer, back ls = Ok lastLayer /\ size lastLayer = outputSize n ls.
Proof.
  induction ls as [|l ls IH]; intros n Hne; [congruence|].
  destruct ls as [|l' ls]; [exists l; split; reflexivity|].
  destruct (IH (size l)) as (ll & E & Hs); [discriminate|].
  exists ll; split; [exact E|exact Hs].
Qed.

(** C2. On a well-formed, non-empty network and a batch of samples of the
    network's input and output sizes: if [backPropagate], run on every
    sample at the layers as they are before the batch, fails, then
    [updateParameters] fails the same way; otherwise the accumulators, which
    start at zero with one bias vector and one weight matrix per layer of
    the layer's dimensions, end as the coefficient-wise left-to-right sums
    of the samples' gradients (no division by the batch size), and
    [updateParameters] returns the layers obtained by one call of
    [updateBiasWeight] per layer on these sums.  [train] passes
    [-eta / batchSize] as learning-rate ratio. *)
Theorem updateParameters_spec (n : nat) (cf : CostFunction) (ls : list (@Layer F))
    (batch : @DataLabel_Set F) (lrRatio regRatio : F) :
  wf_layers n ls -> ls <> [] -> Forall (wellShaped n ls) batch ->
  match backPropagateAll ls cf batch with
  | Err e => updateParameters n cf batch lrRatio regRatio ls = Err e
  | Ok gs =>
      let nabla := sumNablas (zeroNablas n ls) gs in
      let dflt : Vec * Matrix := ([], mkMatrix 0 []) in
      length gs = length batch /\
      hasDims (dims n ls) (zeroNablas n ls) /\ hasDims (dims n ls) nabla /\
      (forall i, i < length ls ->
         (forall k, k < fst (nth i (dims n ls) (0, 0)) ->
            nth k (fst (nth i (zeroNablas n ls) dflt)) zero = zero /\
            nth k (fst (nth i nabla dflt)) zero =
            fold_left add (map (fun g => nth k (fst (nth i g dflt)) zero) gs) zero) /\
         (forall r c, r < fst (nth i (dims n ls) (0, 0)) ->
                      c < snd (nth i (dims n ls) (0, 0)) ->
            coeff (snd (nth i (zeroNablas n ls) dflt)) r c = zero /\
            coeff (snd (nth i nabla dflt)) r c =
            fold_left add (map (fun g => coeff (snd (nth i g dflt)) r c) gs) zero)) /\
      exists ls',
        updateParameters n cf batch lrRatio regRatio ls = Ok ls' /\
        length ls' = length ls /\
        Forall2 (fun ln l' =>
                   updateBiasWeight (fst ln) (fst (snd ln)) (snd (snd ln))
                     lrRatio regRatio = Ok l')
                (combine ls nabla) ls'
  end /\
  (forall (net : @Network F Rng) front rest evaluation nEpoch batchSize eta lambda lastLayer,
     length (fst front) = inputSize net ->
     back (layers net) = Ok lastLayer ->
     length (snd front) = getSize lastLayer ->
     batchSize <> 0 ->
     train net (front :: rest) evaluation nEpoch batchSize eta lambda =
     epochLoop nEpoch net (front :: rest) evaluation
       (length (front :: rest)) (length (front :: rest) / batchSize) batchSize
       (length evaluation)
       (div (neg eta) (of_size batchSize))
       (div (mul (neg eta) lambda) (of_size (length (front :: rest))))).
Proof.
  intros Hwf Hne Hb. split; [|intros; eapply train_ratios; eassumption].
  pose proof (zeroNablas_dims ls n) as Hz.
  pose proof (@accumulateBatch_spec ls cf n batch Hwf Hb _ Hz) as Hacc.
  unfold updateParameters. destruct ls as [|l0 ls0]; [congruence|].
  set (ls := l0 :: ls0) in *.
  destruct (backPropagateAll ls cf batch) as [gs|e].
  - destruct Hacc as (Eacc & Hgs & Hl). rewrite Eacc; cbn [bind].
    pose proof (@sumNablas_dims _ _ Hgs _ Hz) as Hsum.
    destruct (@updateLayers_ok ls lrRatio regRatio n _ Hwf Hsum) as (ls' & Eup & Hf & Hl').
    split; [exact Hl|]. split; [exact Hz|]. split; [exact Hsum|]. split.
    + intros i Hi.
      assert (Hi' : i < length (dims n ls)).
      { destruct (@hasDims_nth _ _ Hz) as [E0 _]. destruct (@hasDims_nth _ _ Hsum) as [E _].
        pose proof (Forall2_length Hf) as Hc. rewrite length_combine in Hc. lia. }
      pose proof (@sumNablas_coefficients _ _ Hgs _ Hz) as HC; cbv zeta in HC.
      destruct (HC i Hi') as [Cb Cw].
      pose proof (zeroNablas_zero ls n i) as HZ; cbv zeta in HZ.
      destruct HZ as [Zb Zw].
      split.
      * intros k Hk; split; [apply Zb|]. rewrite (Cb k Hk), Zb; reflexivity.
      * intros r c Hr Hc; split; [apply Zw|]. rewrite (Cw r c Hr Hc), Zw; reflexivity.
    + exists ls'; split; [exact Eup|]. split; assumption.
  - rewrite Hacc; reflexivity.
Qed.

(** ** Softmax::calculate_derivative *)

Lemma backPropagate_Softmax (ls : list (@Layer F)) (cf : CostFunction) (n : nat) x y :
  wf_layers n ls -> Exists isSoftmax ls -> wellShaped n ls (x, y) ->
  backPropagate ls cf x y = Err NotImplemented.
Proof.
  intros Hwf Hex [Hx Hy]; simpl in Hx, Hy.
  destruct (@backPropagate_wf ls cf n x y Hwf Hx Hy) as [(g & _ & _ & Hlog)|[E _]];
    [|exact E].
  destruct (Logistic_not_Softmax Hlog Hex).
Qed.

Lemma updateParameters_Softmax (ls : list (@Layer F)) (cf : CostFunction) (n : nat)
    (sample : @DataLabel_Pair F) (rest : @DataLabel_Set F) (lr reg : F) :
  wf_layers n ls -> Exists isSoftmax ls -> wellShaped n ls sample ->
  updateParameters n cf (sample :: rest) lr reg ls = Err NotImplemented.
Proof.
  intros Hwf Hex Hs. destruct sample as [x y].
  unfold updateParameters. destruct ls as [|l0 ls0]; [inversion Hex|].
  simpl accumulateBatch.
  rewrite (@backPropagate_Softmax (l0 :: ls0) cf n x y Hwf Hex Hs); reflexivity.
Qed.

Lemma batchSlice_incl (shuffled : @DataLabel_Set F) (batchSize i : nat) :
  incl (batchSlice shuffled batchSize i) shuffled.
Proof.
  intros s Hin; unfold batchSlice in Hin.
  rewrite <- (firstn_skipn (i * batchSize) shuffled).
  apply in_or_app; right.
  rewrite <- (firstn_skipn batchSize (skipn (i * batchSize) shuffled)).
  apply in_or_app; left; exact Hin.
Qed.

Lemma optimize_Softmax {SS : @ShuffleSpec Rng SR} (ls : list (@Layer F))
    (cf : CostFunction) (n : nat) (rng : Rng) (training : @DataLabel_Set F)
    (nBatches batchSize : nat) (lr reg : F) :
  wf_layers n ls -> Exists isSoftmax ls -> Forall (wellShaped n ls) training ->
  0 < nBatches -> 0 < batchSize -> nBatches * batchSize <= length training ->
  exists tr,
    optimize (updateParameters n cf) rng training nBatches batchSize lr reg ls
    = (tr, snd (shuffle rng training), ls, Err NotImplemented).
Proof.
  intros Hwf Hex Hws HnB HB Hle.
  destruct (@optimize_spec _ (updateParameters n cf) SS rng training nBatches batchSize
              lr reg ls Hle) as (tr & E & _).
  exists tr; rewrite E; clear E.
  set (shuffled := fst (shuffle rng training)).
  assert (Hlen : length shuffled = length training)
    by (symmetry; apply Permutation_length, shuffle_perm).
  assert (Hsh : Forall (wellShaped n ls) shuffled).
  { rewrite Forall_forall in *; intros s Hin; apply Hws.
    eapply Permutation_in; [apply Permutation_sym, shuffle_perm|exact Hin]. }
  destruct nBatches as [|nB]; [lia|]. cbn [seq map].
  assert (Hs : (0 + 1) * batchSize <= length shuffled) by (rewrite Hlen; nia).
  destruct (batchSlice_spec shuffled batchSize 0 Hs) as [Hl _].
  pose proof (@batchSlice_incl shuffled batchSize 0) as Hincl.
  destruct (batchSlice shuffled batchSize 0) as [|sample rest] eqn:Eb;
    [simpl in Hl; lia|].
  assert (Hsample : wellShaped n ls sample).
  { rewrite Forall_forall in Hsh; apply Hsh, Hincl; left; reflexivity. }
  cbn [runBatches].
  rewrite (@updateParameters_Softmax ls cf n sample rest lr reg Hwf Hex Hsample).
  reflexivity.
Qed.

(** C7. [Softmax::calculate_derivative] fails with NotImplemented on every
    input and so never returns a vector; [feedBackward] of a Softmax layer
    fails with it; on a well-formed network with a Softmax layer and samples
    of the right sizes so do [backPropagate], [updateParameters] on a
    non-empty batch, [optimize] with at least one batch (the layers stay as
    they were) and [train] with at least one epoch (no layer is updated and
    no metric is appended). *)
Theorem Softmax_derivative_propagates :
  (forall z, calculate_derivative Softmax z = Err NotImplemented) /\
  (forall z v, calculate_derivative Softmax z <> Ok v) /\
  (forall l d a z, isSoftmax l -> feedBackward l d a z = Err NotImplemented) /\
  (forall (ls : list (@Layer F)) cf n x y,
     wf_layers n ls -> Exists isSoftmax ls -> wellShaped n ls (x, y) ->
     backPropagate ls cf x y = Err NotImplemented) /\
  (forall (ls : list (@Layer F)) cf n sample rest lr reg,
     wf_layers n ls -> Exists isSoftmax ls -> wellShaped n ls sample ->
     updateParameters n cf (sample :: rest) lr reg ls = Err NotImplemented) /\
  (forall (SS : @ShuffleSpec Rng SR) (ls : list (@Layer F)) cf n rng training
          nBatches batchSize lr reg,
     wf_layers n ls -> Exists isSoftmax ls -> Forall (wellShaped n ls) training ->
     0 < nBatches -> 0 < batchSize -> nBatches * batchSize <= length training ->
     exists tr,
       optimize (updateParameters n cf) rng training nBatches batchSize lr reg ls
       = (tr, snd (shuffle rng training), ls, Err NotImplemented)) /\
  (forall (SS : @ShuffleSpec Rng SR) (net : @Network F Rng) training evaluation
          nEpoch batchSize eta lambda,
     wf_layers (inputSize net) (layers net) -> Exists isSoftmax (layers net) ->
     Forall (wellShaped (inputSize net) (layers net)) training ->
     0 < nEpoch -> 0 < batchSize -> batchSize <= length training ->
     exists tr,
       train net training evaluation nEpoch batchSize eta lambda
       = (setLayers net (layers net) (snd (shuffle (rngEngine net) training)),
          tr, Err NotImplemented)).
Proof.
  split; [reflexivity|]. split; [intros z v; discriminate|].
  split; [intros l d a z; apply feedBackward_Softmax|].
  split; [intros; eapply backPropagate_Softmax; eassumption|].
  split; [intros; eapply updateParameters_Softmax; eassumption|].
  split; [intros; eapply optimize_Softmax; eassumption|].
  intros SS net training evaluation nEpoch batchSize eta lambda Hwf Hex Hws HnE HB Hle.
  destruct training as [|front rest]; [simpl in Hle; lia|].
  assert (Hne : layers net <> []) by (intros E; rewrite E in Hex; inversion Hex).
  destruct (back_ok (inputSize net) Hne) as (lastLayer & Hback & Hsize).
  pose proof (Forall_inv Hws) as [Hx Hy].
  rewrite (@train_ratios net front rest evaluation nEpoch batchSize eta lambda lastLayer);
    [|exact Hx|exact Hback|unfold getSize; lia|lia].
  destruct nEpoch as [|nE]; [lia|]. cbn [epochLoop].
  set (N := length (front :: rest)) in *.
  assert (HnB : 0 < N / batchSize) by (apply Nat.div_str_pos; lia).
  assert (HN : N / batchSize * batchSize <= N)
    by (rewrite Nat.mul_comm; apply Nat.Div0.mul_div_le).
  destruct (@optimize_Softmax SS (layers net) (costFunction net) (inputSize net)
              (rngEngine net) (front :: rest) (N / batchSize) batchSize
              (div (neg eta) (of_size batchSize))
              (div (mul (neg eta) lambda) (of_size N)) Hwf Hex Hws HnB HB HN)
    as (tr & ->).
  exists tr; reflexivity.
Qed.

(** ** Label conversion and evaluation *)

Lemma set_nth_length v i (x : F) : length (set_nth v i x) = length v.
Proof.
  revert i; induction v as [|y v IH]; intros [|i]; simpl; auto.
Qed.

Lemma set_nth_nth v i (x : F) k :
  k < length v -> nth k (set_nth v i x) zero = if k =? i then x else nth k v zero.
Proof.
  revert i k; induction v as [|y v IH]; intros [|i] [|k]; simpl; intros Hk; try lia; auto.
  apply IH; lia.
Qed.

Lemma set_coeff_in v (i : Z) (x : F) :
  (0 <= i < Z.of_nat (length v))%Z ->
  set_coeff v i x = Ok (set_nth v (Z.to_nat i) x).
Proof.
  intros [H0 H1]; unfold set_coeff.
  apply Z.leb_le in H0; apply Z.ltb_lt in H1. rewrite H0, H1; reflexivity.
Qed.

Lemma set_coeff_out v (i : Z) (x : F) :
  ~ (0 <= i < Z.of_nat (length v))%Z -> set_coeff v i x = Err OutOfBounds.
Proof.
  intros Hn; unfold set_coeff.
  destruct (0 <=? i)%Z eqn:E0; [|reflexivity].
  destruct (i <? Z.of_nat (length v))%Z eqn:E1; [|reflexivity].
  apply Z.leb_le in E0; apply Z.ltb_lt in E1; lia.
Qed.

Lemma prediction2output_single (ls : list (@Layer F)) lastLayer (s : F) :
  back ls = Ok lastLayer ->
  prediction2output ls [s] = set_coeff (VecZero (getSize lastLayer)) (to_prediction s) one.
Proof. intros Hb; unfold prediction2output; simpl; rewrite Hb; reflexivity. Qed.

Lemma output2prediction_cases (out : Vec) :
  (exists p, output2prediction out = Ok p) \/ output2prediction out = Err OutOfBounds.
Proof.
  unfold output2prediction. destruct (1 <? length out); [left; eauto|].
  destruct out; [right; reflexivity|left; eauto].
Qed.

Lemma evaluateSample_bad (ls : list (@Layer F)) (cf : CostFunction) (acc : nat * F)
    x (s : F) :
  prediction2output ls [s] = Err OutOfBounds ->
  is_ok (evaluateSample ls cf acc (x, [s])) = false /\
  (forall out, Network_feedForward ls x = Ok out ->
               evaluateSample ls cf acc (x, [s]) = Err OutOfBounds).
Proof.
  intros Hbad; unfold evaluateSample; destruct acc as [correct cost]; cbn [fst snd].
  destruct (Network_feedForward ls x) as [out|e]; cbn [bind].
  - destruct (output2prediction_cases out) as [[p Ep]|Ep]; rewrite Ep; cbn [bind];
      [rewrite Hbad; cbn [bind]|]; (split; [reflexivity|intros; reflexivity]).
  - split; [reflexivity|intros out Ho; discriminate].
Qed.

Lemma evaluateData_app (ls : list (@Layer F)) (cf : CostFunction)
    (pre post : @DataLabel_Set F) : forall acc,
  evaluateData ls cf acc (pre ++ post) =
  (acc' <- evaluateData ls cf acc pre ;; evaluateData ls cf acc' post).
Proof.
  induction pre as [|p pre IH]; intros acc; simpl; [reflexivity|].
  destruct (evaluateSample ls cf acc p); cbn [bind]; [apply IH|reflexivity].
Qed.

Lemma evaluateData_bad (ls : list (@Layer F)) (cf : CostFunction) x (s : F)
    (data : @DataLabel_Set F) :
  prediction2output ls [s] = Err OutOfBounds -> In (x, [s]) data ->
  forall acc, is_ok (evaluateData ls cf acc data) = false.
Proof.
  intros Hbad Hin; induction data as [|p data IH]; intros acc; [inversion Hin|].
  simpl. destruct Hin as [->|Hin].
  - destruct (@evaluateSample_bad ls cf acc x s Hbad) as [Hn _].
    destruct (evaluateSample ls cf acc (x, [s])); [discriminate|reflexivity].
  - destruct (evaluateSample ls cf acc p); cbn [bind]; [apply IH; exact Hin|reflexivity].
Qed.

Lemma calcAccuracyAndCost_bad (ls : list (@Layer F)) (cf : CostFunction) x (s : F)
    (data : @DataLabel_Set F) (lambda : F) :
  prediction2output ls [s] = Err OutOfBounds -> In (x, [s]) data ->
  is_ok (calcAccuracyAndCost ls cf data lambda) = false.
Proof.
  intros Hbad Hin; unfold calcAccuracyAndCost.
  pose proof (@evaluateData_bad ls cf x s data Hbad Hin (0, zero)) as H.
  destruct (evaluateData ls cf (0, zero) data); [discriminate|reflexivity].
Qed.

(** The layers' sizes are not changed by the updates. *)
Lemma updateLayers_sizes (lr reg : F) (ls : list (@Layer F)) : forall nabla ls',
  updateLayers ls nabla lr reg = Ok ls' -> map size ls' = map size ls.
Proof.
  induction ls as [|l ls IH]; intros nabla ls'; simpl.
  - intros H; inversion H; reflexivity.
  - destruct nabla as [|[nb nw] ns]; [discriminate|].
    destruct (updateBiasWeight l nb nw lr reg) as [l'|] eqn:El; cbn [bind]; [|discriminate].
    destruct (updateLayers ls ns lr reg) as [rest|] eqn:Er; cbn [bind]; [|discriminate].
    intros H; inversion H; subst; simpl. f_equal; [|eapply IH; exact Er].
    unfold updateBiasWeight in El.
    destruct (vec_add _ _); cbn [bind] in El; [|discriminate].
    destruct (mat_add _ _); cbn [bind] in El; [|discriminate].
    destruct (mat_add _ _); cbn [bind] in El; [|discriminate].
    inversion El; reflexivity.
Qed.

Lemma updateParameters_sizes (n : nat) (cf : CostFunction) (batch : @DataLabel_Set F)
    (lr reg : F) (ls ls' : list (@Layer F)) :
  updateParameters n cf batch lr reg ls = Ok ls' -> map size ls' = map size ls.
Proof.
  unfold updateParameters; destruct ls as [|l0 ls0]; [discriminate|].
  destruct (accumulateBatch _ _ _ _); cbn [bind]; [|discriminate].
  apply updateLayers_sizes.
Qed.

Lemma back_sizes (ls ls' : list (@Layer F)) lastLayer :
  map size ls' = map size ls -> back ls = Ok lastLayer ->
  exists lastLayer', back ls' = Ok lastLayer' /\ size lastLayer' = size lastLayer.
Proof.
  revert ls'; induction ls as [|l ls IH]; intros ls' Hm Hb; [discriminate|].
  destruct ls' as [|l' ls']; [discriminate|]. simpl in Hm. inversion Hm as [[Hs Hm']].
  destruct ls as [|l2 ls].
  - destruct ls'; [|discriminate]. inversion Hb; subst. exists l'; auto.
  - destruct ls' as [|l2' ls']; [discriminate|].
    change (back (l :: l2 :: ls)) with (back (l2 :: ls)) in Hb.
    change (back (l' :: l2' :: ls')) with (back (l2' :: ls')).
    apply IH; assumption.
Qed.

Section Invariant.

Context {St : Type} (update_network : @DataLabel_Set F -> F -> F -> St -> result St).
Context (P : St -> Prop).
Hypothesis update_keeps : forall batch lr reg s s',
    P s -> update_network batch lr reg s = Ok s' -> P s'.

(** What the callback preserves holds of the state [optimize] leaves. *)
Lemma batchLoop_invariant (batchSize : nat) (lr reg : F) : forall n iBatch training batch s,
  P s -> P (snd (fst (batchLoop update_network n iBatch batchSize lr reg training batch s))).
Proof.
  induction n as [|n IH]; intros iBatch training batch s Hs; simpl; [exact Hs|].
  destruct (swap_ranges _ _ training batch) as [[training1 batch1]|]; [|exact Hs].
  destruct (update_network batch1 lr reg s) as [s'|] eqn:Eu; [|exact Hs].
  pose proof (update_keeps Hs Eu) as Hs'.
  destruct (swap_ranges _ _ training1 batch1) as [[training2 batch2]|]; [|exact Hs'].
  apply IH; exact Hs'.
Qed.

Lemma optimize_invariant (rng : Rng) (training : @DataLabel_Set F)
    (nBatches batchSize : nat) (lr reg : F) (s : St) :
  P s ->
  P (snd (fst (optimize update_network rng training nBatches batchSize lr reg s))).
Proof.
  intros Hs; unfold optimize.
  destruct (shuffle rng training) as [shuffled rng'].
  pose proof (@batchLoop_invariant batchSize lr reg nBatches 0 shuffled
                (repeat emptyPair batchSize) s Hs) as H.
  destruct (batchLoop _ _ _ _ _ _ _ _ _) as [[tr s'] out]; exact H.
Qed.

End Invariant.

Lemma epochLoop_bad (x : Vec) (s : F) (evaluation : @DataLabel_Set F)
    (lastLayer : @Layer F) (nTraining nBatches batchSize nEvaluation : nat) (lr reg : F) :
  ~ (0 <= to_prediction s < Z.of_nat (getSize lastLayer))%Z ->
  In (x, [s]) evaluation ->
  forall nEpoch (net : @Network F Rng) training lastLayer',
  back (layers net) = Ok lastLayer' -> size lastLayer' = size lastLayer ->
  0 < nEpoch ->
  is_ok (snd (epochLoop nEpoch net training evaluation
                nTraining nBatches batchSize nEvaluation lr reg)) = false.
Proof.
  intros Hout Hin nEpoch net training lastLayer' Hback Hsize HnE.
  destruct nEpoch as [|nE]; [lia|]. cbn [epochLoop].
  pose proof (@optimize_invariant _ (updateParameters (inputSize net) (costFunction net))
                (fun ls' => map size ls' = map size (layers net))
                (fun batch lr0 reg0 s0 s1 Hs Hu =>
                   eq_trans (updateParameters_sizes _ _ _ _ _ _ Hu) Hs)
                (rngEngine net) training nBatches batchSize lr reg (layers net) eq_refl) as Hinv.
  destruct (optimize _ _ _ _ _ _ _ _) as [[[training' rng'] ls'] outcome].
  cbn [fst snd] in Hinv.
  destruct outcome as [u|e]; [|reflexivity].
  cbn [layers costFunction setLayers].
  destruct (calcAccuracyAndCost ls' (costFunction net) training' zero) as [[nTS tCost]|];
    [|reflexivity].
  destruct (@back_sizes (layers net) ls' lastLayer' Hinv Hback) as (ll & Hb' & Hs').
  assert (Hbad : prediction2output ls' [s] = Err OutOfBounds).
  { rewrite (@prediction2output_single ls' ll s Hb'). apply set_coeff_out.
    unfold VecZero; rewrite repeat_length. unfold getSize in *. rewrite Hs', Hsize.
    exact Hout. }
  pose proof (@calcAccuracyAndCost_bad ls' (costFunction net) x s evaluation zero Hbad Hin) as Hc.
  destruct (calcAccuracyAndCost ls' (costFunction net) evaluation zero) as [[nES eCost]|];
    [discriminate|reflexivity].
Qed.

(** C10. For a label with the single coefficient [s], on a network whose
    last layer has [n] neurons: [prediction2output] returns a vector exactly
    when [static_cast<PREDICTION>(s)] lies in [0, n), and then it is the
    zero vector of length [n] with 1 at that index; otherwise the write is
    out of bounds, [calcAccuracyAndCost] fails on every data set that holds
    such a sample (with the out-of-bounds access once the samples before it
    are evaluated and the forward pass of the sample is done), and [train]
    with at least one epoch does not complete when the evaluation set holds
    one. *)
Theorem prediction2output_bounds (ls : list (@Layer F)) (lastLayer : @Layer F) (s : F) :
  back ls = Ok lastLayer ->
  let idx := to_prediction s in
  let n := getSize lastLayer in
  (is_ok (prediction2output ls [s]) = true <-> (0 <= idx < Z.of_nat n)%Z) /\
  ((0 <= idx < Z.of_nat n)%Z ->
     exists out, prediction2output ls [s] = Ok out /\ length out = n /\
       forall k, k < n -> nth k out zero = if k =? Z.to_nat idx then one else zero) /\
  (~ (0 <= idx < Z.of_nat n)%Z ->
     prediction2output ls [s] = Err OutOfBounds /\
     (forall cf x (pre post : @DataLabel_Set F) acc out lambda,
        evaluateData ls cf (0, zero) pre = Ok acc ->
        Network_feedForward ls x = Ok out ->
        calcAccuracyAndCost ls cf (pre ++ (x, [s]) :: post) lambda = Err OutOfBounds) /\
     (forall cf x (data : @DataLabel_Set F) lambda,
        In (x, [s]) data -> is_ok (calcAccuracyAndCost ls cf data lambda) = false) /\
     (forall (net : @Network F Rng) training evaluation nEpoch batchSize eta lambda x,
        layers net = ls -> In (x, [s]) evaluation -> 0 < nEpoch ->
        is_ok (snd (train net training evaluation nEpoch batchSize eta lambda)) = false)).
Proof.
  intros Hback idx n.
  pose proof (@prediction2output_single ls lastLayer s Hback) as E.
  assert (Hlen : length (VecZero (getSize lastLayer)) = n)
    by (unfold VecZero; apply repeat_length).
  assert (Hin : (0 <= idx < Z.of_nat n)%Z ->
                prediction2output ls [s] = Ok (set_nth (VecZero n) (Z.to_nat idx) one)).
  { intros H; rewrite E; apply set_coeff_in; unfold VecZero; rewrite repeat_length; exact H. }
  assert (Hout : ~ (0 <= idx < Z.of_nat n)%Z -> prediction2output ls [s] = Err OutOfBounds).
  { intros H; rewrite E; apply set_coeff_out; unfold VecZero; rewrite repeat_length; exact H. }
  split; [|split].
  - split.
    + intros Hok. destruct (Z.le_gt_cases 0 idx) as [H0|H0];
        [destruct (Z.lt_ge_cases idx (Z.of_nat n)) as [H1|H1]; [lia|]|];
        rewrite Hout in Hok by lia; discriminate.
    + intros H; rewrite (Hin H); reflexivity.
  - intros H; eexists; split; [apply Hin; exact H|].
    split; [rewrite set_nth_length; unfold VecZero; apply repeat_length|].
    intros k Hk. rewrite set_nth_nth by (unfold VecZero; rewrite repeat_length; exact Hk).
    unfold VecZero; rewrite nth_repeat_zero; reflexivity.
  - intros H; specialize (Hout H). split; [exact Hout|]. split; [|split].
    + intros cf x pre post acc out lambda Epre Efw.
      unfold calcAccuracyAndCost. rewrite evaluateData_app, Epre; cbn [bind].
      cbn [evaluateData].
      destruct (@evaluateSample_bad ls cf acc x s Hout) as [_ Hs].
      rewrite (Hs out Efw); reflexivity.
    + intros cf x data lambda Hd. eapply calcAccuracyAndCost_bad; eassumption.
    + intros net training evaluation nEpoch batchSize eta lambda x Hl Hd HnE.
      unfold train. destruct training as [|front rest]; [reflexivity|].
      destruct (negb (length (fst front) =? inputSize net)); [reflexivity|].
      rewrite Hl, Hback.
      destruct (negb (length (snd front) =? getSize lastLayer)); [reflexivity|].
      destruct (batchSize =? 0); [reflexivity|].
      eapply epochLoop_bad; try eassumption; [rewrite Hl; exact Hback|reflexivity].
Qed.

(** ** Network::train and the range error *)

Lemma noRange_bind {A B : Type} (r : result A) (k : A -> result B) :
  noRange r -> (forall r0 : A, noRange (k r0)) -> noRange (bind r k).
Proof.
  intros Hr Hk; destruct r; simpl; [apply Hk|].
  unfold noRange in *; intros H; apply Hr; inversion H; reflexivity.
Qed.

Lemma noRange_err {A B : Type} (e : error) : @noRange A (Err e) -> @noRange B (Err e).
Proof. unfold noRange; intros Hr H; apply Hr; inversion H; reflexivity. Qed.

Create HintDb norange.

Ltac norange_step :=
  match goal with
  | |- noRange (bind _ _) => apply noRange_bind; [|intros]
  | |- noRange (Ok _) => unfold noRange; discriminate
  | |- noRange (Err _) => unfold noRange; discriminate
  | |- noRange (if ?c then _ else _) => destruct c
  | |- noRange (match ?x with _ => _ end) => destruct x
  end.

Ltac norange :=
  unfold cwiseProduct, cwiseQuotient, vec_add, vec_sub;
  repeat first [ solve [auto with norange] | norange_step ].

Lemma cwise_noRange (op : F -> F -> F) a b : noRange (cwise op a b).
Proof. unfold cwise; norange. Qed.
#[local] Hint Resolve cwise_noRange : norange.

Lemma mat_vec_noRange m x : noRange (mat_vec m x).
Proof. unfold mat_vec; norange. Qed.

Lemma matT_vec_noRange m d : noRange (matT_vec m d).
Proof. unfold matT_vec; norange. Qed.

Lemma mat_add_noRange m w : noRange (mat_add m w).
Proof. unfold mat_add; norange. Qed.
#[local] Hint Resolve mat_vec_noRange matT_vec_noRange mat_add_noRange : norange.

Lemma calculate_derivative_noRange f z : noRange (calculate_derivative f z).
Proof.
  destruct f; simpl;
    unfold Logistic_calculate_derivative, Softmax_calculate_derivative; norange.
Qed.

Lemma cost_calculate_noRange (cf : CostFunction) x y : noRange (cost_calculate cf x y).
Proof.
  destruct cf; simpl; unfold Quadratic_calculate, CrossEntropy_calculate; norange.
Qed.

Lemma cost_calculate_derivative_noRange (cf : CostFunction) x y :
  noRange (cost_calculate_derivative cf x y).
Proof.
  destruct cf; simpl;
    unfold Quadratic_calculate_derivative, CrossEntropy_calculate_derivative; norange.
Qed.
#[local] Hint Resolve calculate_derivative_noRange cost_calculate_noRange
  cost_calculate_derivative_noRange : norange.

Lemma weightedInput_noRange l x : noRange (weightedInput l x).
Proof. unfold weightedInput; norange. Qed.
#[local] Hint Resolve weightedInput_noRange : norange.

Lemma Layer_feedForward_noRange l x : noRange (Layer_feedForward l x).
Proof. unfold Layer_feedForward; norange. Qed.

Lemma Layer_feedForward_az_noRange l x : noRange (Layer_feedForward_az l x).
Proof. unfold Layer_feedForward_az; norange. Qed.

Lemma feedBackward_noRange l d a z : noRange (feedBackward l d a z).
Proof. unfold feedBackward; norange. Qed.

Lemma updateBiasWeight_noRange l (nb : Vec) (nw : Matrix) (lr reg : F) :
  noRange (updateBiasWeight l nb nw lr reg).
Proof. unfold updateBiasWeight; norange. Qed.
#[local] Hint Resolve Layer_feedForward_noRange Layer_feedForward_az_noRange
  feedBackward_noRange updateBiasWeight_noRange : norange.

Lemma back_noRange (ls : list (@Layer F)) : noRange (back ls).
Proof.
  induction ls as [|l [|l' ls] IH]; [unfold noRange; simpl; discriminate..|exact IH].
Qed.

Lemma output2prediction_noRange (out : Vec) : noRange (output2prediction out).
Proof. unfold output2prediction; norange. Qed.

Lemma set_coeff_noRange v (i : Z) (s : F) : noRange (set_coeff v i s).
Proof. unfold set_coeff; norange. Qed.
#[local] Hint Resolve back_noRange output2prediction_noRange set_coeff_noRange : norange.

Lemma prediction2output_noRange (ls : list (@Layer F)) (p : Vec) :
  noRange (prediction2output ls p).
Proof. unfold prediction2output; norange. Qed.

Lemma Network_feedForward_noRange (ls : list (@Layer F)) : forall a,
  noRange (Network_feedForward ls a).
Proof. induction ls as [|l ls IH]; intros a; simpl; norange. Qed.
#[local] Hint Resolve prediction2output_noRange Network_feedForward_noRange : norange.

Lemma evaluateSample_noRange (ls : list (@Layer F)) (cf : CostFunction)
    (acc : nat * F) (p : @DataLabel_Pair F) : noRange (evaluateSample ls cf acc p).
Proof. unfold evaluateSample; destruct acc; norange. Qed.
#[local] Hint Resolve evaluateSample_noRange : norange.

Lemma evaluateData_noRange (ls : list (@Layer F)) (cf : CostFunction)
    (data : @DataLabel_Set F) : forall acc, noRange (evaluateData ls cf acc data).
Proof. induction data as [|p data IH]; intros acc; simpl; norange. Qed.
#[local] Hint Resolve evaluateData_noRange : norange.

Lemma calcAccuracyAndCost_noRange (ls : list (@Layer F)) (cf : CostFunction)
    (data : @DataLabel_Set F) (lambda : F) : noRange (calcAccuracyAndCost ls cf data lambda).
Proof. unfold calcAccuracyAndCost; norange. Qed.

Lemma forwardPass_noRange (ls : list (@Layer F)) : forall a, noRange (forwardPass ls a).
Proof. induction ls as [|l ls IH]; intros a; simpl; norange. Qed.

Lemma backwardPass_noRange (items : list (@Layer F * (Vec * Vec))) d :
  noRange (backwardPass items d).
Proof. induction items as [|[l [a z]] items IH]; simpl; norange. Qed.
#[local] Hint Resolve forwardPass_noRange backwardPass_noRange : norange.

Lemma backPropagate_noRange (ls : list (@Layer F)) (cf : CostFunction) x y :
  noRange (backPropagate ls cf x y).
Proof. unfold backPropagate; norange. Qed.

Lemma accumulate_noRange (nabla : list (Vec * @Matrix F)) : forall dn,
  noRange (accumulate nabla dn).
Proof.
  induction nabla as [|[nb nw] nabla IH]; intros [|[db dw] dn]; simpl; norange.
Qed.
#[local] Hint Resolve backPropagate_noRange accumulate_noRange : norange.

Lemma accumulateBatch_noRange (ls : list (@Layer F)) (cf : CostFunction)
    (batch : @DataLabel_Set F) : forall nabla, noRange (accumulateBatch ls cf batch nabla).
Proof. induction batch as [|[x y] batch IH]; intros nabla; simpl; norange. Qed.

Lemma updateLayers_noRange (lr reg : F) (ls : list (@Layer F)) : forall nabla,
  noRange (updateLayers ls nabla lr reg).
Proof.
  induction ls as [|l ls IH]; intros [|[nb nw] nabla]; simpl; norange.
Qed.
#[local] Hint Resolve accumulateBatch_noRange updateLayers_noRange : norange.

Lemma updateParameters_noRange (n : nat) (cf : CostFunction) (batch : @DataLabel_Set F)
    (lr reg : F) (ls : list (@Layer F)) : noRange (updateParameters n cf batch lr reg ls).
Proof. unfold updateParameters; norange. Qed.

Lemma swap_ranges_noRange {A : Type} (i0 n : nat) (xs ys : list A) :
  noRange (swap_ranges i0 n xs ys).
Proof. unfold swap_ranges; norange. Qed.

Lemma batchLoop_noRange {St : Type}
    (update_network : @DataLabel_Set F -> F -> F -> St -> result St)
    (batchSize : nat) (lr reg : F) :
  (forall batch s, noRange (update_network batch lr reg s)) ->
  forall n iBatch training batch s,
    noRange (snd (batchLoop update_network n iBatch batchSize lr reg training batch s)).
Proof.
  intros Hu; induction n as [|n IH]; intros iBatch training batch s; simpl.
  - unfold noRange; discriminate.
  - pose proof (swap_ranges_noRange (iBatch * batchSize) batchSize training batch) as H1.
    destruct (swap_ranges _ _ training batch) as [[training1 batch1]|]; [|exact (noRange_err H1)].
    pose proof (Hu batch1 s) as H2.
    destruct (update_network batch1 lr reg s) as [s'|]; [|exact (noRange_err H2)].
    pose proof (swap_ranges_noRange (iBatch * batchSize) (length batch1) training1 batch1)
      as H3.
    destruct (swap_ranges _ _ training1 batch1) as [[training2 batch2]|]; [|exact (noRange_err H3)].
    apply IH.
Qed.

Lemma optimize_noRange {St : Type}
    (update_network : @DataLabel_Set F -> F -> F -> St -> result St)
    (rng : Rng) (training : @DataLabel_Set F) (nBatches batchSize : nat)
    (lr reg : F) (s : St) :
  (forall batch s, noRange (update_network batch lr reg s)) ->
  noRange (snd (optimize update_network rng training nBatches batchSize lr reg s)).
Proof.
  intros Hu; unfold optimize. destruct (shuffle rng training) as [shuffled rng'].
  pose proof (@batchLoop_noRange _ update_network batchSize lr reg Hu nBatches 0 shuffled
                (repeat emptyPair batchSize) s) as H.
  destruct (batchLoop _ _ _ _ _ _ _ _ _) as [[tr s'] out]; exact H.
Qed.

Lemma epochLoop_noRange (evaluation : @DataLabel_Set F)
    (nTraining nBatches batchSize nEvaluation : nat) (lr reg : F) :
  forall nEpoch (net : @Network F Rng) training,
    noRange (snd (epochLoop nEpoch net training evaluation
                    nTraining nBatches batchSize nEvaluation lr reg)).
Proof.
  induction nEpoch as [|nE IH]; intros net training; cbn [epochLoop].
  - unfold noRange; simpl; discriminate.
  - pose proof (@optimize_noRange _ (updateParameters (inputSize net) (costFunction net))
                  (rngEngine net) training nBatches batchSize lr reg (layers net)
                  (fun batch s => updateParameters_noRange _ _ batch lr reg s)) as Ho.
    destruct (optimize _ _ _ _ _ _ _ _) as [[[training' rng'] ls'] outcome].
    cbn [snd] in Ho. destruct outcome as [u|e]; [|exact Ho].
    match goal with
    | |- context [calcAccuracyAndCost ?l ?c training' ?z] =>
        pose proof (calcAccuracyAndCost_noRange l c training' z) as H1;
        destruct (calcAccuracyAndCost l c training' z) as [[nTS tCost]|]; [|exact (noRange_err H1)]
    end.
    match goal with
    | |- context [calcAccuracyAndCost ?l ?c evaluation ?z] =>
        pose proof (calcAccuracyAndCost_noRange l c evaluation z) as H2;
        destruct (calcAccuracyAndCost l c evaluation z) as [[nES eCost]|]; [|exact (noRange_err H2)]
    end.
    apply IH.
Qed.

(** C5. For a training set with a first sample, on a network with a last
    layer: [train] ends with the range error exactly when the first
    sample's feature length differs from [inputSize] or its label length
    differs from the last layer's size; in that case the network (layers,
    metrics, engine) and the training set are returned as they were given. *)
Theorem train_shape_check (net : @Network F Rng) (front : @DataLabel_Pair F)
    (rest evaluation : @DataLabel_Set F) (nEpoch batchSize : nat) (eta lambda : F)
    (lastLayer : @Layer F) :
  back (layers net) = Ok lastLayer ->
  let exit := train net (front :: rest) evaluation nEpoch batchSize eta lambda in
  (snd exit = Err RangeError <->
   (length (fst front) <> inputSize net \/ length (snd front) <> getSize lastLayer)) /\
  (snd exit = Err RangeError -> fst exit = (net, front :: rest)).
Proof.
  intros Hback exit; subst exit; unfold train; rewrite Hback.
  destruct (length (fst front) =? inputSize net) eqn:Ex; cbn [negb].
  - apply Nat.eqb_eq in Ex.
    destruct (length (snd front) =? getSize lastLayer) eqn:Ey; cbn [negb].
    + apply Nat.eqb_eq in Ey.
      destruct (batchSize =? 0).
      * simpl; split; [split; [discriminate|intros [H|H]; contradiction]|discriminate].
      * pose proof (@epochLoop_noRange evaluation (length (front :: rest))
                      (length (front :: rest) / batchSize) batchSize (length evaluation)
                      (div (neg eta) (of_size batchSize))
                      (div (mul (neg eta) lambda) (of_size (length (front :: rest))))
                      nEpoch net (front :: rest)) as Hn.
        split; [split; [intros H; contradiction|intros [H|H]; contradiction]
               |intros H; contradiction].
    + apply Nat.eqb_neq in Ey. simpl; split; [split; auto|reflexivity].
  - apply Nat.eqb_neq in Ex. simpl; split; [split; auto|reflexivity].
Qed.

End Properties.

(** * The model at work *)

Lemma CounterShuffler_spec : @ShuffleSpec nat CounterShuffler.
Proof.
  intros A g l; simpl. destruct (Nat.odd g); [apply Permutation_rev|apply Permutation_refl].
Defined.

Example feedBackward_run :
  feedBackward exHidden [1; 1]%Z [5; 7]%Z [0; 0]%Z
  = Ok ([0; 0]%Z, mkMatrix 2 [[0; 0]; [0; 0]]%Z, [0; 0]%Z).
Proof. reflexivity. Qed.

Example train_range_error :
  train exNetwork [([1], [1])]%Z [] 1 1 1%Z 0%Z
  = (exNetwork, [([1], [1])]%Z, Err RangeError).
Proof. reflexivity. Qed.

Example train_softmax_fails :
  snd (train exSoftmaxNetwork exTraining [] 1 1 1%Z 0%Z) = Err NotImplemented.
Proof. reflexivity. Qed.

Example train_one_epoch :
  snd (train exNetwork [([1; 2], [0]); ([0; 1], [0])]%Z [] 1 2 1%Z 0%Z) = Ok tt.
Proof. vm_compute. reflexivity. Qed.

(** A label [1] on a network with a single output neuron is written at
    index 1 of a vector of length 1. *)
Example train_scalar_label_out_of_bounds :
  snd (train exNetwork exTraining [] 1 2 1%Z 0%Z) = Err OutOfBounds.
Proof. vm_compute. reflexivity. Qed.

Example prediction2output_run :
  prediction2output [exHidden] [1]%Z = Ok [0; 1]%Z /\
  prediction2output [exHidden] [2]%Z = Err OutOfBounds /\
  prediction2output [exHidden] [-1]%Z = Err OutOfBounds.
Proof. repeat split. Qed.

(** When the callback throws, [optimize] is left with the batch still in
    the scratch buffer: the training set holds default-constructed pairs in
    its place (no partial-state recovery). *)
Example optimize_exceptional_exit :
  optimize failingUpdate 0 exTraining 1 2 0%Z 0%Z tt
  = ([emptyPair; emptyPair; ([3; 0], [1])]%Z, 1, tt, Err NotImplemented).
Proof. reflexivity. Qed.


(** On doubles the symmetry of the sigmoid fails at [z = 3]: whatever
    [std::exp] returns at 3 and at -3 within one unit in the last place of
    the exact values, [calculate(z) + calculate(-z)] is not 1 (with the
    nearest values it is 1.0000000000000002). *)
Lemma Logistic_symmetry_within_one_ulp
    (libm_exp libm_log : PrimFloat.float -> PrimFloat.float)
    (libm_pow : PrimFloat.float -> PrimFloat.float -> PrimFloat.float)
    (size2double : nat -> PrimFloat.float) (double2int : PrimFloat.float -> Z) :
  In (libm_exp Binary64.three) (Binary64.near Binary64.exp3) ->
  In (libm_exp (PrimFloat.opp Binary64.three)) (Binary64.near Binary64.expm3) ->
  let SF := Binary64.Scalar64 libm_exp libm_log libm_pow size2double double2int in
  zipWith PrimFloat.add (@Logistic_calculate _ SF [Binary64.three])
                        (@Logistic_calculate _ SF (@array_neg _ SF [Binary64.three]))
  <> map (fun _ => PrimFloat.one) [Binary64.three].
Proof.
  intros H3 Hm3 SF E. subst SF.
  vm_compute in H3, Hm3, E.
  injection E as E.
  apply (f_equal (fun v => PrimFloat.eqb v PrimFloat.one)) in E.
  destruct H3 as [H3|[H3|[H3|[]]]]; destruct Hm3 as [Hm3|[Hm3|[Hm3|[]]]];
    rewrite <- H3, <- Hm3 in E; vm_compute in E; discriminate E.
Qed.

(** C8, as stated, fails on the code's doubles: 3.0 is finite, and with
    the nearest doubles for [exp(3)] and [exp(-3)] the sum
    [calculate(3) + calculate(-3)] is not 1. *)
Lemma Logistic_symmetry_binary64 :
  PrimFloat.is_finite Binary64.three = true /\
  zipWith PrimFloat.add
    (@Logistic_calculate _ Binary64.nearestAt3 [Binary64.three])
    (@Logistic_calculate _ Binary64.nearestAt3
       (@array_neg _ Binary64.nearestAt3 [Binary64.three]))
  <> map (fun _ => PrimFloat.one) [Binary64.three].
Proof.
  split; [reflexivity|].
  apply (@Logistic_symmetry_within_one_ulp
           (Binary64.expAt Binary64.exp3 Binary64.expm3)
           (fun _ => PrimFloat.nan) (fun _ _ => PrimFloat.nan)
           (fun _ => PrimFloat.nan) (fun _ => 0%Z)).
  - right; left; reflexivity.
  - right; left; reflexivity.
Qed.

(** C8 (amended). With [double] read as an exact real number the sigmoid
    is symmetric: [calculate(z) + calculate(-z)] is 1 in every component,
    for every vector [z].  On doubles the roundings of [exp], [+] and [/]
    can leave the sum one unit in the last place away from 1. *)
Lemma Logistic_symmetry_real (z : list R) :
  zipWith Rplus (@Logistic_calculate R RScalar z)
                (@Logistic_calculate R RScalar (array_neg z))
  = map (fun _ => 1%R) z.
Proof.
  induction z as [|x z IH]; [reflexivity|].
  simpl. f_equal; [|exact IH].
  rewrite Ropp_involutive, exp_Ropp.
  pose proof (exp_pos x) as Hpos.
  field. split; lra.
Qed.

(** ** The theorems on the small network *)

Lemma feedBackward_spec_witness :
  shape (weight exHidden) 2 2 /\ length [1; 1]%Z = 2 /\ length [0; 0]%Z = 2 /\
  exists delta gradWeight deltaPrev,
    feedBackward exHidden [1; 1]%Z [5; 7]%Z [0; 0]%Z = Ok (delta, gradWeight, deltaPrev).
Proof.
  assert (Hs : shape (weight exHidden) 2 2) by (repeat split; repeat constructor).
  split; [exact Hs|]. split; [reflexivity|]. split; [reflexivity|].
  pose proof (@feedBackward_spec Z ZScalar exHidden [1; 1]%Z [5; 7]%Z [0; 0]%Z 2 2
                Hs eq_refl eq_refl) as H.
  simpl in H. destruct H as (delta & gw & dp & E & _).
  exists delta, gw, dp; exact E.
Defined.

Lemma updateBiasWeight_spec_witness :
  length (bias exHidden) = 2 /\ shape (weight exHidden) 2 2 /\
  length [1; 1]%Z = 2 /\ shape (mkMatrix 2 [[1; 0]; [0; 1]]%Z) 2 2 /\
  exists l', updateBiasWeight exHidden [1; 1]%Z (mkMatrix 2 [[1; 0]; [0; 1]]%Z) 2%Z 3%Z = Ok l'.
Proof.
  assert (Hs : shape (weight exHidden) 2 2) by (repeat split; repeat constructor).
  assert (Hg : shape (mkMatrix 2 [[1; 0]; [0; 1]]%Z) 2 2)
    by (repeat split; repeat constructor).
  split; [reflexivity|]. split; [exact Hs|]. split; [reflexivity|]. split; [exact Hg|].
  destruct (@updateBiasWeight_spec Z ZScalar exHidden [1; 1]%Z
              (mkMatrix 2 [[1; 0]; [0; 1]]%Z) 2%Z 3%Z 2 2 eq_refl Hs eq_refl Hg)
    as (l' & E & _).
  exists l'; exact E.
Defined.

Lemma CrossEntropy_calculate_spec_witness :
  length [1; 2]%Z = length [1; 0]%Z /\
  CrossEntropy_calculate [1; 2]%Z [1; 0]%Z = Ok (crossEntropySum [1; 2]%Z [1; 0]%Z).
Proof.
  split; [reflexivity|].
  apply (@CrossEntropy_calculate_spec Z ZScalar [1; 2]%Z [1; 0]%Z eq_refl).
Defined.

Lemma exLayers_wf : wf_layers 2 exLayers.
Proof. simpl; repeat split; repeat constructor. Defined.

Lemma exTraining_wellShaped : Forall (wellShaped 2 exLayers) exTraining.
Proof. repeat constructor. Defined.

Lemma updateParameters_spec_witness :
  wf_layers 2 exLayers /\ exLayers <> [] /\ Forall (wellShaped 2 exLayers) exTraining /\
  exists ls', updateParameters 2 Quadratic exTraining 1%Z 0%Z exLayers = Ok ls' /\
              length ls' = length exLayers.
Proof.
  assert (Hne : exLayers <> []) by discriminate.
  split; [exact exLayers_wf|]. split; [exact Hne|]. split; [exact exTraining_wellShaped|].
  destruct (@updateParameters_spec Z ZScalar nat CounterShuffler 2 Quadratic exLayers
              exTraining 1%Z 0%Z exLayers_wf Hne exTraining_wellShaped) as [H _].
  destruct (backPropagateAll exLayers Quadratic exTraining) as [gs|e] eqn:Eg;
    [|vm_compute in Eg; discriminate].
  destruct H as (_ & _ & _ & _ & ls' & E & Hl & _).
  exists ls'; split; [exact E|exact Hl].
Defined.

Lemma optimize_batches_witness :
  @ShuffleSpec nat CounterShuffler /\ 0 < 2 /\
  optimize recordBatch 1 exTraining (length exTraining / 2) 2 0%Z 0%Z []
  = ([([3; 0], [1]); ([0; 1], [0]); ([1; 2], [1])]%Z, 2,
     [[([3; 0], [1]); ([0; 1], [0])]%Z], Ok tt).
Proof.
  split; [exact CounterShuffler_spec|]. split; [lia|].
  destruct (@optimize_batches Z ZScalar nat CounterShuffler CounterShuffler_spec unit
              failingUpdate 1 exTraining 2 0%Z 0%Z tt (Nat.lt_0_succ 1)) as (_ & E & _).
  exact E.
Defined.

Lemma train_shape_check_witness :
  back (layers exNetwork) = Ok exOutput /\
  (snd (train exNetwork [([1], [1])]%Z [] 1 1 1%Z 0%Z) = Err RangeError <->
   (length (fst ([1], [1])%Z) <> inputSize exNetwork \/
    length (snd ([1], [1])%Z) <> getSize exOutput)).
Proof.
  split; [reflexivity|].
  apply (@train_shape_check Z ZScalar nat CounterShuffler exNetwork ([1], [1])%Z [] []
           1 1 1%Z 0%Z exOutput eq_refl).
Defined.


Lemma prediction2output_bounds_witness :
  back exLayers = Ok exOutput /\
  (is_ok (prediction2output exLayers [5]%Z) = true <-> (0 <= 5 < Z.of_nat 1)%Z).
Proof.
  split; [reflexivity|].
  apply (@prediction2output_bounds Z ZScalar nat CounterShuffler exLayers exOutput 5%Z eq_refl).
Defined.

(** * Further properties of the code *)

Section Coverage.

Context {F : Type} {SF : Scalar F} {Rng : Type} {SR : Shuffler Rng}.
Context {TIO : TextIO F} {SE : Seeder Rng}.

Local Abbreviation Vec := (list F).

Implicit Types (x y z t : Vec) (l : @Layer F) (ls : list (@Layer F)).

(** ** Activation and cost functions *)

Lemma map_nth_in {A B : Type} (f : A -> B) (xs : list A) (i : nat) (da : A) (db : B) :
  i < length xs -> nth i (map f xs) db = f (nth i xs da).
Proof.
  intros Hi. rewrite (nth_indep _ db (f da)) by (rewrite length_map; exact Hi).
  apply map_nth.
Qed.

(** X1. [Logistic::calculate] returns, component by component,
    [1 / (exp(-z) + 1)]; its derivative always returns, with components
    [f * (1 - f)] for that [f]; [Softmax::calculate] divides every
    [exp(z(i))] by the one sum of all of them.  All three keep the length. *)
Theorem activation_componentwise z :
  length (calculate Logistic z) = length z /\
  length (calculate Softmax z) = length z /\
  (exists sd, calculate_derivative Logistic z = Ok sd /\ length sd = length z /\
     forall i, i < length z ->
       nth i sd zero = mul (nth i (calculate Logistic z) zero)
                           (sub one (nth i (calculate Logistic z) zero))) /\
  (forall i, i < length z ->
     nth i (calculate Logistic z) zero = div one (add (exp (neg (nth i z zero))) one) /\
     nth i (calculate Softmax z) zero = div (exp (nth i z zero)) (sum (map exp z))).
Proof.
  split; [apply calculate_length|]. split; [apply calculate_length|].
  assert (HL : forall i, i < length z ->
            nth i (Logistic_calculate z) zero = div one (add (exp (neg (nth i z zero))) one)).
  { intros i Hi. unfold Logistic_calculate, cwiseInverse, array_plus, array_exp, array_neg.
    rewrite !map_map. rewrite (map_nth_in _ z zero zero Hi). reflexivity. }
  split.
  - simpl. unfold Logistic_calculate_derivative, cwiseProduct.
    rewrite cwise_ok by (unfold scalar_minus; rewrite length_map; reflexivity).
    eexists; split; [reflexivity|].
    assert (Hlen : length (zipWith mul (Logistic_calculate z)
                             (scalar_minus one (Logistic_calculate z))) = length z).
    { rewrite zipWith_length; unfold scalar_minus.
      rewrite length_map, Logistic_calculate_length; lia. }
    split; [exact Hlen|]. intros i Hi.
    rewrite (zipWith_nth _ _ _ zero zero zero)
      by (unfold scalar_minus; try rewrite length_map;
          rewrite Logistic_calculate_length; exact Hi).
    f_equal. unfold scalar_minus.
    rewrite (map_nth_in (fun v => sub one v) (Logistic_calculate z) zero zero)
      by (rewrite Logistic_calculate_length; exact Hi).
    reflexivity.
  - intros i Hi; split; [apply HL; exact Hi|].
    simpl. unfold Softmax_calculate, vec_div_scalar, array_exp.
    rewrite map_map. rewrite (map_nth_in _ z zero zero Hi). reflexivity.
Qed.

Lemma CrossEntropy_terms_ok x t :
  length x = length t -> exists c, CrossEntropy_calculate x t = Ok c.
Proof.
  intros Hl. unfold CrossEntropy_calculate, cwiseProduct, vec_sub.
  rewrite cwise_ok by (unfold array_log; rewrite length_map; lia); cbn [bind].
  rewrite cwise_ok
    by (unfold array_log, scalar_minus; rewrite !length_map; lia); cbn [bind].
  rewrite cwise_ok
    by (unfold array_neg, array_log, scalar_minus;
        rewrite length_map, !zipWith_length, !length_map; lia); cbn [bind].
  eexists; reflexivity.
Qed.

(** X2. Both cost functions and their derivatives return exactly when the
    two vectors have the same length, and fail with the size assertion
    otherwise.  The quadratic derivative is [x(i) - t(i)], the cross-entropy
    derivative [(x(i) - t(i)) / (x(i) * (1 - x(i)))], without any guard. *)
Theorem cost_function_sizes (cf : CostFunction) x t :
  (length x = length t ->
     (exists c, cost_calculate cf x t = Ok c) /\
     exists d, cost_calculate_derivative cf x t = Ok d /\ length d = length x /\
       forall i, i < length x ->
         nth i d zero =
         match cf with
         | Quadratic => sub (nth i x zero) (nth i t zero)
         | CrossEntropy =>
             div (sub (nth i x zero) (nth i t zero))
                 (mul (nth i x zero) (sub one (nth i x zero)))
         end) /\
  (length x <> length t ->
     cost_calculate cf x t = Err SizeMismatch /\
     cost_calculate_derivative cf x t = Err SizeMismatch).
Proof.
  split.
  - intros Hl. split.
    + destruct cf; simpl.
      * unfold Quadratic_calculate, vec_sub. rewrite cwise_ok by lia. eexists; reflexivity.
      * destruct (CrossEntropy_terms_ok x t Hl) as (c & E). exists c; exact E.
    + destruct cf; simpl.
      * unfold Quadratic_calculate_derivative, vec_sub. rewrite cwise_ok by lia.
        eexists; split; [reflexivity|]. split; [rewrite zipWith_length; lia|].
        intros i Hi. apply zipWith_nth; lia.
      * unfold CrossEntropy_calculate_derivative, vec_sub, cwiseProduct, cwiseQuotient.
        rewrite cwise_ok by lia; cbn [bind].
        rewrite cwise_ok by (unfold scalar_minus; rewrite length_map; lia); cbn [bind].
        rewrite cwise_ok
          by (unfold scalar_minus; rewrite !zipWith_length, length_map; lia).
        eexists; split; [reflexivity|].
        split; [unfold scalar_minus; rewrite !zipWith_length, length_map; lia|].
        intros i Hi.
        rewrite (zipWith_nth _ _ _ zero zero zero)
          by (unfold scalar_minus; rewrite zipWith_length; try rewrite length_map; lia).
        rewrite (zipWith_nth sub _ _ zero zero zero) by lia.
        rewrite (zipWith_nth mul _ _ zero zero zero)
          by (unfold scalar_minus; try rewrite length_map; lia).
        unfold scalar_minus.
        rewrite (map_nth_in (fun v => sub one v) x zero zero Hi). reflexivity.
  - intros Hn.
    assert (E : forall op, cwise op x t = Err SizeMismatch).
    { intros op; unfold cwise. apply Nat.eqb_neq in Hn; rewrite Hn; reflexivity. }
    assert (E' : forall op, cwise op t x = Err SizeMismatch).
    { intros op; unfold cwise.
      assert (Hn' : length t <> length x) by congruence.
      apply Nat.eqb_neq in Hn'; rewrite Hn'; reflexivity. }
    destruct cf; simpl.
    + unfold Quadratic_calculate, Quadratic_calculate_derivative, vec_sub.
      rewrite E, E'; split; reflexivity.
    + unfold CrossEntropy_calculate, CrossEntropy_calculate_derivative,
        cwiseProduct, vec_sub.
      rewrite E. split; [|reflexivity].
      unfold cwise, array_log. rewrite length_map.
      assert (Hn' : length t <> length x) by congruence.
      apply Nat.eqb_neq in Hn'; rewrite Hn'; reflexivity.
Qed.

(** ** Forward propagation *)

Lemma Layer_feedForward_az_fst l x :
  Layer_feedForward l x = (p <- Layer_feedForward_az l x ;; Ok (fst p)).
Proof.
  unfold Layer_feedForward, Layer_feedForward_az.
  destruct (weightedInput l x); reflexivity.
Qed.

(** X3. For a layer with [size] biases and a weight matrix of [size] rows
    and [n] columns: on an input of length [n] both overloads of
    [feedForward] return the same activation, of length [size], and the
    second also the weighted input it was computed from; on an input of any
    other length both fail with the size assertion. *)
Theorem Layer_feedForward_spec l x (n : nat) :
  length (bias l) = size l -> shape (weight l) (size l) n ->
  (length x = n ->
     exists a z, Layer_feedForward_az l x = Ok (a, z) /\ Layer_feedForward l x = Ok a /\
       weightedInput l x = Ok z /\ a = calculate (activationFunction l) z /\
       length a = size l /\ length z = size l) /\
  (length x <> n ->
     Layer_feedForward l x = Err SizeMismatch /\
     Layer_feedForward_az l x = Err SizeMismatch).
Proof.
  intros Hb Hw; split.
  - intros Hx. destruct (@weightedInput_ok F SF l x n Hb Hw Hx) as (z & Ez & Hz).
    exists (calculate (activationFunction l) z), z.
    unfold Layer_feedForward_az, Layer_feedForward. rewrite Ez; cbn [bind].
    repeat split; try reflexivity; [rewrite calculate_length|]; exact Hz.
  - intros Hx. destruct Hw as (_ & Hc & _).
    unfold Layer_feedForward_az, Layer_feedForward, weightedInput, mat_vec.
    rewrite Hc. assert (E : (n =? length x) = false) by (apply Nat.eqb_neq; congruence).
    rewrite E; split; reflexivity.
Qed.

Lemma Network_feedForward_forwardPass ls : forall x,
  Network_feedForward ls x =
  (p <- forwardPass ls x ;; Ok (last (x :: snd p) x)).
Proof.
  induction ls as [|l ls IH]; intros x; [reflexivity|].
  cbn [Network_feedForward forwardPass].
  rewrite Layer_feedForward_az_fst.
  destruct (Layer_feedForward_az l x) as [[a z]|e]; cbn [bind fst]; [|reflexivity].
  rewrite IH. destruct (forwardPass ls a) as [[zs acts]|e]; cbn [bind snd]; [|reflexivity].
  f_equal. change (last (x :: a :: acts) x) with (last (a :: acts) x).
  apply last_cons_default.
Qed.

(** X4. On a well-formed network (whatever its activation functions) an
    input of [inputSize] coefficients is propagated to an output with as
    many coefficients as the last layer has neurons; the forward loop of
    [backPropagate] stores one weighted input and one activation per layer
    and ends with the same output. *)
Theorem Network_feedForward_spec ls (n : nat) x :
  wf_layers n ls -> length x = n ->
  exists out zs acts,
    Network_feedForward ls x = Ok out /\ length out = outputSize n ls /\
    forwardPass ls x = Ok (zs, acts) /\ out = last (x :: acts) x /\
    length zs = length ls /\ length acts = length ls.
Proof.
  intros Hwf Hx.
  destruct (@forwardPass_chain F SF ls n x Hwf Hx) as (zs & acts & E & _ & _ & Hl & Hm & _).
  exists (last (x :: acts) x), zs, acts.
  rewrite Network_feedForward_forwardPass, E; cbn [bind snd].
  split; [reflexivity|]. split; [exact Hl|]. split; [reflexivity|]. split; [reflexivity|].
  clear Hl. assert (Hlen : length (combine ls (combine (x :: acts) zs)) = length ls)
    by (rewrite <- Hm at 2; rewrite length_map; reflexivity).
  rewrite !length_combine in Hlen. cbn [length] in Hlen.
  assert (Hshape : forall (ls0 : list (@Layer F)) a zs0 acts0,
            forwardPass ls0 a = Ok (zs0, acts0) ->
            length zs0 = length ls0 /\ length acts0 = length ls0).
  { induction ls0 as [|l0 ls0 IH]; intros a zs0 acts0 E0; simpl in E0.
    - inversion E0; split; reflexivity.
    - destruct (Layer_feedForward_az l0 a) as [[a' z']|]; cbn [bind] in E0; [|discriminate].
      destruct (forwardPass ls0 a') as [[zs1 acts1]|] eqn:E1; cbn [bind] in E0;
        [|discriminate].
      inversion E0; subst. destruct (IH _ _ _ E1); simpl; split; lia. }
  apply (Hshape ls x zs acts E).
Qed.

(** ** Back-propagation and the update *)

(** X5. On a well-formed network and a sample of its input and output
    sizes, [backPropagate] returns exactly when every layer's activation is
    Logistic, and what it returns is one pair of gradients per layer, each
    with the dimensions of that layer's bias and weight matrix. *)
Theorem backPropagate_spec ls (cf : CostFunction) (n : nat) x y :
  wf_layers n ls -> wellShaped n ls (x, y) ->
  (is_ok (backPropagate ls cf x y) = true <-> Forall isLogistic ls) /\
  (forall g, backPropagate ls cf x y = Ok g ->
             length g = length ls /\ hasDims (dims n ls) g).
Proof.
  intros Hwf [Hx Hy]; simpl in Hx, Hy.
  destruct (@backPropagate_wf F SF ls cf n x y Hwf Hx Hy)
    as [(g & E & Hd & Hlog)|[E Hex]]; rewrite E.
  - split; [split; [intros _; exact Hlog|reflexivity]|].
    intros g' Hg; inversion Hg; subst g'. split; [|exact Hd].
    destruct (@hasDims_nth F _ _ Hd) as [-> _].
    clear. revert n; induction ls as [|l ls IH]; intros n; simpl; [reflexivity|].
    f_equal; apply IH.
  - split; [split; [discriminate|]|discriminate].
    intros Hlog; destruct (Logistic_not_Softmax Hlog Hex).
Qed.

Lemma updateLayers_wf (lr reg : F) ls : forall (n : nat) nabla,
  wf_layers n ls -> hasDims (dims n ls) nabla ->
  exists ls',
    updateLayers ls nabla lr reg = Ok ls' /\
    wf_layers n ls' /\ map size ls' = map size ls /\
    map activationFunction ls' = map activationFunction ls.
Proof.
  induction ls as [|l ls IH]; intros n nabla Hwf Hd.
  - exists []; simpl; repeat split.
  - destruct Hwf as (Hb & Hw & Hwf). simpl in Hd.
    inversion Hd as [|dd [nb nw] ds ns [Hnb Hnw] Hns]; subst. simpl in Hnb, Hnw.
    destruct (@updateBiasWeight_shapes F SF l nb nw lr reg _ _ Hb Hw Hnb Hnw)
      as (l' & El & Hs & Ha & Hb' & Hw').
    destruct (IH _ _ Hwf Hns) as (ls' & Els & Hwf' & Hsz & Hact).
    exists (l' :: ls'); simpl. rewrite El; cbn [bind]. rewrite Els; cbn [bind].
    split; [reflexivity|]. rewrite Hs. split; [|split; f_equal; assumption].
    split; [rewrite <- Hs in Hb'; rewrite Hb'; exact Hs|].
    split; [exact Hw'|exact Hwf'].
Qed.

Lemma outputSize_sizes ls : forall ls' (n : nat),
  map size ls' = map size ls -> outputSize n ls' = outputSize n ls.
Proof.
  induction ls as [|l ls IH]; intros [|l' ls'] n Hm; simpl in *; try discriminate;
    [reflexivity|].
  inversion Hm as [[Hs Hm']]. rewrite Hs. apply IH; exact Hm'.
Qed.

Lemma isLogistic_activations ls ls' :
  map activationFunction ls' = map activationFunction ls ->
  Forall isLogistic ls -> Forall isLogistic ls'.
Proof.
  revert ls'; induction ls as [|l ls IH]; intros [|l' ls'] Hm Hf; simpl in *;
    try discriminate; constructor; injection Hm as Ha Hm'.
  - unfold isLogistic in *. rewrite Ha. exact (Forall_inv Hf).
  - apply IH; [exact Hm'|exact (Forall_inv_tail Hf)].
Qed.

Lemma backPropagateAll_Logistic ls (cf : CostFunction) (n : nat)
    (batch : @DataLabel_Set F) :
  wf_layers n ls -> Forall isLogistic ls -> Forall (wellShaped n ls) batch ->
  exists gs, backPropagateAll ls cf batch = Ok gs.
Proof.
  intros Hwf Hlog Hb; induction Hb as [|[x y] batch [Hx Hy] _ [gs IH]]; simpl.
  - eexists; reflexivity.
  - simpl in Hx, Hy.
    destruct (@backPropagate_wf F SF ls cf n x y Hwf Hx Hy) as [(g & -> & _)|[_ Hex]];
      [|destruct (Logistic_not_Softmax Hlog Hex)].
    cbn [bind]; rewrite IH; cbn [bind]. eexists; reflexivity.
Qed.

Lemma updateParameters_wf (n : nat) (cf : CostFunction) ls (batch : @DataLabel_Set F)
    (lr reg : F) :
  wf_layers n ls -> Forall (wellShaped n ls) batch ->
  (forall ls', updateParameters n cf batch lr reg ls = Ok ls' ->
     wf_layers n ls' /\ map size ls' = map size ls /\
     map activationFunction ls' = map activationFunction ls) /\
  (ls <> [] -> Forall isLogistic ls ->
   exists ls', updateParameters n cf batch lr reg ls = Ok ls').
Proof.
  intros Hwf Hb.
  pose proof (zeroNablas_dims ls n) as Hz.
  pose proof (@accumulateBatch_spec F SF ls cf n batch Hwf Hb _ Hz) as Hacc.
  split.
  - intros ls' E. unfold updateParameters in E.
    destruct ls as [|l0 ls0]; [discriminate|]. set (ls := l0 :: ls0) in *.
    destruct (backPropagateAll ls cf batch) as [gs|e].
    + destruct Hacc as (Eacc & Hgs & _). rewrite Eacc in E; cbn [bind] in E.
      pose proof (@sumNablas_dims F SF _ _ Hgs _ Hz) as Hsum.
      destruct (@updateLayers_wf lr reg ls n _ Hwf Hsum) as (ls2 & E2 & H2).
      rewrite E2 in E; inversion E; subst; exact H2.
    + rewrite Hacc in E; discriminate.
  - intros Hne Hlog. unfold updateParameters.
    destruct ls as [|l0 ls0]; [congruence|]. set (ls := l0 :: ls0) in *.
    destruct (@backPropagateAll_Logistic ls cf n batch Hwf Hlog Hb) as (gs & Eg).
    rewrite Eg in Hacc. destruct Hacc as (Eacc & Hgs & _). rewrite Eacc; cbn [bind].
    pose proof (@sumNablas_dims F SF _ _ Hgs _ Hz) as Hsum.
    destruct (@updateLayers_wf lr reg ls n _ Hwf Hsum) as (ls2 & E2 & _).
    exists ls2; exact E2.
Qed.

(** X6. On a well-formed network and a batch of samples of its sizes,
    whatever [updateParameters] returns is again a well-formed network with
    the same layer sizes, activation functions and output size; and it does
    return when the network has a layer and every activation is Logistic. *)
Theorem updateParameters_keeps_shape (n : nat) (cf : CostFunction) ls
    (batch : @DataLabel_Set F) (lrRatio regRatio : F) :
  wf_layers n ls -> Forall (wellShaped n ls) batch ->
  (forall ls', updateParameters n cf batch lrRatio regRatio ls = Ok ls' ->
     wf_layers n ls' /\ map size ls' = map size ls /\
     map activationFunction ls' = map activationFunction ls /\
     outputSize n ls' = outputSize n ls) /\
  (ls <> [] -> Forall isLogistic ls ->
   exists ls', updateParameters n cf batch lrRatio regRatio ls = Ok ls').
Proof.
  intros Hwf Hb.
  destruct (@updateParameters_wf n cf ls batch lrRatio regRatio Hwf Hb) as [H1 H2].
  split; [|exact H2].
  intros ls' E. destruct (H1 ls' E) as (Hw & Hs & Ha).
  repeat (split; [assumption|]). apply outputSize_sizes; exact Hs.
Qed.

(** ** Decisions and accuracy *)

Lemma skipn_cons_nth {A : Type} (full : list A) : forall (i : nat) (h : A) (tl : list A) (d : A),
  skipn i full = h :: tl ->
  nth i full d = h /\ skipn (S i) full = tl /\ i < length full.
Proof.
  induction full as [|f full IH]; intros [|i] h tl d E; simpl in E; try discriminate.
  - inversion E; subst; simpl; repeat split; lia.
  - destruct (IH i h tl d E) as (H1 & H2 & H3). simpl; repeat split; auto; lia.
Qed.

Lemma maxCoeff_scan_spec (v : Vec) : forall (full : Vec) (i bi : nat),
  skipn i full = v -> bi < i -> i <= length full ->
  let r := maxCoeff_scan (nth bi full zero) bi i v in
  bi <= r /\ r < length full /\
  (forall j, r < j -> j < length full -> i <= j ->
             gtb (nth j full zero) (nth r full zero) = false) /\
  (r = bi \/ (i <= r /\ exists k, k < r /\ gtb (nth r full zero) (nth k full zero) = true)).
Proof.
  induction v as [|h v IH]; intros full i bi Hs Hbi Hi; cbn [maxCoeff_scan].
  - assert (Hl : length full <= i).
    { destruct (Nat.le_gt_cases (length full) i) as [H|H]; [exact H|].
      pose proof (length_skipn i full) as Hk. rewrite Hs in Hk; simpl in Hk. lia. }
    repeat split; lia.
  - destruct (skipn_cons_nth full i zero Hs) as (Hn & Hs' & Hlt).
    destruct (gtb h (nth bi full zero)) eqn:Eg.
    + rewrite <- Hn. destruct (IH full (S i) i Hs') as (H1 & H2 & H3 & H4); [lia..|].
      cbv zeta in *. split; [lia|]. split; [exact H2|]. split.
      * intros j Hj Hjl Hij. apply H3; lia.
      * right. destruct H4 as [H4|(H4 & k & Hk & Hgt)].
        -- rewrite H4. split; [lia|]. exists bi; split; [lia|]. rewrite Hn; exact Eg.
        -- split; [lia|]. exists k; split; assumption.
    + destruct (IH full (S i) bi Hs') as (H1 & H2 & H3 & H4); [lia..|].
      cbv zeta in *. split; [exact H1|]. split; [exact H2|]. split.
      * intros j Hj Hjl Hij.
        destruct (Nat.eq_dec j i) as [->|Hne]; [|apply H3; lia].
        destruct H4 as [H4|(H4 & _)]; [|lia]. rewrite H4, Hn; exact Eg.
      * destruct H4 as [H4|(H4 & k & Hk & Hgt)]; [left; exact H4|].
        right; split; [lia|]. exists k; split; assumption.
Qed.

(** X7. [output2prediction]: an empty output is read out of bounds; a
    single coefficient is cast; of two or more coefficients the decision is
    an index into the output such that no later coefficient is greater (by
    the comparison [>]) than the chosen one, and, when it is not index 0,
    the chosen coefficient is greater than an earlier one. *)
Theorem output2prediction_spec (out : Vec) :
  (out = [] -> output2prediction out = Err OutOfBounds) /\
  (forall s, out = [s] -> output2prediction out = Ok (to_prediction s)) /\
  (1 < length out ->
   exists i, output2prediction out = Ok (Z.of_nat i) /\ i < length out /\
     (forall j, i < j -> j < length out ->
                gtb (nth j out zero) (nth i out zero) = false) /\
     (0 < i -> exists k, k < i /\ gtb (nth i out zero) (nth k out zero) = true)).
Proof.
  split; [intros ->; reflexivity|]. split; [intros s ->; reflexivity|].
  intros Hl. unfold output2prediction.
  assert (E : (1 <? length out) = true) by (apply Nat.ltb_lt; exact Hl). rewrite E.
  destruct out as [|h v]; [simpl in Hl; lia|].
  exists (maxCoeff_index (h :: v)); split; [reflexivity|].
  unfold maxCoeff_index.
  destruct (@maxCoeff_scan_spec v (h :: v) 1 0 eq_refl) as (H1 & H2 & H3 & H4);
    [lia|simpl; lia|].
  cbv zeta in *. cbn [nth] in H1, H2, H3, H4.
  split; [exact H2|]. split.
  - intros j Hj Hjl. apply H3; lia.
  - intros Hpos. destruct H4 as [H4|(_ & k & Hk & Hgt)]; [lia|].
    exists k; split; assumption.
Qed.

Lemma set_nth_one_hot (n i : nat) :
  i < n ->
  set_nth (VecZero n) i one = repeat zero i ++ one :: repeat zero (n - S i).
Proof.
  unfold VecZero. revert i; induction n as [|n IH]; intros i Hi; [lia|].
  destruct i as [|i]; simpl; [rewrite Nat.sub_0_r; reflexivity|].
  f_equal. apply IH; lia.
Qed.

Lemma maxCoeff_scan_stays (best : F) (bi i k : nat) :
  gtb zero best = false -> maxCoeff_scan best bi i (repeat zero k) = bi.
Proof.
  intros Hg; revert i; induction k as [|k IH]; intros i; simpl; [reflexivity|].
  rewrite Hg; apply IH.
Qed.

Lemma maxCoeff_scan_one_hot (bi i k m : nat) :
  gtb one zero = true -> gtb zero zero = false -> gtb zero one = false ->
  maxCoeff_scan zero bi i (repeat zero k ++ one :: repeat zero m) = i + k.
Proof.
  intros H10 H00 H01; revert i; induction k as [|k IH]; intros i; simpl.
  - rewrite H10, maxCoeff_scan_stays by exact H01. lia.
  - rewrite H00, IH. lia.
Qed.

(** X8. When [1 > 0] holds and neither [0 > 0] nor [0 > 1], a label of one
    coefficient that casts to an index [idx] of an output layer with at
    least two neurons is expanded to a vector whose decision is [idx]
    again: it is the value the label itself is decided as.  On a layer
    with one neuron the expansion of the only admissible label is the
    vector [(1)]. *)
Theorem label_round_trip ls (lastLayer : @Layer F) (s : F) :
  gtb one zero = true -> gtb zero zero = false -> gtb zero one = false ->
  back ls = Ok lastLayer ->
  (0 <= to_prediction s < Z.of_nat (getSize lastLayer))%Z ->
  exists out,
    prediction2output ls [s] = Ok out /\
    output2prediction [s] = Ok (to_prediction s) /\
    (1 < getSize lastLayer -> output2prediction out = Ok (to_prediction s)) /\
    (getSize lastLayer = 1 -> out = [one]).
Proof.
  intros H10 H00 H01 Hback Hidx.
  set (n := getSize lastLayer) in *. set (i := Z.to_nat (to_prediction s)).
  assert (Hi : i < n) by (unfold i; lia).
  exists (set_nth (VecZero n) i one).
  split.
  { rewrite (@prediction2output_single F SF ls lastLayer s Hback).
    apply set_coeff_in. unfold VecZero; rewrite repeat_length. exact Hidx. }
  split; [reflexivity|]. split.
  - intros Hn. unfold output2prediction.
    rewrite set_nth_length. unfold VecZero at 1. rewrite repeat_length.
    assert (E : (1 <? n) = true) by (apply Nat.ltb_lt; exact Hn). rewrite E.
    f_equal. rewrite (set_nth_one_hot Hi).
    replace (to_prediction s) with (Z.of_nat i) by (unfold i; lia). f_equal.
    destruct i as [|i']; simpl.
    + apply maxCoeff_scan_stays; exact H01.
    + rewrite maxCoeff_scan_one_hot by assumption. reflexivity.
  - intros Hn. rewrite Hn in *. assert (i = 0) by lia. subst i.
    match goal with H : Z.to_nat _ = 0 |- _ => rewrite H end. reflexivity.
Qed.

Lemma evaluateData_count (net : @Network F Rng) (data : @DataLabel_Set F) :
  forall (correct0 correct : nat) (cost0 cost : F),
  evaluateData (layers net) (costFunction net) (correct0, cost0) data = Ok (correct, cost) ->
  correct = correct0 + length (filter (correctlyPredicted net) data).
Proof.
  induction data as [|[x y] data IH]; intros c0 c k0 k E; simpl in E.
  - inversion E; simpl; lia.
  - cbn [fst snd] in E.
    destruct (Network_feedForward (layers net) x) as [out|] eqn:Efw; cbn [bind] in E;
      [|discriminate].
    destruct (output2prediction out) as [p|] eqn:Ep; cbn [bind] in E; [|discriminate].
    destruct (prediction2output (layers net) y) as [eo|]; cbn [bind] in E; [|discriminate].
    destruct (output2prediction y) as [e|] eqn:Ee; cbn [bind] in E; [|discriminate].
    destruct (cost_calculate (costFunction net) out eo) as [cv|]; cbn [bind] in E;
      [|discriminate].
    assert (Hc : correctlyPredicted net (x, y) = (p =? e)%Z).
    { unfold correctlyPredicted, predict; cbn [fst snd].
      rewrite Efw; cbn [bind]; rewrite Ep, Ee; reflexivity. }
    cbn [filter]. rewrite Hc. apply IH in E. rewrite E.
    destruct (p =? e)%Z; simpl; lia.
Qed.

(** X9. When [calcAccuracyAndCost] returns, the count it returns is the
    number of samples for which [predict] on the features gives the
    decision of the label; so it never exceeds the number of samples, and on
    an empty data set the count is 0 and the cost is the regularization
    term alone. *)
Theorem calcAccuracyAndCost_count (net : @Network F Rng) (data : @DataLabel_Set F)
    (lambda : F) (correct : nat) (cost : F) :
  calcAccuracyAndCost (layers net) (costFunction net) data lambda = Ok (correct, cost) ->
  correct = length (filter (correctlyPredicted net) data) /\
  correct <= length data /\
  (data = [] ->
   cost = add zero (mul (div lambda two) (costRegularization (layers net)))).
Proof.
  intros H.
  assert (H3 : data = [] ->
               cost = add zero (mul (div lambda two) (costRegularization (layers net)))).
  { intros ->. unfold calcAccuracyAndCost in H; simpl in H. inversion H; reflexivity. }
  unfold calcAccuracyAndCost in H.
  destruct (evaluateData (layers net) (costFunction net) (0, zero) data)
    as [[c k]|] eqn:E; cbn [bind] in H; [|discriminate].
  inversion H; subst. apply evaluateData_count in E. simpl in E.
  split; [exact E|]. split; [rewrite E; apply filter_length_le|exact H3].
Qed.

(** ** Network::train *)

Lemma updateLayers_kinds (lr reg : F) ls : forall nabla ls',
  updateLayers ls nabla lr reg = Ok ls' -> map layerKind ls' = map layerKind ls.
Proof.
  induction ls as [|l ls IH]; intros nabla ls'; simpl.
  - intros H; inversion H; reflexivity.
  - destruct nabla as [|[nb nw] ns]; [discriminate|].
    destruct (updateBiasWeight l nb nw lr reg) as [l'|] eqn:El; cbn [bind]; [|discriminate].
    destruct (updateLayers ls ns lr reg) as [rest|] eqn:Er; cbn [bind]; [|discriminate].
    intros H; inversion H; subst; simpl. f_equal; [|eapply IH; exact Er].
    unfold updateBiasWeight in El.
    destruct (vec_add _ _); cbn [bind] in El; [|discriminate].
    destruct (mat_add _ _); cbn [bind] in El; [|discriminate].
    destruct (mat_add _ _); cbn [bind] in El; [|discriminate].
    inversion El; reflexivity.
Qed.

Lemma updateParameters_kinds (n : nat) (cf : CostFunction) (batch : @DataLabel_Set F)
    (lr reg : F) ls ls' :
  updateParameters n cf batch lr reg ls = Ok ls' -> map layerKind ls' = map layerKind ls.
Proof.
  unfold updateParameters; destruct ls as [|l0 ls0]; [discriminate|].
  destruct (accumulateBatch _ _ _ _); cbn [bind]; [|discriminate].
  apply updateLayers_kinds.
Qed.

Lemma epochLoop_metrics (evaluation : @DataLabel_Set F)
    (nTraining nBatches batchSize nEvaluation : nat) (lr reg : F) :
  forall nEpoch (net : @Network F Rng) training,
  let exit := epochLoop nEpoch net training evaluation
                nTraining nBatches batchSize nEvaluation lr reg in
  let net' := fst (fst exit) in
  exists tc ta ec ea,
    metricsGrown net net' tc ta ec ea /\
    length ta = length tc /\ length ec = length tc /\ length ea = length tc /\
    length tc <= nEpoch /\ (snd exit = Ok tt -> length tc = nEpoch) /\
    inputSize net' = inputSize net /\ costFunction net' = costFunction net /\
    map layerKind (layers net') = map layerKind (layers net).
Proof.
  induction nEpoch as [|nE IH]; intros net training; cbn [epochLoop].
  - exists [], [], [], []; unfold metricsGrown; simpl; rewrite !app_nil_r.
    repeat split; reflexivity.
  - pose proof (@optimize_invariant _ _ _ _
                  (updateParameters (inputSize net) (costFunction net))
                  (fun ls' => map layerKind ls' = map layerKind (layers net))
                  (fun batch lr0 reg0 s0 s1 Hs Hu =>
                     eq_trans (updateParameters_kinds _ _ _ _ _ _ Hu) Hs)
                  (rngEngine net) training nBatches batchSize lr reg (layers net) eq_refl)
      as Hinv.
    destruct (optimize _ _ _ _ _ _ _ _) as [[[training' rng'] ls'] outcome].
    cbn [fst snd] in Hinv.
    assert (Hstop : forall e : error,
              exists tc ta ec ea : list F,
                metricsGrown net (setLayers net ls' rng') tc ta ec ea /\
                length ta = length tc /\ length ec = length tc /\ length ea = length tc /\
                length tc <= S nE /\ (@Err unit e = Ok tt -> length tc = S nE) /\
                inputSize (setLayers net ls' rng') = inputSize net /\
                costFunction (setLayers net ls' rng') = costFunction net /\
                map layerKind (layers (setLayers net ls' rng')) = map layerKind (layers net)).
    { intros e. exists [], [], [], []; unfold metricsGrown; simpl; rewrite !app_nil_r.
      repeat split; try reflexivity; try lia; try discriminate. exact Hinv. }
    destruct outcome as [u|e]; [|apply Hstop].
    destruct (calcAccuracyAndCost _ _ training' zero) as [[nTS tCost]|e]; [|apply Hstop].
    destruct (calcAccuracyAndCost _ _ evaluation zero) as [[nES eCost]|e]; [|apply Hstop].
    match goal with
    | |- context [epochLoop nE ?n2 _ _ _ _ _ _ _ _] =>
        destruct (IH n2 training') as (tc & ta & ec & ea & Hg & H1 & H2 & H3 & H4 & H5 & H6 & H7 & H8)
    end.
    cbv zeta in *.
    destruct Hg as (G1 & G2 & G3 & G4). cbn [pushMetrics setLayers trainingCost
      trainingAccuracy evaluationCost evaluationAccuracy inputSize costFunction layers] in *.
    rewrite <- app_assoc in G1, G2, G3, G4.
    eexists (_ :: tc), (_ :: ta), (_ :: ec), (_ :: ea).
    split; [unfold metricsGrown; repeat split; eassumption|].
    simpl. repeat split; try lia; try assumption.
    + intros Hok; rewrite (H5 Hok); reflexivity.
    + rewrite H8; exact Hinv.
Qed.

(** X10. Whatever [train] ends with, each of the four metric sequences of
    the network it leaves is the given one followed by one new entry per
    completed epoch, the same number for all four, at most [nEpoch] and
    exactly [nEpoch] when it returns; the input size, the cost function and
    the size and activation function of every layer are unchanged. *)
Theorem train_metrics (net : @Network F Rng) (training evaluation : @DataLabel_Set F)
    (nEpoch batchSize : nat) (eta lambda : F) :
  let exit := train net training evaluation nEpoch batchSize eta lambda in
  let net' := fst (fst exit) in
  exists tc ta ec ea,
    metricsGrown net net' tc ta ec ea /\
    length ta = length tc /\ length ec = length tc /\ length ea = length tc /\
    length tc <= nEpoch /\ (snd exit = Ok tt -> length tc = nEpoch) /\
    inputSize net' = inputSize net /\ costFunction net' = costFunction net /\
    map layerKind (layers net') = map layerKind (layers net).
Proof.
  assert (Hstop : forall e : error,
            exists tc ta ec ea : list F,
              metricsGrown net net tc ta ec ea /\
              length ta = length tc /\ length ec = length tc /\ length ea = length tc /\
              length tc <= nEpoch /\ (@Err unit e = Ok tt -> length tc = nEpoch) /\
              inputSize net = inputSize net /\ costFunction net = costFunction net /\
              map layerKind (layers net) = map layerKind (layers net)).
  { intros e. exists [], [], [], []; unfold metricsGrown; simpl; rewrite !app_nil_r.
    repeat split; try reflexivity; try lia; discriminate. }
  unfold train. destruct training as [|front rest]; [apply Hstop|].
  destruct (negb (length (fst front) =? inputSize net)); [apply Hstop|].
  destruct (back (layers net)) as [lastLayer|e]; [|apply Hstop].
  destruct (negb (length (snd front) =? getSize lastLayer)); [apply Hstop|].
  destruct (batchSize =? 0); [apply Hstop|].
  apply epochLoop_metrics.
Qed.

Lemma epochLoop_no_batches (evaluation : @DataLabel_Set F)
    (nTraining batchSize nEvaluation : nat) (lr reg : F) :
  forall nEpoch (net : @Network F Rng) training,
    layers (fst (fst (epochLoop nEpoch net training evaluation
                        nTraining 0 batchSize nEvaluation lr reg))) = layers net.
Proof.
  induction nEpoch as [|nE IH]; intros net training; cbn [epochLoop]; [reflexivity|].
  unfold optimize. destruct (shuffle (rngEngine net) training) as [shuffled rng'].
  cbn [batchLoop].
  destruct (calcAccuracyAndCost _ _ shuffled zero) as [[nTS tCost]|e]; [|reflexivity].
  destruct (calcAccuracyAndCost _ _ evaluation zero) as [[nES eCost]|e]; [|reflexivity].
  rewrite IH. reflexivity.
Qed.

(** X11. When the batch size exceeds the number of training samples,
    [floor(N/B)] is 0 and no batch is processed: however [train] ends, every
    layer keeps the bias and weights it had. *)
Theorem train_large_batch (net : @Network F Rng) (training evaluation : @DataLabel_Set F)
    (nEpoch batchSize : nat) (eta lambda : F) :
  length training < batchSize ->
  layers (fst (fst (train net training evaluation nEpoch batchSize eta lambda)))
  = layers net.
Proof.
  intros Hlt. unfold train. destruct training as [|front rest]; [reflexivity|].
  destruct (negb (length (fst front) =? inputSize net)); [reflexivity|].
  destruct (back (layers net)) as [lastLayer|e]; [|reflexivity].
  destruct (negb (length (snd front) =? getSize lastLayer)); [reflexivity|].
  destruct (batchSize =? 0); [reflexivity|].
  rewrite (Nat.div_small _ _ Hlt). apply epochLoop_no_batches.
Qed.

Lemma cost_calculate_ok (cf : CostFunction) x t :
  length x = length t -> exists c, cost_calculate cf x t = Ok c.
Proof.
  intros Hl; destruct cf; simpl.
  - unfold Quadratic_calculate, vec_sub. rewrite cwise_ok by lia. eexists; reflexivity.
  - apply CrossEntropy_terms_ok; exact Hl.
Qed.

Lemma Network_feedForward_ok ls (n : nat) x :
  wf_layers n ls -> length x = n ->
  exists out, Network_feedForward ls x = Ok out /\ length out = outputSize n ls.
Proof.
  intros Hwf Hx.
  destruct (@forwardPass_chain F SF ls n x Hwf Hx) as (zs & acts & E & _ & _ & Hl & _).
  exists (last (x :: acts) x).
  rewrite Network_feedForward_forwardPass, E; cbn [bind snd]. split; [reflexivity|exact Hl].
Qed.

Lemma output2prediction_ok (out : Vec) :
  0 < length out -> exists p, output2prediction out = Ok p.
Proof.
  intros Hl; unfold output2prediction. destruct (1 <? length out); [eexists; reflexivity|].
  destruct out; [simpl in Hl; lia|eexists; reflexivity].
Qed.

Lemma evaluateSample_ok ls (cf : CostFunction) (n : nat) (sample : @DataLabel_Pair F) :
  wf_layers n ls -> ls <> [] -> 2 <= outputSize n ls ->
  evaluable n (outputSize n ls) sample ->
  forall acc, exists acc', evaluateSample ls cf acc sample = Ok acc'.
Proof.
  intros Hwf Hne Hk [Hx Hy] [correct cost]. destruct sample as [x y]; cbn [fst snd] in *.
  unfold evaluateSample; cbn [fst snd].
  destruct (@Network_feedForward_ok ls n x Hwf Hx) as (out & -> & Hout); cbn [bind].
  destruct (@output2prediction_ok out) as (p & ->); [lia|]; cbn [bind].
  assert (Hexp : exists eo, prediction2output ls y = Ok eo /\ length eo = outputSize n ls).
  { destruct Hy as [Hy|(s & -> & Hs)].
    - exists y; split; [|exact Hy]. unfold prediction2output.
      assert (E : (1 <? length y) = true) by (apply Nat.ltb_lt; lia).
      rewrite E; reflexivity.
    - destruct (back_ok n Hne) as (lastLayer & Hback & Hsize).
      rewrite (@prediction2output_single F SF ls lastLayer s Hback).
      unfold getSize. rewrite Hsize.
      rewrite set_coeff_in by (unfold VecZero; rewrite repeat_length; exact Hs).
      eexists; split; [reflexivity|].
      rewrite set_nth_length; unfold VecZero; apply repeat_length. }
  destruct Hexp as (eo & -> & Heo); cbn [bind].
  destruct (@output2prediction_ok y) as (e & ->); cbn [bind].
  { destruct Hy as [Hy|(s & -> & _)]; [lia|simpl; lia]. }
  destruct (@cost_calculate_ok cf out eo) as (c & ->); [lia|]; cbn [bind].
  eexists; reflexivity.
Qed.

Lemma calcAccuracyAndCost_ok ls (cf : CostFunction) (n : nat) (data : @DataLabel_Set F)
    (lambda : F) :
  wf_layers n ls -> ls <> [] -> 2 <= outputSize n ls ->
  Forall (evaluable n (outputSize n ls)) data ->
  exists r, calcAccuracyAndCost ls cf data lambda = Ok r.
Proof.
  intros Hwf Hne Hk Hd. unfold calcAccuracyAndCost.
  assert (H : forall acc, exists acc', evaluateData ls cf acc data = Ok acc').
  { induction Hd as [|sample data Hs _ IH]; intros acc; simpl; [eexists; reflexivity|].
    destruct (@evaluateSample_ok ls cf n sample Hwf Hne Hk Hs acc) as (acc1 & ->).
    cbn [bind]. apply IH. }
  destruct (H (0, zero)) as ([c k] & ->); cbn [bind]. eexists; reflexivity.
Qed.

Lemma runBatches_keeps {St : Type}
    (update_network : @DataLabel_Set F -> F -> F -> St -> result St) (lr reg : F)
    (P : St -> Prop) (Q : @DataLabel_Set F -> Prop) :
  (forall batch s, Q batch -> P s -> exists s', update_network batch lr reg s = Ok s' /\ P s') ->
  forall batches s, Forall Q batches -> P s ->
    snd (runBatches update_network lr reg batches s) = Ok tt /\
    P (fst (runBatches update_network lr reg batches s)).
Proof.
  intros Hstep batches; induction batches as [|b bs IH]; intros s Hq Hp; simpl.
  - split; [reflexivity|exact Hp].
  - destruct (Hstep b s (Forall_inv Hq) Hp) as (s' & -> & Hp').
    apply IH; [exact (Forall_inv_tail Hq)|exact Hp'].
Qed.

Lemma epochLoop_completes {SS : @ShuffleSpec Rng SR} (n k : nat)
    (evaluation : @DataLabel_Set F)
    (nTraining nBatches batchSize nEvaluation : nat) (lr reg : F) :
  2 <= k -> Forall (evaluable n k) evaluation ->
  forall nEpoch (net : @Network F Rng) (training : @DataLabel_Set F),
  inputSize net = n -> wf_layers n (layers net) -> layers net <> [] ->
  Forall isLogistic (layers net) -> outputSize n (layers net) = k ->
  Forall (fun sm => length (fst sm) = n /\ length (snd sm) = k) training ->
  nBatches * batchSize <= length training ->
  exists net' training',
    epochLoop nEpoch net training evaluation
      nTraining nBatches batchSize nEvaluation lr reg = (net', training', Ok tt) /\
    Permutation training training' /\ wf_layers n (layers net') /\
    length (trainingCost net') = length (trainingCost net) + nEpoch.
Proof.
  intros Hk Hev.
  induction nEpoch as [|nE IH]; intros net training Hn Hwf Hne Hlog Hout Htr Hle;
    cbn [epochLoop].
  - exists net, training; repeat split; auto.
  - set (P := fun ls' : list (@Layer F) =>
                wf_layers n ls' /\ ls' <> [] /\ Forall isLogistic ls' /\
                outputSize n ls' = k).
    set (Q := fun b : @DataLabel_Set F =>
                Forall (fun sm => length (fst sm) = n /\ length (snd sm) = k) b).
    assert (Hstep : forall batch s, Q batch -> P s ->
              exists s', updateParameters (inputSize net) (costFunction net)
                           batch lr reg s = Ok s' /\ P s').
    { intros batch s Hq (Hw & Hnes & Hl & Ho). rewrite Hn.
      assert (Hws : Forall (wellShaped n s) batch).
      { eapply Forall_impl; [|exact Hq]. intros sm [H1 H2]; split; [exact H1|].
        rewrite Ho; exact H2. }
      destruct (@updateParameters_wf n (costFunction net) s batch lr reg Hw Hws)
        as [Hkeep Hret].
      destruct (Hret Hnes Hl) as (s' & Es). exists s'; split; [exact Es|].
      destruct (Hkeep s' Es) as (Hw' & Hs' & Ha').
      split; [exact Hw'|]. split.
      - intros ->. destruct s; [congruence|discriminate].
      - split; [eapply isLogistic_activations; eassumption|].
        rewrite (@outputSize_sizes s s' n Hs'); exact Ho. }
    destruct (optimize_spec (updateParameters (inputSize net) (costFunction net))
                (rngEngine net) training nBatches batchSize lr reg (layers net) Hle)
      as (tr & E & Htr').
    pose proof (shuffle_perm (rngEngine net) training) as Hperm.
    set (shuffled := fst (shuffle (rngEngine net) training)) in *.
    assert (Hsh : Forall (fun sm => length (fst sm) = n /\ length (snd sm) = k) shuffled).
    { rewrite Forall_forall in *; intros sm Hin; apply Htr.
      eapply Permutation_in; [apply Permutation_sym; exact Hperm|exact Hin]. }
    assert (Hq : Forall Q (map (batchSlice shuffled batchSize) (seq 0 nBatches))).
    { apply Forall_forall; intros b Hb. apply in_map_iff in Hb as (i & <- & _).
      unfold Q. rewrite Forall_forall in *; intros sm Hin.
      apply Hsh. exact (batchSlice_incl shuffled batchSize i sm Hin). }
    destruct (@runBatches_keeps _ (updateParameters (inputSize net) (costFunction net))
                lr reg P Q Hstep _ (layers net) Hq
                (conj Hwf (conj Hne (conj Hlog Hout)))) as [Hok HP].
    rewrite E, Hok. rewrite (Htr' Hok).
    set (ls' := fst (runBatches _ lr reg _ (layers net))) in *.
    destruct HP as (Hw' & Hne' & Hl' & Ho').
    cbn [layers costFunction setLayers].
    assert (Hevs : Forall (evaluable n (outputSize n ls')) shuffled).
    { rewrite Ho'. eapply Forall_impl; [|exact Hsh].
      intros sm [H1 H2]; split; [exact H1|left; exact H2]. }
    destruct (@calcAccuracyAndCost_ok ls' (costFunction net) n shuffled zero Hw' Hne'
                ltac:(rewrite Ho'; exact Hk) Hevs) as ([nTS tCost] & ->).
    destruct (@calcAccuracyAndCost_ok ls' (costFunction net) n evaluation zero Hw' Hne'
                ltac:(rewrite Ho'; exact Hk) ltac:(rewrite Ho'; exact Hev))
      as ([nES eCost] & ->).
    match goal with
    | |- context [epochLoop nE ?n2 _ _ _ _ _ _ _ _] =>
        destruct (IH n2 shuffled) as (net' & tr' & E' & Hp' & Hwf' & Hlen')
    end; cbn [inputSize layers pushMetrics setLayers]; try assumption.
    { rewrite <- (Permutation_length Hperm); exact Hle. }
    exists net', tr'. split; [exact E'|].
    split; [eapply Permutation_trans; eassumption|]. split; [exact Hwf'|].
    rewrite Hlen'. cbn [trainingCost pushMetrics setLayers]. rewrite length_app; simpl; lia.
Qed.

(** X12. On a well-formed network with at least one layer, only Logistic
    activations and at least two outputs, a non-empty training set whose
    samples all have the network's input and output lengths, an evaluation
    set whose labels are full output vectors or single coefficients casting
    to a valid index, and a batch size of at least 1: [train] returns; the
    training set is then a permutation of the given one, the network is
    still well-formed, and [nEpoch] training costs have been appended. *)
Theorem train_completes {SS : @ShuffleSpec Rng SR} (net : @Network F Rng)
    (training evaluation : @DataLabel_Set F) (nEpoch batchSize : nat) (eta lambda : F) :
  wf_layers (inputSize net) (layers net) -> layers net <> [] ->
  Forall isLogistic (layers net) ->
  2 <= outputSize (inputSize net) (layers net) ->
  training <> [] ->
  Forall (wellShaped (inputSize net) (layers net)) training ->
  Forall (evaluable (inputSize net) (outputSize (inputSize net) (layers net))) evaluation ->
  0 < batchSize ->
  exists net' training',
    train net training evaluation nEpoch batchSize eta lambda = (net', training', Ok tt) /\
    Permutation training training' /\
    wf_layers (inputSize net) (layers net') /\
    length (trainingCost net') = length (trainingCost net) + nEpoch.
Proof.
  intros Hwf Hne Hlog Hk Htne Hws Hev HB.
  destruct training as [|front rest]; [congruence|].
  destruct (back_ok (inputSize net) Hne) as (lastLayer & Hback & Hsize).
  pose proof (Forall_inv Hws) as [Hx Hy].
  rewrite (@train_ratios F SF Rng SR net front rest evaluation nEpoch batchSize eta lambda
             lastLayer Hx Hback); [|unfold getSize; lia|lia].
  apply (@epochLoop_completes SS (inputSize net) (outputSize (inputSize net) (layers net)));
    auto.
  rewrite Nat.mul_comm; apply Nat.Div0.mul_div_le.
Qed.

(** ** Factories *)

Lemma eqb_literal (name lit : string) :
  String.eqb name lit = true -> name = lit.
Proof. apply String.eqb_eq. Qed.

(** X13. For each of the three factories, the name of a variant is
    converted back to that variant, a name is accepted only if it is
    exactly the name of a variant (lower case), and any other name raises a
    logic error whose message ends with the name. *)
Theorem factories_round_trip :
  (forall f, ActivationFunctionFactory_str2enum (ActivationFunction_getName f) = Returns f) /\
  (forall c, CostFunctionFactory_str2enum (CostFunction_getName c) = Returns c) /\
  (forall o, OptimizerFactory_str2enum (Optimizer_getName o) = Returns o) /\
  (forall name,
     match ActivationFunctionFactory_str2enum name with
     | Returns f => name = ActivationFunction_getName f
     | Throws e =>
         e = LogicError
               (String.append
                  "ActivationFunctionFactory::str2enum : unknown activation function name "
                  name)
     end) /\
  (forall name,
     match CostFunctionFactory_str2enum name with
     | Returns c => name = CostFunction_getName c
     | Throws e =>
         e = LogicError
               (String.append "CostFunctionFactory::str2enum : unknown cost function name "
                  name)
     end) /\
  (forall name,
     match OptimizerFactory_str2enum name with
     | Returns o => name = Optimizer_getName o
     | Throws e =>
         e = LogicError
               (String.append "OptimizerFactory::str2enum : unknown optimizer name " name)
     end).
Proof.
  split; [intros []; reflexivity|]. split; [intros []; reflexivity|].
  split; [intros []; reflexivity|].
  split; [|split]; intros name.
  - unfold ActivationFunctionFactory_str2enum.
    destruct (String.eqb name Logistic_Name) eqn:E1; [apply eqb_literal; exact E1|].
    destruct (String.eqb name Softmax_Name) eqn:E2; [apply eqb_literal; exact E2|].
    reflexivity.
  - unfold CostFunctionFactory_str2enum.
    destruct (String.eqb name QuadraticCostFunction_Name) eqn:E1;
      [apply eqb_literal; exact E1|].
    destruct (String.eqb name CrossEntropy_Name) eqn:E2; [apply eqb_literal; exact E2|].
    reflexivity.
  - unfold OptimizerFactory_str2enum.
    destruct (String.eqb name StochasticGradientDescent_Name) eqn:E1;
      [apply eqb_literal; exact E1|].
    reflexivity.
Qed.

(** ** Network::addLayer *)

Lemma back_outputSize ls : forall n : nat,
  match back ls with
  | Err _ => n
  | Ok lastLayer => getSize lastLayer
  end = outputSize n ls.
Proof.
  induction ls as [|l ls IH]; intros n; [reflexivity|].
  destruct ls as [|l2 ls]; [reflexivity|].
  change (back (l :: l2 :: ls)) with (back (l2 :: ls)).
  change (outputSize n (l :: l2 :: ls)) with (outputSize (size l) (l2 :: ls)).
  specialize (IH (size l)).
  destruct (@back_ok F (l2 :: ls) (size l)) as (lastLayer & E & _); [discriminate|].
  rewrite E in *. exact IH.
Qed.

Lemma wf_layers_app ls : forall (n : nat) l,
  wf_layers n (ls ++ [l]) <->
  (wf_layers n ls /\ length (bias l) = size l /\
   shape (weight l) (size l) (outputSize n ls)).
Proof.
  induction ls as [|l0 ls IH]; intros n l; simpl.
  - tauto.
  - rewrite IH. tauto.
Qed.

Lemma outputSize_app ls : forall (n : nat) l, outputSize n (ls ++ [l]) = size l.
Proof. induction ls as [|l0 ls IH]; intros n l; simpl; [reflexivity|apply IH]. Qed.

Section GeneratorProperties.

Context {G : Type} (generatorFunc : G -> F * G).

Lemma draws_length (n : nat) : forall g, length (fst (draws generatorFunc n g)) = n.
Proof.
  induction n as [|n IH]; intros g; simpl; [reflexivity|].
  destruct (generatorFunc g) as [v g1]. specialize (IH g1).
  destruct (draws generatorFunc n g1) as [vs g2]. simpl in *; lia.
Qed.

Lemma draws_add (a b : nat) : forall g,
  snd (draws generatorFunc (a + b) g)
  = snd (draws generatorFunc b (snd (draws generatorFunc a g))).
Proof.
  induction a as [|a IH]; intros g; simpl; [reflexivity|].
  destruct (generatorFunc g) as [v g1]. specialize (IH g1).
  destruct (draws generatorFunc (a + b) g1) as [vs g2].
  destruct (draws generatorFunc a g1) as [vs' g2']. simpl in *. exact IH.
Qed.

Lemma fromColumnMajor_shape (r c : nat) (vs : Vec) (s : F) :
  shape (mat_div_scalar (fromColumnMajor r c vs) s) r c.
Proof.
  unfold shape, mrows, mat_div_scalar, fromColumnMajor; simpl.
  rewrite !length_map, length_seq. repeat split.
  rewrite !Forall_map. apply Forall_forall; intros i _.
  unfold vec_div_scalar. rewrite !length_map, length_seq. reflexivity.
Qed.

(** X14. [addLayer] appends one layer and changes nothing else of the
    network.  With initialization the new layer keeps its size and
    activation function, gets [size] biases and a weight matrix of [size]
    rows and as many columns as the previous layer has neurons (the input
    size for the first layer), so a well-formed network stays well-formed,
    and the generator has been called [size + size * previous] times.
    Without initialization the layer is stored as it is and the generator
    is not called; the network is then well-formed only if the layer
    already fits. *)
Theorem addLayer_spec (net : @Network F Rng) (layer : @Layer F) (g : G) :
  let n := inputSize net in
  let prev := outputSize n (layers net) in
  (exists layer',
     fst (addLayer generatorFunc net layer true g)
     = mkNetwork n (layers net ++ [layer']) (costFunction net) (rngEngine net)
         (trainingCost net) (trainingAccuracy net)
         (evaluationCost net) (evaluationAccuracy net) /\
     size layer' = size layer /\ activationFunction layer' = activationFunction layer /\
     length (bias layer') = size layer /\ shape (weight layer') (size layer) prev /\
     (wf_layers n (layers net) -> wf_layers n (layers net ++ [layer'])) /\
     snd (addLayer generatorFunc net layer true g)
     = snd (draws generatorFunc (size layer + size layer * prev) g)) /\
  addLayer generatorFunc net layer false g
  = (mkNetwork n (layers net ++ [layer]) (costFunction net) (rngEngine net)
       (trainingCost net) (trainingAccuracy net)
       (evaluationCost net) (evaluationAccuracy net), g) /\
  (wf_layers n (layers net) ->
   (wf_layers n (layers net ++ [layer]) <->
    length (bias layer) = size layer /\ shape (weight layer) (size layer) prev)).
Proof.
  intros n prev. split; [|split; [reflexivity|]].
  - unfold addLayer. rewrite (back_outputSize (layers net) (inputSize net)). fold n prev.
    unfold Layer_initialize_random, getSize.
    pose proof (draws_length (size layer) g) as Hb.
    pose proof (draws_add (size layer) (size layer * prev) g) as Hg.
    destruct (draws generatorFunc (size layer) g) as [b g1]. cbn [fst snd] in *.
    destruct (draws generatorFunc (size layer * prev) g1) as [ws g2]. cbn [fst snd] in *.
    eexists; split; [reflexivity|]. cbn [size activationFunction bias weight].
    split; [reflexivity|]. split; [reflexivity|]. split; [exact Hb|].
    split; [apply fromColumnMajor_shape|]. split; [|symmetry; exact Hg].
    intros Hwf. apply wf_layers_app. cbn [size bias weight].
    split; [exact Hwf|]. split; [exact Hb|apply fromColumnMajor_shape].
  - intros Hwf. rewrite wf_layers_app. tauto.
Qed.

End GeneratorProperties.

(** ** Persistence *)

Lemma mod3_step (i : nat) (r : nat) :
  0 < i -> (i - 1) mod 3 = r -> r < 2 -> (S i - 1) mod 3 = S r.
Proof.
  intros Hi Hr Hlt.
  pose proof (Nat.div_mod_eq (i - 1) 3) as E. rewrite Hr in E.
  replace (S i - 1) with (S r + (i - 1) / 3 * 3) by lia.
  rewrite Nat.Div0.mod_add. apply Nat.mod_small; lia.
Qed.

Lemma mod3_wrap (i : nat) :
  0 < i -> (i - 1) mod 3 = 2 -> (S i - 1) mod 3 = 0.
Proof.
  intros Hi Hr.
  pose proof (Nat.div_mod_eq (i - 1) 3) as E. rewrite Hr in E.
  replace (S i - 1) with (0 + ((i - 1) / 3 + 1) * 3) by lia.
  rewrite Nat.Div0.mod_add. reflexivity.
Qed.

Lemma concat_rows_length (rows : list Vec) (c : nat) :
  Forall (fun row => length row = c) rows -> length (concat rows) = length rows * c.
Proof.
  induction 1 as [|row rows Hrow _ IH]; simpl; [reflexivity|].
  rewrite length_app, IH, Hrow; reflexivity.
Qed.

Lemma chunks_of_concat (rows : list Vec) (c : nat) :
  Forall (fun row => length row = c) rows ->
  map (fun i => firstn c (skipn (i * c) (concat rows))) (seq 0 (length rows)) = rows.
Proof.
  induction 1 as [|row rows Hrow _ IH]; [reflexivity|].
  cbn [length seq map concat]. f_equal.
  - simpl. rewrite firstn_app, Hrow, Nat.sub_diag, firstn_O, app_nil_r.
    apply firstn_all2; lia.
  - rewrite <- seq_shift, map_map. rewrite <- IH at 2.
    apply map_ext; intros i.
    rewrite skipn_app, Hrow.
    rewrite (skipn_all2 (n := S i * c) row) by (rewrite Hrow; simpl; lia).
    replace (S i * c - c) with (i * c) by (simpl; lia). reflexivity.
Qed.

Section RoundTrip.

Context {TRT : @TextRoundTrip F TIO}.

Lemma readValues_print (vs : Vec) : readValues (map printDouble vs) = Returns vs.
Proof.
  induction vs as [|v vs IH]; simpl; [reflexivity|].
  rewrite stod_printDouble, IH; reflexivity.
Qed.

Lemma fromRowMajor_weight (w : @Matrix F) (r : nat) :
  0 < r -> shape w r (mcols w) ->
  fromRowMajor r (length (concat (mdata w)) / r) (concat (mdata w)) = w.
Proof.
  intros Hr (Hrows & _ & Hf). unfold mrows in Hrows.
  rewrite (concat_rows_length Hf), Hrows, Nat.mul_comm, Nat.div_mul by lia.
  unfold fromRowMajor. rewrite <- Hrows at 1. rewrite (chunks_of_concat Hf).
  destruct w; reflexivity.
Qed.

Lemma loadLines_layer (b : NetworkBuilder) (bias0 : Vec) (w0 : @Matrix F)
    (acc : list (@Layer F)) (i : nat) l (rest : list Line) :
  0 < i -> (i - 1) mod 3 = 0 ->
  0 < size l -> length (bias l) = size l -> shape (weight l) (size l) (mcols (weight l)) ->
  loadLines (mkLoadState b bias0 w0 acc i) (saveLayer l ++ rest)
  = loadLines (mkLoadState b (bias l) (weight l) (acc ++ [l]) (S (S (S i)))) rest.
Proof.
  intros Hi H0 Hs Hb Hw.
  pose proof (mod3_step Hi H0 ltac:(lia)) as H1.
  pose proof (mod3_step (i := S i) ltac:(lia) H1 ltac:(lia)) as H2.
  assert (Ei : (0 <? i) = true) by (apply Nat.ltb_lt; exact Hi).
  unfold saveLayer, getParameters. cbn [app loadLines].
  (* the bias line *)
  unfold loadLine at 1. cbn [ld_iRow ld_builder ld_bias ld_weight ld_layers].
  rewrite Ei, H0. cbn [Nat.eqb]. rewrite readValues_print.
  (* the weight line *)
  unfold loadLine at 1. cbn [ld_iRow ld_builder ld_bias ld_weight ld_layers].
  change (0 <? S i) with true. cbv iota. rewrite H1. cbn [Nat.eqb].
  rewrite readValues_print, Hb.
  assert (Es : (size l =? 0) = false) by (apply Nat.eqb_neq; lia). rewrite Es.
  rewrite (fromRowMajor_weight Hs Hw).
  (* the activation line *)
  unfold loadLine at 1. cbn [ld_iRow ld_builder ld_bias ld_weight ld_layers].
  change (0 <? S (S i)) with true. cbv iota. rewrite H2. cbn [Nat.eqb].
  unfold cellAt; cbn [nth].
  assert (Ea : ActivationFunctionFactory_str2enum
                 (ActivationFunction_getName (activationFunction l))
               = Returns (activationFunction l))
    by (destruct (activationFunction l); reflexivity).
  rewrite Ea. unfold createLayer, Layer_new, Layer_initialize.
  cbn [size activationFunction]. rewrite Hb.
  destruct l; reflexivity.
Qed.

Lemma loadLines_layers (b : NetworkBuilder) ls :
  Forall (fun l => 0 < size l /\ length (bias l) = size l /\
                   shape (weight l) (size l) (mcols (weight l))) ls ->
  forall (bias0 : Vec) (w0 : @Matrix F) (acc : list (@Layer F)) (i : nat),
  0 < i -> (i - 1) mod 3 = 0 ->
  exists bias1 w1 i1,
    loadLines (mkLoadState b bias0 w0 acc i) (concat (map saveLayer ls))
    = Returns (mkLoadState b bias1 w1 (acc ++ ls) i1).
Proof.
  induction 1 as [|l ls (Hs & Hb & Hw) _ IH]; intros bias0 w0 acc i Hi H0.
  - simpl. rewrite app_nil_r. do 3 eexists; reflexivity.
  - cbn [map concat]. rewrite (@loadLines_layer b bias0 w0 acc i l _ Hi H0 Hs Hb Hw).
    pose proof (mod3_step Hi H0 ltac:(lia)) as H1.
    pose proof (mod3_step (i := S i) ltac:(lia) H1 ltac:(lia)) as H2.
    pose proof (mod3_wrap (i := S (S i)) ltac:(lia) H2) as H3.
    destruct (IH (bias l) (weight l) (acc ++ [l]) (S (S (S i))) ltac:(lia) H3)
      as (b1 & w1 & i1 & E).
    rewrite E, <- app_assoc. do 3 eexists; reflexivity.
Qed.

Lemma addLayers_stored (ls : list (@Layer F)) : forall net : @Network F Rng,
  fold_left (fun n layer => fst (addLayer (fun u : unit => (zero, u)) n layer false tt))
            ls net
  = mkNetwork (inputSize net) (layers net ++ ls) (costFunction net) (rngEngine net)
      (trainingCost net) (trainingAccuracy net)
      (evaluationCost net) (evaluationAccuracy net).
Proof.
  induction ls as [|l ls IH]; intros net; simpl.
  - rewrite app_nil_r; destruct net; reflexivity.
  - rewrite IH; simpl. rewrite <- app_assoc; reflexivity.
Qed.

(** X15. What [save] writes for a network, [load] reads back: when numbers
    survive printing and parsing and every layer has at least one neuron,
    [size] biases and a rectangular weight matrix of [size] rows, the
    loaded network has the same input size, cost function and layers (size,
    activation, bias and weights); its metric sequences are empty and its
    engine is freshly seeded, since neither is written to the file.  The
    builder that loads is left with the file's input size and cost
    function. *)
Theorem load_save (net : @Network F Rng) (b : NetworkBuilder) (entropy : N) :
  Forall (fun l => 0 < size l /\ length (bias l) = size l /\
                   shape (weight l) (size l) (mcols (weight l))) (layers net) ->
  load b entropy (save net)
  = Returns (setCostFunction (setInputSize b (inputSize net)) (costFunction net),
             mkNetwork (inputSize net) (layers net) (costFunction net)
               (seedEngine (if b_isTrueRandom b then entropy else 17111993%N))
               [] [] [] []).
Proof.
  intros Hls. unfold load, save. cbn [loadLines].
  unfold loadLine at 1. cbn [ld_iRow ld_builder ld_bias ld_weight ld_layers Nat.ltb Nat.leb].
  unfold cellAt; cbn [nth]. rewrite stoull_printSize.
  unfold setCostFunction_name.
  assert (Ec : CostFunctionFactory_str2enum (CostFunction_getName (costFunction net))
               = Returns (costFunction net))
    by (destruct (costFunction net); reflexivity).
  rewrite Ec.
  destruct (@loadLines_layers
              (setCostFunction (setInputSize b (inputSize net)) (costFunction net))
              (layers net) Hls [] (mkMatrix 0 []) [] 1 ltac:(lia) eq_refl)
    as (b1 & w1 & i1 & E).
  rewrite E. cbn [ld_builder ld_layers app]. rewrite addLayers_stored.
  reflexivity.
Qed.

End RoundTrip.

(** ** CSVReader *)

Lemma readRow_parsed (splitIndex : nat) (cells : Line) : forall (colIdx : nat) (vs : Vec),
  Forall2 (fun cell v => stod cell = Some v) cells vs ->
  readRow splitIndex colIdx cells
  = Returns (map (fun v => div v (of_size 255)) (firstn (splitIndex - colIdx) vs),
             skipn (splitIndex - colIdx) vs).
Proof.
  induction cells as [|cell cells IH]; intros colIdx vs Hp; inversion Hp; subst.
  - destruct (splitIndex - colIdx); reflexivity.
  - cbn [readRow].
    match goal with H : stod cell = Some _ |- _ => rewrite H end.
    match goal with H : Forall2 _ cells _ |- _ => rewrite (IH (S colIdx) _ H) end.
    destruct (colIdx <? splitIndex) eqn:E.
    + apply Nat.ltb_lt in E.
      replace (splitIndex - colIdx) with (S (splitIndex - S colIdx)) by lia.
      reflexivity.
    + apply Nat.ltb_ge in E.
      replace (splitIndex - colIdx) with 0 by lia.
      replace (splitIndex - S colIdx) with 0 by lia. reflexivity.
Qed.

Lemma readRow_unparsed (splitIndex : nat) (cells : Line) : forall colIdx : nat,
  Exists (fun cell => stod cell = None) cells ->
  readRow splitIndex colIdx cells = Throws InvalidArgument.
Proof.
  induction cells as [|cell cells IH]; intros colIdx Hex; inversion Hex; subst; cbn [readRow].
  - match goal with H : stod cell = None |- _ => rewrite H end. reflexivity.
  - destruct (stod cell); [|reflexivity].
    match goal with H : Exists _ cells |- _ => rewrite (IH (S colIdx) H) end. reflexivity.
Qed.

(** X16. A row of the CSV file whose cells all parse is split at column
    [splitIndex]: the values before it, each divided by 255, are the data
    and the values from it on, unchanged, are the label, so a row shorter
    than [splitIndex] has an empty label; a row with a cell that does not
    parse makes the reader throw; and [read_csv_MNIST] returns one pair per
    row. *)
Theorem read_csv_MNIST_spec (splitIndex : nat) :
  (forall (cells : Line) (vs : Vec),
     Forall2 (fun cell v => stod cell = Some v) cells vs ->
     readRow splitIndex 0 cells
     = Returns (map (fun v => div v (of_size 255)) (firstn splitIndex vs),
                skipn splitIndex vs)) /\
  (forall (cells : Line),
     Exists (fun cell => stod cell = None) cells ->
     readRow splitIndex 0 cells = Throws InvalidArgument) /\
  (forall (rows : list Line) samples,
     read_csv_MNIST rows splitIndex = Returns samples ->
     length samples = length rows /\
     forall i, i < length rows ->
       readRow splitIndex 0 (nth i rows []) = Returns (nth i samples ([], []))).
Proof.
  split; [|split].
  - intros cells vs Hp. rewrite (readRow_parsed splitIndex 0 Hp), Nat.sub_0_r. reflexivity.
  - intros cells Hex. apply readRow_unparsed; exact Hex.
  - induction rows as [|row rows IH]; intros samples E; simpl in E.
    + inversion E; split; [reflexivity|]. simpl; intros; lia.
    + destruct (readRow splitIndex 0 row) as [sample|] eqn:Er; [|discriminate].
      destruct (read_csv_MNIST rows splitIndex) as [rest|] eqn:Es; [|discriminate].
      inversion E; subst. destruct (IH rest eq_refl) as [Hl Hn].
      split; [simpl; lia|]. intros [|i] Hi; simpl; [exact Er|apply Hn; simpl in Hi; lia].
Qed.

End Coverage.

(** * The further properties at work *)

Lemma unary_length (n : nat) :
  String.length (String.concat EmptyString (repeat "1"%string n)) = n.
Proof.
  induction n as [|n IH]; [reflexivity|].
  destruct n as [|n]; [reflexivity|].
  change (String.concat EmptyString (repeat "1"%string (S (S n))))
    with (String "1" (String.concat EmptyString (repeat "1"%string (S n)))).
  cbn [String.length]. rewrite IH. reflexivity.
Qed.

Lemma ZTextIO_round_trip : @TextRoundTrip Z ZTextIO.
Proof.
  split.
  - intros x. unfold stod, printDouble, ZTextIO.
    destruct (x <? 0)%Z eqn:E; cbn [String.append]; rewrite unary_length; f_equal.
    + apply Z.ltb_lt in E. lia.
    + apply Z.ltb_ge in E. lia.
  - intros n. unfold stoull, printSize, ZTextIO. rewrite unary_length. reflexivity.
Qed.

Lemma exWide_wf : wf_layers 2 (layers exWideNetwork).
Proof. simpl; repeat split; repeat constructor. Defined.

Lemma Layer_feedForward_spec_witness :
  length (bias exHidden) = size exHidden /\ shape (weight exHidden) (size exHidden) 2 /\
  exists a z, Layer_feedForward_az exHidden [1; 2]%Z = Ok (a, z) /\
              Layer_feedForward exHidden [1; 2]%Z = Ok a /\ length a = 2.
Proof.
  assert (Hb : length (bias exHidden) = size exHidden) by reflexivity.
  assert (Hw : shape (weight exHidden) (size exHidden) 2) by (repeat split; repeat constructor).
  split; [exact Hb|]. split; [exact Hw|].
  destruct (@Layer_feedForward_spec Z ZScalar exHidden [1; 2]%Z 2 Hb Hw) as [H _].
  destruct (H eq_refl) as (a & z & E1 & E2 & _ & _ & Hl & _).
  exists a, z. split; [exact E1|]. split; [exact E2|exact Hl].
Defined.

Lemma Network_feedForward_spec_witness :
  wf_layers 2 exLayers /\
  exists out, Network_feedForward exLayers [1; 2]%Z = Ok out /\ length out = 1.
Proof.
  split; [exact exLayers_wf|].
  destruct (@Network_feedForward_spec Z ZScalar exLayers 2 [1; 2]%Z exLayers_wf eq_refl)
    as (out & _ & _ & E & Hl & _).
  exists out. split; [exact E|exact Hl].
Defined.

Lemma backPropagate_spec_witness :
  wf_layers 2 exLayers /\ wellShaped 2 exLayers ([1; 2], [1])%Z /\
  (is_ok (backPropagate exLayers Quadratic [1; 2]%Z [1]%Z) = true <->
   Forall isLogistic exLayers).
Proof.
  assert (Hs : wellShaped 2 exLayers ([1; 2], [1])%Z) by (split; reflexivity).
  split; [exact exLayers_wf|]. split; [exact Hs|].
  exact (proj1 (@backPropagate_spec Z ZScalar exLayers Quadratic 2 [1; 2]%Z [1]%Z
                  exLayers_wf Hs)).
Defined.

Lemma updateParameters_keeps_shape_witness :
  wf_layers 2 exLayers /\ Forall (wellShaped 2 exLayers) exTraining /\
  exists ls', updateParameters 2 Quadratic exTraining 1%Z 0%Z exLayers = Ok ls' /\
              wf_layers 2 ls'.
Proof.
  split; [exact exLayers_wf|]. split; [exact exTraining_wellShaped|].
  destruct (@updateParameters_keeps_shape Z ZScalar 2 Quadratic exLayers exTraining
              1%Z 0%Z exLayers_wf exTraining_wellShaped) as [Hk Hr].
  destruct Hr as (ls' & E); [discriminate|repeat constructor|].
  exists ls'. split; [exact E|]. exact (proj1 (Hk ls' E)).
Defined.

Lemma label_round_trip_witness :
  back (layers exWideNetwork) = Ok exTwoOutput /\
  exists out, prediction2output (layers exWideNetwork) [1]%Z = Ok out /\
              output2prediction out = Ok 1%Z.
Proof.
  split; [reflexivity|].
  assert (Hr : (0 <= to_prediction 1%Z < Z.of_nat (getSize exTwoOutput))%Z)
    by (cbn; lia).
  destruct (@label_round_trip Z ZScalar (layers exWideNetwork) exTwoOutput 1%Z
              eq_refl eq_refl eq_refl eq_refl Hr) as (out & E & _ & Ho & _).
  exists out. split; [exact E|]. apply Ho. cbn; lia.
Defined.

Lemma calcAccuracyAndCost_count_witness :
  exists correct cost,
    calcAccuracyAndCost (layers exWideNetwork) (costFunction exWideNetwork)
      exWideTraining 0%Z = Ok (correct, cost) /\
    correct = length (filter (correctlyPredicted exWideNetwork) exWideTraining).
Proof.
  destruct (calcAccuracyAndCost (layers exWideNetwork) (costFunction exWideNetwork)
              exWideTraining 0%Z) as [[correct cost]|e] eqn:E;
    [|vm_compute in E; discriminate].
  exists correct, cost. split; [reflexivity|].
  exact (proj1 (@calcAccuracyAndCost_count Z ZScalar nat exWideNetwork exWideTraining
                  0%Z correct cost E)).
Defined.

Lemma train_large_batch_witness :
  length exTraining < 5 /\
  layers (fst (fst (train exNetwork exTraining [] 3 5 1%Z 0%Z))) = layers exNetwork.
Proof.
  assert (Hlt : length exTraining < 5) by (simpl; lia).
  split; [exact Hlt|].
  exact (@train_large_batch Z ZScalar nat CounterShuffler exNetwork exTraining [] 3 5
           1%Z 0%Z Hlt).
Defined.

Lemma train_completes_witness :
  wf_layers 2 (layers exWideNetwork) /\
  Forall (wellShaped 2 (layers exWideNetwork)) exWideTraining /\
  exists net' training',
    train exWideNetwork exWideTraining [([1; 1], [1])]%Z 2 1 1%Z 0%Z
    = (net', training', Ok tt) /\
    Permutation exWideTraining training' /\
    length (trainingCost net') = 2.
Proof.
  assert (Hs : Forall (wellShaped (inputSize exWideNetwork) (layers exWideNetwork))
                 exWideTraining) by (repeat constructor).
  assert (He : Forall (evaluable (inputSize exWideNetwork)
                         (outputSize (inputSize exWideNetwork) (layers exWideNetwork)))
                 [([1; 1], [1])]%Z).
  { constructor; [|constructor]. split; [reflexivity|].
    right. exists 1%Z. split; [reflexivity|]. cbn; lia. }
  split; [exact exWide_wf|]. split; [exact Hs|].
  destruct (@train_completes Z ZScalar nat CounterShuffler CounterShuffler_spec
              exWideNetwork exWideTraining [([1; 1], [1])]%Z 2 1 1%Z 0%Z
              exWide_wf ltac:(discriminate) ltac:(repeat constructor)
              ltac:(simpl; lia) ltac:(discriminate) Hs He ltac:(lia))
    as (net' & training' & E & Hp & _ & Hl).
  exists net', training'. split; [exact E|]. split; [exact Hp|exact Hl].
Defined.

Lemma load_save_witness :
  load exBuilder 5%N (save exWideNetwork)
  = Returns (mkBuilder 2 Quadratic SGD false,
             mkNetwork 2 [exHidden; exTwoOutput] Quadratic (seedEngine 17111993%N)
               [] [] [] []).
Proof.
  assert (Hls : Forall (fun l : @Layer Z =>
                          0 < size l /\ length (bias l) = size l /\
                          shape (weight l) (size l) (mcols (weight l)))
                  (layers exWideNetwork)).
  { repeat constructor. }
  exact (@load_save Z ZScalar nat ZTextIO CounterSeeder ZTextIO_round_trip
           exWideNetwork exBuilder 5%N Hls).
Defined.
